(** * fast_backups: maximum throughput by augmenting paths

    A shallow embedding of [src/fast_backups.py]: the function
    [maxThroughput], which turns a network of data centres into a residual
    network, and the class [Graph] with its breadth-first search
    ([hasAugmentingPath]), path reconstruction ([getAugmentingPath]) and the
    augmenting loop ([fordFulkerson]).

    Python integers are [Z].  A Python list is a [list]; reading [l[i]]
    follows Python: a negative index counts from the end and an index out of
    range raises [IndexError].  Exceptions and the possibility that the
    [while] loop of [fordFulkerson] never ends are made explicit by the type
    [outcome]. *)

From Stdlib Require Import ZArith Lia Bool.
From stdpp Require Import base option list.

Local Open Scope Z_scope.

(** ** Outcomes of a Python computation *)

Inductive pyexn : Type :=
| IndexError
| AttributeError.

Inductive outcome (A : Type) : Type :=
| Ret (a : A)
| Raise (e : pyexn)
| Timeout.

Arguments Ret {A} a.
Arguments Raise {A} e.
Arguments Timeout {A}.

#[global] Instance outcome_ret : MRet outcome := fun A a => Ret a.

#[global] Instance outcome_bind : MBind outcome := fun A B f m =>
  match m with
  | Ret a => f a
  | Raise e => Raise e
  | Timeout => Timeout
  end.

(** [for x in l: s = body x s] *)
Fixpoint foldM {A S : Type} (body : A -> S -> outcome S) (l : list A) (s : S)
  : outcome S :=
  match l with
  | [] => Ret s
  | x :: l' => s' ← body x s; foldM body l' s'
  end.

(** [for i in range(start, start + count): s = body i s] *)
Fixpoint for_range {S : Type} (body : Z -> S -> outcome S) (start : Z)
  (count : nat) (s : S) : outcome S :=
  match count with
  | O => Ret s
  | Datatypes.S n => s' ← body start s; for_range body (start + 1) n s'
  end.

(** Python's list indexing: the position read by [l[i]] in a list of length
    [len], or [IndexError]. *)
Definition py_index (len : nat) (i : Z) : outcome nat :=
  if (0 <=? i) && (i <? Z.of_nat len) then Ret (Z.to_nat i)
  else if (- Z.of_nat len <=? i) && (i <? 0) then Ret (Z.to_nat (Z.of_nat len + i))
  else Raise IndexError.

Definition py_get {A : Type} (l : list A) (i : Z) : outcome A :=
  k ← py_index (length l) i;
  match l !! k with
  | Some x => Ret x
  | None => Raise IndexError
  end.

(** ** Edges and vertices *)

(** class [Edge]: fields [u], [v], [w]. *)
Record Edge : Type := mkEdge { e_u : Z; e_v : Z; e_w : Z }.

(** class [Vertex].  [Graph.__init__] stores [Vertex(i)] at
    [self.vertices[i]] and no id is ever reassigned, so a reference to a
    vertex object is its position in [self.vertices], and reading [.id] on
    such a reference gives that position back.  The field [previous] holds a
    reference, hence a position. *)
Record Vertex : Type := mkVertex {
  edges : list Edge;
  discovered : bool;
  visited : bool;
  previous : option nat
}.

Definition Vertex_init : Vertex := mkVertex [] false false None.

Definition add_edge (new_edge : Edge) (self : Vertex) : Vertex :=
  mkVertex (edges self ++ [new_edge]) (discovered self) (visited self)
    (previous self).

Definition set_edges (es : list Edge) (self : Vertex) : Vertex :=
  mkVertex es (discovered self) (visited self) (previous self).

Definition set_visited (self : Vertex) : Vertex :=
  mkVertex (edges self) (discovered self) true (previous self).

Definition set_discovered (u : nat) (self : Vertex) : Vertex :=
  mkVertex (edges self) true (visited self) (Some u).

Definition reset_vertex (self : Vertex) : Vertex :=
  mkVertex (edges self) false false None.

(** ** The residual network *)

(** A connection [(a, b, t)]. *)
Abbreviation conn := (Z * Z * Z)%type (only parsing).

(** [self.vertices] *)
Abbreviation Graph := (list Vertex) (only parsing).

Definition edges_of (self : Graph) (k : nat) : list Edge :=
  match self !! k with
  | Some x => edges x
  | None => []
  end.

(** One turn of [for connection in connections] in [Graph.__init__]. *)
Definition insert_edge (connection : conn) (vertices : Graph) : outcome Graph :=
  let '(u, v, w) := connection in
  let edge := mkEdge u v w in
  k ← py_index (length vertices) u;
  Ret (alter (add_edge edge) k vertices).

(** [Graph.__init__] *)
Definition Graph_init (connections : list conn) (total_vertices : Z)
  : outcome Graph :=
  foldM insert_edge connections
    (replicate (Z.to_nat total_vertices) Vertex_init).

(** *** Breadth-first search *)

(** One turn of [for edge in u.edges] in [hasAugmentingPath]. *)
Definition scan_edge (u : nat) (edge : Edge) (st : Graph * list nat)
  : outcome (Graph * list nat) :=
  let '(vertices, queue) := st in
  k ← py_index (length vertices) (e_v edge);
  match vertices !! k with
  | Some v =>
      if negb (discovered v) && (0 <? e_w edge)
      then Ret (alter (set_discovered u) k vertices, queue ++ [k])
      else Ret (vertices, queue)
  | None => Raise IndexError
  end.

(** The [while len(queue) > 0] loop of [hasAugmentingPath]. *)
Fixpoint bfs_loop (fuel : nat) (sink : Z) (queue : list nat) (vertices : Graph)
  : outcome (Graph * bool) :=
  match queue with
  | [] => Ret (vertices, false)
  | u :: queue' =>
      match fuel with
      | O => Timeout
      | Datatypes.S fuel' =>
          let vertices1 := alter set_visited u vertices in
          if Z.of_nat u =? sink then Ret (vertices1, true)
          else
            '(vertices2, queue2) ←
              foldM (scan_edge u) (edges_of vertices1 u) (vertices1, queue');
            bfs_loop fuel' sink queue2 vertices2
      end
  end.

(** [Graph.hasAugmentingPath].  Every turn of the loop removes one vertex
    from the queue and every vertex added to the queue stops being
    undiscovered, so [length self + 1] turns are always enough (lemma
    [bfs_loop_no_timeout]). *)
Definition hasAugmentingPath (self : Graph) (source sink : Z)
  : outcome (Graph * bool) :=
  s ← py_index (length self) source;
  bfs_loop (Datatypes.S (length self)) sink [s] self.

(** *** Path reconstruction *)

(** One turn of [for edge in self.vertices[current].edges]. *)
Definition min_step (prev : Z) (smallest_value : Z) (edge : Edge) : Z :=
  if e_v edge =? prev then
    if smallest_value =? -1 then e_w edge
    else if e_w edge <? smallest_value then e_w edge
    else smallest_value
  else smallest_value.

(** The [while current != source] loop of [getAugmentingPath], followed by
    [path.append(source)]. *)
Fixpoint backtrack (fuel : nat) (self : Graph) (source current : Z)
  (path : list Z) (smallest_value : Z) : outcome (list Z * Z) :=
  if current =? source then Ret (path ++ [source], smallest_value)
  else
    match fuel with
    | O => Timeout
    | Datatypes.S fuel' =>
        let path := path ++ [current] in
        let prev := current in
        v ← py_get self current;
        match previous v with
        | None => Raise AttributeError
        | Some p =>
            let current := Z.of_nat p in
            let smallest_value :=
              fold_left (min_step prev) (edges_of self p) smallest_value in
            backtrack fuel' self source current path smallest_value
        end
    end.

(** [Graph.getAugmentingPath].  The loop follows the [previous] pointers,
    which do not change while it runs.  When they lead to [source], they do
    so within [length self] turns (lemma [getAugmentingPath_no_timeout]);
    when they do not, the Python loop raises within as many turns or does
    not end either.  One case falls outside: on a graph without vertices and
    with [sink != source], Python raises [IndexError] at once where this
    bound gives [Timeout]; [fordFulkerson] makes no such call, since its
    search has raised before. *)
Definition getAugmentingPath (self : Graph) (source sink : Z)
  : outcome (list Z * Z) :=
  '(path, smallest_value) ← backtrack (length self) self source sink [] (-1);
  Ret (reverse path, smallest_value).

(** *** Augmentation *)

(** [for edge in es: if edge.v == dest: edge.w += delta; break] *)
Fixpoint update_first (dest delta : Z) (es : list Edge) : list Edge :=
  match es with
  | [] => []
  | e :: es' =>
      if e_v e =? dest then mkEdge (e_u e) (e_v e) (e_w e + delta) :: es'
      else e :: update_first dest delta es'
  end.

Definition update_edges (dest delta : Z) (self : Vertex) : Vertex :=
  set_edges (update_first dest delta (edges self)) self.

(** One turn of [for i in range(1, len(path)-1)] in [fordFulkerson]. *)
Definition augment_hop (path : list Z) (smallest_value : Z) (i : Z)
  (self : Graph) : outcome Graph :=
  p ← py_get path i;
  vi ← py_index (length self) p;
  match self !! vi with
  | None => Raise IndexError
  | Some v =>
      match previous v with
      | None => Raise AttributeError
      | Some ui =>
          let self1 := alter (update_edges (Z.of_nat vi) (- smallest_value)) ui self in
          let self2 := alter (update_edges (Z.of_nat ui) smallest_value) vi self1 in
          Ret self2
      end
  end.

Definition reset (self : Graph) : Graph := map reset_vertex self.

(** One turn of the [while] loop of [fordFulkerson], test included: the
    graph after it, and the value added to [flow] ([None] when the test fails
    and the loop is left). *)
Definition round (self : Graph) (source sink : Z) : outcome (Graph * option Z) :=
  '(self1, found) ← hasAugmentingPath self source sink;
  if found : bool then
    '(path, smallest_value) ← getAugmentingPath self1 source sink;
    self2 ← for_range (augment_hop path smallest_value) 1
              (Z.to_nat (Z.of_nat (length path) - 1 - 1)) self1;
    Ret (reset self2, Some smallest_value)
  else Ret (self1, None).

Fixpoint fordFulkerson_loop (fuel : nat) (self : Graph) (source sink flow : Z)
  : outcome (Graph * Z) :=
  match fuel with
  | O => Timeout
  | Datatypes.S fuel' =>
      '(self', pushed) ← round self source sink;
      match pushed with
      | None => Ret (self', flow)
      | Some smallest_value =>
          fordFulkerson_loop fuel' self' source sink (flow + smallest_value)
      end
  end.

(** [Graph.fordFulkerson]; [fuel] bounds the number of turns of its loop. *)
Definition fordFulkerson (fuel : nat) (self : Graph) (source sink : Z)
  : outcome Z :=
  '(_, flow) ← fordFulkerson_loop fuel self source sink 0;
  Ret flow.

(** ** The transformation *)

(** The four loops of [maxThroughput] that fill [preprocessed_connections]. *)
Definition preprocess (connections : list conn) (maxIn maxOut targets : list Z)
  : outcome (list conn) :=
  let total_centre := Z.of_nat (length maxIn) in
  pc ← for_range (fun (i : Z) (pc : list conn) =>
          w ← py_get maxIn i;
          Ret (pc ++ [(i + total_centre, i, w)] ++ [(i, i + total_centre, 0)]))
        0 (length maxIn) [];
  pc ← for_range (fun (i : Z) (pc : list conn) =>
          w ← py_get maxOut i;
          Ret (pc ++ [(i, i + total_centre * 2, w)]
                  ++ [(i + total_centre * 2, i, 0)]))
        0 (length maxOut) pc;
  pc ← for_range (fun (i : Z) (pc : list conn) =>
          '(a, b, t) ← py_get connections i;
          let u := a + total_centre * 2 in
          let v := b + total_centre in
          let w := t in
          Ret (pc ++ [(u, v, w)] ++ [(v, u, 0)]))
        0 (length connections) pc;
  for_range (fun (i : Z) (pc : list conn) =>
          t ← py_get targets i;
          let u := t in
          let v := total_centre * 3 in
          w ← py_get maxIn t;
          Ret (pc ++ [(u, v, w)] ++ [(v, u, 0)]))
        0 (length targets) pc.

(** The residual network that [maxThroughput] hands to [fordFulkerson]. *)
Definition build (connections : list conn) (maxIn maxOut targets : list Z)
  : outcome Graph :=
  pc ← preprocess connections maxIn maxOut targets;
  Graph_init pc (Z.of_nat (length maxIn) * 3 + 1).

Definition maxThroughput (fuel : nat) (connections : list conn)
  (maxIn maxOut : list Z) (origin : Z) (targets : list Z) : outcome Z :=
  graph ← build connections maxIn maxOut targets;
  fordFulkerson fuel graph origin (Z.of_nat (length maxIn) * 3).

Arguments py_index : simpl never.
Arguments scan_edge : simpl never.
Arguments augment_hop : simpl never.

(** ** Reading a residual network *)

(** The capacities of the edges from [u] to [v], in adjacency order. *)
Definition capacity (self : Graph) (u : nat) (v : Z) : list Z :=
  map e_w (filter (fun e => e_v e = v) (edges_of self u)).

(** The edges from [u] to [v] that the search of [hasAugmentingPath] can
    cross: those with a positive capacity. *)
Definition crossable (self : Graph) (u : nat) (v : Z) : list Edge :=
  filter (fun e => e_v e = v /\ 0 < e_w e) (edges_of self u).

(** ** Cuts of a capacitated edge list *)

(** All the ways to choose a side for vertices [0 .. n-1]. *)
Fixpoint sides (n : nat) : list (list bool) :=
  match n with
  | O => [[]]
  | Datatypes.S n' => flat_map (fun s => [true :: s; false :: s]) (sides n')
  end.

(** The side of vertex [x] in the choice [s]. *)
Definition on_source_side (s : list bool) (x : Z) : bool :=
  match s !! Z.to_nat x with
  | Some b => b
  | None => false
  end.

(** A cut separates [source] from [sink]. *)
Definition separates (source sink : Z) (s : list bool) : bool :=
  on_source_side s source && negb (on_source_side s sink).

(** The capacity of a cut: the edges that leave the source side. *)
Definition cut_capacity (es : list conn) (s : list bool) : Z :=
  fold_right Z.add 0
    (map (fun c : conn =>
            if on_source_side s c.1.1 && negb (on_source_side s c.1.2)
            then c.2 else 0) es).

(** The smallest element of a list, if it has one. *)
Definition min_list (l : list Z) : option Z :=
  match l with
  | [] => None
  | x :: l' => Some (fold_left Z.min l' x)
  end.

(** The smallest capacity of a cut of the [n] vertices that separates
    [source] from [sink]. *)
Definition min_cut (es : list conn) (n : nat) (source sink : Z) : option Z :=
  min_list
    (map (cut_capacity es)
       (filter (fun s => separates source sink s = true) (sides n))).

(** * Vocabulary of the statements and of their proofs *)

(** ** Well-formed inputs and the transformed graph *)

(** Node ids in range: [maxOut] as long as [maxIn], and every id of
    [connections], [origin] and [targets] in [[0, N)]. *)
Definition ids_in_range (connections : list conn) (maxIn maxOut : list Z)
  (origin : Z) (targets : list Z) : Prop :=
  let N := Z.of_nat (length maxIn) in
  length maxOut = length maxIn
  /\ Forall (fun c : conn => (0 <= c.1.1 < N) /\ (0 <= c.1.2 < N)) connections
  /\ 0 <= origin < N
  /\ Forall (fun t => 0 <= t < N) targets.

(** No negative capacity in the input. *)
Definition capacities_nonneg (connections : list conn) (maxIn maxOut : list Z)
  : Prop :=
  Forall (fun w => 0 <= w) maxIn
  /\ Forall (fun w => 0 <= w) maxOut
  /\ Forall (fun c : conn => 0 <= c.2) connections.

Definition well_formed (connections : list conn) (maxIn maxOut : list Z)
  (origin : Z) (targets : list Z) : Prop :=
  ids_in_range connections maxIn maxOut origin targets
  /\ capacities_nonneg connections maxIn maxOut.

(** The forward arcs of the transformed graph, for [N = length maxIn] data
    centres: [i + N -> i] for the incoming limit of [i], [i -> i + 2N] for its
    outgoing limit, [a + 2N -> b + N] for a channel from [a] to [b], and
    [t -> 3N] for a target [t]. *)
Definition arcs (connections : list conn) (maxIn maxOut targets : list Z)
  : list conn :=
  let N := Z.of_nat (length maxIn) in
  imap (fun i w => (Z.of_nat i + N, Z.of_nat i, w)) maxIn
  ++ imap (fun i w => (Z.of_nat i, Z.of_nat i + N * 2, w)) maxOut
  ++ map (fun c : conn => (c.1.1 + N * 2, c.1.2 + N, c.2)) connections
  ++ map (fun t => (t, N * 3, default 0 (maxIn !! Z.to_nat t))) targets.

(** Every arc followed by its reverse edge of capacity 0. *)
Fixpoint with_reverse (l : list conn) : list conn :=
  match l with
  | [] => []
  | c :: l' => (c.1.1, c.1.2, c.2) :: (c.1.2, c.1.1, 0) :: with_reverse l'
  end.

(** The adjacency list of vertex [k] for an edge list: the edges that leave
    [k], in the order of the list. *)
Definition edges_from (pc : list conn) (k : nat) : list Edge :=
  map (fun c : conn => mkEdge c.1.1 c.1.2 c.2)
    (filter (fun c : conn => c.1.1 = Z.of_nat k) pc).

(** ** The state of the search *)

(** The vertices not yet discovered. *)
Fixpoint undiscovered (vs : Graph) : nat :=
  match vs with
  | [] => O
  | v :: vs' => ((if discovered v then 0 else 1) + undiscovered vs')%nat
  end.

(** Every edge arrives at a vertex of the graph. *)
Definition dests_in_range (vs : Graph) : Prop :=
  forall k e, e ∈ edges_of vs k -> 0 <= e_v e < Z.of_nat (length vs).

(** Every [previous] pointer goes back along an edge of the graph. *)
Definition PrevOK (vs : Graph) : Prop :=
  forall k v u,
    vs !! k = Some v -> previous v = Some u ->
    (u < length vs)%nat
    /\ exists e, e ∈ edges_of vs u /\ py_index (length vs) (e_v e) = Ret k.

(** No edge has a negative capacity. *)
Definition nonneg (self : Graph) : Prop :=
  forall k e, e ∈ edges_of self k -> 0 <= e_w e.

(** The vertices that the loop of [getAugmentingPath] appends to [path],
    starting from [current]: all the vertices met before [source]. *)
Inductive walk (self : Graph) (source : Z) : Z -> list Z -> Prop :=
| walk_done : walk self source source []
| walk_step current v p l :
    current <> source ->
    py_get self current = Ret v ->
    previous v = Some p ->
    walk self source (Z.of_nat p) l ->
    walk self source current (current :: l).

(** ** Residual capacities, pair by pair *)

(** An arc [r_u -> r_v] with what is left of its capacity, [r_fwd], and the
    capacity of its reverse edge, [r_rev]. *)
Record rarc : Type := mkRarc { r_u : Z; r_v : Z; r_fwd : Z; r_rev : Z }.

(** The edge list of a list of arcs: every arc followed by its reverse edge,
    as [preprocessed_connections] is laid out. *)
Fixpoint expand (Q : list rarc) : list conn :=
  match Q with
  | [] => []
  | q :: Q' =>
      (r_u q, r_v q, r_fwd q) :: (r_v q, r_u q, r_rev q) :: expand Q'
  end.

(** The list of pairs at the start: nothing pushed yet. *)
Definition fresh (A : list conn) : list rarc :=
  map (fun c : conn => mkRarc c.1.1 c.1.2 c.2 0) A.

(** What a list of arcs promises: end points and total capacity of each
    pair. *)
Definition sums (Q : list rarc) : list conn :=
  map (fun q => (r_u q, r_v q, r_fwd q + r_rev q)) Q.

(** [update_first], seen on the edge list: the first edge from [u] to [v]
    gets [d] more capacity. *)
Fixpoint upd (u v d : Z) (L : list conn) : list conn :=
  match L with
  | [] => []
  | c :: L' =>
      if decide (c.1.1 = u /\ c.1.2 = v) then (c.1.1, c.1.2, c.2 + d) :: L'
      else c :: upd u v d L'
  end.

(** The two updates of a hop from [u] to [v], seen on the list of arcs: the
    first pair that joins [u] and [v] moves [b] from the edge [u -> v] to the
    edge [v -> u]. *)
Fixpoint push (u v b : Z) (Q : list rarc) : list rarc :=
  match Q with
  | [] => []
  | q :: Q' =>
      if decide (r_u q = u /\ r_v q = v)
      then mkRarc (r_u q) (r_v q) (r_fwd q - b) (r_rev q + b) :: Q'
      else if decide (r_u q = v /\ r_v q = u)
      then mkRarc (r_u q) (r_v q) (r_fwd q + b) (r_rev q - b) :: Q'
      else q :: push u v b Q'
  end.

(** The adjacency lists of [g] are those of the edge list [L]. *)
Definition Rep (g : Graph) (L : list conn) : Prop :=
  forall k, (k < length g)%nat -> edges_of g k = edges_from L k.

(** What the arcs of a graph on [n] vertices must satisfy: end points in
    range and different. *)
Definition arcs_ok (n : nat) (A : list conn) : Prop :=
  Forall (fun c : conn =>
            0 <= c.1.1 < Z.of_nat n /\ 0 <= c.1.2 < Z.of_nat n
            /\ c.1.1 <> c.1.2) A.

(** Between two turns: the search state is reset, no capacity is negative,
    and the adjacency lists are those of a list of pairs that has the end
    points and the total capacities of the arcs [A]. *)
Definition Inv (A : list conn) (n : nat) (g : Graph) : Prop :=
  length g = n
  /\ Forall (fun v => previous v = None) g
  /\ nonneg g
  /\ exists Q, Rep g (expand Q) /\ sums Q = A.

(** ** Hops, turns and the place of an edge *)

(** The body of [for i in range(1, len(path)-1)] once [path[i]] is read. *)
Definition augment_at (smallest_value p : Z) (self : Graph) : outcome Graph :=
  vi ← py_index (length self) p;
  match self !! vi with
  | None => Raise IndexError
  | Some v =>
      match previous v with
      | None => Raise AttributeError
      | Some ui =>
          let self1 := alter (update_edges (Z.of_nat vi) (- smallest_value)) ui self in
          let self2 := alter (update_edges (Z.of_nat ui) smallest_value) vi self1 in
          Ret self2
      end
  end.

(** The graph after the hop from [h.1] to [h.2]. *)
Definition apply_hop (b : Z) (g : Graph) (h : nat * nat) : Graph :=
  alter (update_edges (Z.of_nat h.1) b) h.2
    (alter (update_edges (Z.of_nat h.2) (- b)) h.1 g).

(** The graphs met at the top of the loop of [fordFulkerson]: the graph it
    starts from and the graph after each turn that found a path. *)
Inductive after_rounds (source sink : Z) (g0 : Graph) : Graph -> Prop :=
| after_none : after_rounds source sink g0 g0
| after_round g g' b :
    after_rounds source sink g0 g ->
    round g source sink = Ret (g', Some b) ->
    after_rounds source sink g0 g'.

(** Where [Graph.__init__] puts the edge of entry [j] of its edge list: in
    the adjacency list of the vertex it leaves, after the edges of the earlier
    entries that leave the same vertex. *)
Definition slot (pc : list conn) (j : nat) : option (nat * nat) :=
  match pc !! j with
  | Some c =>
      Some (Z.to_nat c.1.1,
            length (filter (fun c' : conn => c'.1.1 = c.1.1) (take j pc)))
  | None => None
  end.

(** The edge found at a slot. *)
Definition edge_at (g : Graph) (s : option (nat * nat)) : option Edge :=
  match s with
  | Some (k, p) => edges_of g k !! p
  | None => None
  end.

(** ** Inputs used as examples *)

(** Two channels from data centre 0 to data centre 1. *)
Definition par_connections : list conn := [(0, 1, 5); (0, 1, 3)].
Definition par_maxIn : list Z := [10; 10].
Definition par_maxOut : list Z := [10; 10].
Definition par_targets : list Z := [1].

(** One channel from data centre 0 to data centre 1. *)
Definition one_connections : list conn := [(0, 1, 10)].
Definition one_maxIn : list Z := [20; 20].
Definition one_maxOut : list Z := [20; 20].
Definition one_targets : list Z := [1].

(** ** Tactics *)

(** Reduce [Ret a ≫= f] to [f a]. *)
Ltac ret_bind := cbv beta iota delta [mbind outcome_bind].

(** Undo the unfolding of [alter] on lists by [simpl]. *)
Ltac fold_alter :=
  repeat match goal with
    | |- context [list_alter ?f ?k ?l] =>
        change (list_alter f k l) with (alter f k l)
    | H : context [list_alter ?f ?k ?l] |- _ =>
        change (list_alter f k l) with (alter f k l) in H
    end.

(** Evaluate the graph built for the concrete input of the goal. *)
Ltac run_build H :=
  match goal with
  | |- context [build ?c ?i ?o ?t] =>
      destruct (build c i o t) eqn:H; vm_compute in H; try discriminate H;
      injection H as <-
  end.

(** Split a membership in the arcs into the family the arc comes from. *)
Ltac arc_families :=
  repeat match goal with
    | H : _ ∈ _ ++ _ |- _ => apply elem_of_app in H as [H|H]
    | H : _ ∈ map _ _ |- _ => apply list_elem_of_fmap in H as (? & ? & H)
    | H : _ ∈ imap _ _ |- _ => apply elem_of_lookup_imap in H as (? & ? & ? & H)
    | H : _ !! _ = Some _ |- _ => apply lookup_lt_Some in H
    end.

(** ** Graphs as [Graph.__init__] and the search see them *)

(** The edge object made from a connection. *)
Definition conn_edge (c : conn) : Edge := mkEdge c.1.1 c.1.2 c.2.

(** All the edges of a graph, vertex after vertex. *)
Definition all_edges (g : Graph) : list Edge := concat (map edges g).

(** The search state of a vertex is the one [Vertex.__init__] and the reset
    at the end of a turn of [fordFulkerson] give. *)
Definition clear (v : Vertex) : Prop :=
  discovered v = false /\ visited v = false /\ previous v = None.

(** [l[i]] is defined for a list of length [len]. *)
Definition indexable (len : nat) (i : Z) : Prop :=
  - Z.of_nat len <= i < Z.of_nat len.

(** The search can go from vertex [u] to vertex [k]: an edge of positive
    capacity leaves [u] and [self.vertices[edge.v]] is vertex [k]. *)
Definition hop (g : Graph) (u k : nat) : Prop :=
  exists e, e ∈ edges_of g u /\ 0 < e_w e
            /\ py_index (length g) (e_v e) = Ret k.

(** Vertex [k] can be reached from vertex [s] along edges of positive
    capacity. *)
Inductive reach (g : Graph) (s : nat) : nat -> Prop :=
| reach_here : reach g s s
| reach_hop u k : reach g s u -> hop g u k -> reach g s k.

#[global] Instance pyexn_eq_dec : EqDecision pyexn.
Proof. solve_decision. Defined.

#[global] Instance outcome_eq_dec {A} `{EqDecision A} : EqDecision (outcome A).
Proof. solve_decision. Defined.

(** The edges that [Graph.__init__] appends to [self.vertices[k]], for a
    graph of [n] vertices: those of the connections whose start [u] makes
    [self.vertices[u]] the vertex [k], in the order of the list. *)
Definition edges_at (n : nat) (pc : list conn) (k : nat) : list Edge :=
  map conn_edge (filter (fun c : conn => py_index n c.1.1 = Ret k) pc).

(** The state of the search at the top of the loop of [hasAugmentingPath],
    for a search in [g] from vertex [s0]: the edges are those of [g]; the
    queue holds vertices of the graph that can be reached; a vertex taken
    from the queue is not [sink] and every vertex next to it has been
    discovered; a discovered vertex is in the queue or was taken from it; and
    so is [s0]. *)
Definition bfs_inv (g : Graph) (s0 : nat) (sink : Z) (vs : Graph)
  (queue : list nat) : Prop :=
  map edges vs = map edges g
  /\ Forall (fun k => (k < length vs)%nat /\ reach g s0 k) queue
  /\ (forall k v, vs !! k = Some v -> visited v = true ->
        Z.of_nat k <> sink
        /\ forall k', hop g k k' ->
             exists v', vs !! k' = Some v' /\ discovered v' = true)
  /\ (forall k v, vs !! k = Some v -> discovered v = true ->
        k ∈ queue \/ visited v = true)
  /\ (s0 ∈ queue \/ exists v, vs !! s0 = Some v /\ visited v = true).

(** Two vertices and one edge of capacity 5 from the first to the second. *)
Definition two_vertices : Graph :=
  [mkVertex [mkEdge 0 1 5] false false None; mkVertex [] false false None].

(** Three vertices in a row, each edge of capacity 5 with its reverse edge
    of capacity 0. *)
Definition three_in_a_row : Graph :=
  [mkVertex [mkEdge 0 1 5] false false None;
   mkVertex [mkEdge 1 0 0; mkEdge 1 2 5] false false None;
   mkVertex [mkEdge 2 1 0] false false None].

(** The edges that the loop of [getAugmentingPath] compares with
    [smallest_value] while it goes through the vertices [l]: for each vertex
    [c] of [l], every edge from the predecessor of [c] to [c]. *)
Definition scanned (self : Graph) (l : list Z) (e : Edge) : Prop :=
  exists c v p,
    c ∈ l /\ py_get self c = Ret v /\ previous v = Some p
    /\ e ∈ edges_of self p /\ e_v e = c.

(** The [previous] pointers lead from vertex [k] to [source]. *)
Definition walkable (vs : Graph) (source : Z) (k : nat) : Prop :=
  exists l, walk vs source (Z.of_nat k) l.

(** The state of the [previous] pointers at the top of the loop of
    [hasAugmentingPath]: only discovered vertices have one, and they lead
    from every vertex of the queue to [source]. *)
Definition bfs_walk_inv (vs : Graph) (source : Z) (queue : list nat) : Prop :=
  (forall k v, vs !! k = Some v -> previous v <> None -> discovered v = true)
  /\ Forall (walkable vs source) queue.

(** Every [previous] pointer goes back along an edge of positive capacity. *)
Definition PrevPos (vs : Graph) : Prop :=
  forall k v u, vs !! k = Some v -> previous v = Some u -> hop vs u k.

(** The total capacity of the edges that leave vertex [o]. *)
Definition out (g : Graph) (o : nat) : Z :=
  fold_right Z.add 0 (map e_w (edges_of g o)).

(** No two edges of the list join the same vertices in the same direction. *)
Definition simple (L : list conn) : Prop := NoDup (map fst L).

(** No arc joins [source] and [sink], in either direction. *)
Definition not_adjacent (source sink : Z) (A : list conn) : Prop :=
  Forall (fun c : conn =>
            ~ (c.1.1 = source /\ c.1.2 = sink)
            /\ ~ (c.1.1 = sink /\ c.1.2 = source)) A.

(** The total capacity of the edges of an edge list that leave vertex [o]. *)
Definition srcsum (L : list conn) (o : nat) : Z :=
  fold_right Z.add 0 (map e_w (edges_from L o)).

(** ** The reversal at the end of [getAugmentingPath] *)

(** [l[i] = x] *)
Definition py_set {A : Type} (l : list A) (i : Z) (x : A) : outcome (list A) :=
  k ← py_index (length l) i;
  Ret (<[k:=x]> l).

(** [path[i], path[len(path)-i-1] = path[len(path)-i-1], path[i]]: the right
    side is read first, then the two places are written from left to
    right. *)
Definition swap_ends (i : Z) (path : list Z) : outcome (list Z) :=
  x ← py_get path (Z.of_nat (length path) - i - 1);
  y ← py_get path i;
  path ← py_set path i x;
  py_set path (Z.of_nat (length path) - i - 1) y.

(** [for i in range(len(path)//2): path[i], path[len(path)-i-1] = ...], as
    [getAugmentingPath] writes it; its model above uses [reverse]. *)
Definition reverse_in_place (path : list Z) : outcome (list Z) :=
  for_range swap_ends 0 (Z.to_nat (Z.of_nat (length path) / 2)) path.

(** * Properties *)

(** ** Turns of the loop of [fordFulkerson] *)

Lemma fordFulkerson_loop_push fuel self source sink flow self' b :
  round self source sink = Ret (self', Some b) ->
  fordFulkerson_loop (Datatypes.S fuel) self source sink flow
  = fordFulkerson_loop fuel self' source sink (flow + b).
Proof. intros H. simpl. rewrite H. reflexivity. Qed.

Lemma fordFulkerson_loop_leave fuel self source sink flow self' :
  round self source sink = Ret (self', None) ->
  fordFulkerson_loop (Datatypes.S fuel) self source sink flow = Ret (self', flow).
Proof. intros H. simpl. rewrite H. reflexivity. Qed.

(** A turn that gives the graph back unchanged is repeated for ever. *)
Lemma fordFulkerson_loop_stuck self source sink b :
  round self source sink = Ret (self, Some b) ->
  forall fuel flow, fordFulkerson_loop fuel self source sink flow = Timeout.
Proof.
  intros H fuel. induction fuel as [|fuel IH]; intros flow; [reflexivity|].
  rewrite (fordFulkerson_loop_push _ _ _ _ _ _ _ H). apply IH.
Qed.

(** ** Two channels between the same pair of data centres *)

(** After two turns (3 then 2 units along the first channel) the search
    still reaches the super target through the second channel, the value
    computed for the path is 0, and the turn changes nothing. *)
Lemma par_loop fuel :
  (g ← build par_connections par_maxIn par_maxOut par_targets;
   fordFulkerson_loop fuel g 0 6 0) = Timeout.
Proof.
  run_build Hb. simpl.
  destruct fuel as [|[|fuel]]; [reflexivity | reflexivity |].
  erewrite fordFulkerson_loop_push by (vm_compute; reflexivity).
  erewrite fordFulkerson_loop_push by (vm_compute; reflexivity).
  eapply fordFulkerson_loop_stuck. vm_compute. reflexivity.
Qed.

(** C1, at a well-formed input with two channels from data centre 0 to data
    centre 1: whatever the number of turns allowed, [maxThroughput] has not
    returned; the loop of [fordFulkerson] runs for ever. *)
Theorem maxThroughput_parallel_channels_diverges :
  forall fuel,
    maxThroughput fuel par_connections par_maxIn par_maxOut 0 par_targets
    = Timeout.
Proof.
  intros fuel. unfold maxThroughput, fordFulkerson.
  change (Z.of_nat (length par_maxIn) * 3) with 6.
  pose proof (par_loop fuel) as H.
  destruct (build par_connections par_maxIn par_maxOut par_targets); simpl in *;
    [rewrite H; reflexivity | discriminate H | reflexivity].
Qed.

(** C2, at the same input: the smallest cut between the origin and the super
    target in the transformed graph has capacity 8, and [maxThroughput]
    never returns 8 (it never returns). *)
Theorem maxThroughput_parallel_channels_min_cut :
  (pc ← preprocess par_connections par_maxIn par_maxOut par_targets;
   Ret (min_cut pc 7 0 6)) = Ret (Some 8)
  /\ forall fuel,
       maxThroughput fuel par_connections par_maxIn par_maxOut 0 par_targets
       <> Ret 8.
Proof.
  split; [vm_compute; reflexivity|].
  intros fuel. unfold maxThroughput, fordFulkerson.
  change (Z.of_nat (length par_maxIn) * 3) with 6.
  pose proof (par_loop fuel) as H.
  destruct (build par_connections par_maxIn par_maxOut par_targets); simpl in *;
    [rewrite H; discriminate | discriminate..].
Qed.

(** ** One channel: the hop into the super target *)

(** C4, on the first turn for one channel of capacity 10 between two data
    centres: the path is 0, 4, 3, 1, 6 with value 10; the edges of the hops
    (0,4), (4,3) and (3,1) and their reverse edges are updated, the edge of
    the last hop (1,6) keeps its capacity 20 and its reverse edge stays at
    0. *)
Theorem augmentation_skips_last_hop :
  exists g g1 g2,
    build one_connections one_maxIn one_maxOut one_targets = Ret g
    /\ hasAugmentingPath g 0 6 = Ret (g1, true)
    /\ getAugmentingPath g1 0 6 = Ret ([0; 4; 3; 1; 6], 10)
    /\ round g 0 6 = Ret (g2, Some 10)
    /\ (capacity g 0 4, capacity g2 0 4, capacity g2 4 0) = ([20], [10], [10])
    /\ (capacity g 4 3, capacity g2 4 3, capacity g2 3 4) = ([10], [0], [10])
    /\ (capacity g 3 1, capacity g2 3 1, capacity g2 1 3) = ([20], [10], [10])
    /\ (capacity g 1 6, capacity g2 1 6, capacity g2 6 1) = ([20], [20], [0]).
Proof.
  do 3 eexists.
  split; [vm_compute; reflexivity|].
  split; [vm_compute; reflexivity|].
  split; [vm_compute; reflexivity|].
  split; [vm_compute; reflexivity|].
  repeat split; vm_compute; reflexivity.
Qed.

(** ** The value computed for a path over parallel edges *)

(** C5, in the third turn for two channels of capacities 5 and 3 from data
    centre 0 to data centre 1, where the first channel is used up: the search
    succeeds; on each hop of the path 0, 4, 3, 1, 6 one edge can be crossed,
    of capacity 5, 3, 5 and 10; but [getAugmentingPath] returns the value 0,
    the capacity of the used-up edge from 4 to 3 that the search did not
    cross. *)
Theorem getAugmentingPath_counts_uncrossed_edge :
  exists g g1 g2 g3,
    build par_connections par_maxIn par_maxOut par_targets = Ret g
    /\ round g 0 6 = Ret (g1, Some 3)
    /\ round g1 0 6 = Ret (g2, Some 2)
    /\ hasAugmentingPath g2 0 6 = Ret (g3, true)
    /\ getAugmentingPath g3 0 6 = Ret ([0; 4; 3; 1; 6], 0)
    /\ capacity g3 4 3 = [0; 3]
    /\ map e_w (crossable g3 0 4) = [5]
    /\ map e_w (crossable g3 4 3) = [3]
    /\ map e_w (crossable g3 3 1) = [5]
    /\ map e_w (crossable g3 1 6) = [10].
Proof.
  do 4 eexists.
  split; [vm_compute; reflexivity|].
  split; [vm_compute; reflexivity|].
  split; [vm_compute; reflexivity|].
  split; [vm_compute; reflexivity|].
  repeat split; vm_compute; reflexivity.
Qed.

(** ** The scenarios *)

(** Once the loop has ended, more turns allowed change nothing. *)
Lemma fordFulkerson_loop_more_fuel fuel :
  forall self source sink flow r k,
    fordFulkerson_loop fuel self source sink flow = Ret r ->
    fordFulkerson_loop (fuel + k) self source sink flow = Ret r.
Proof.
  induction fuel as [|fuel IH]; intros self source sink flow r k H;
    [discriminate|].
  simpl in *.
  destruct (round self source sink) as [[self' pushed]| |]; try discriminate.
  revert H. ret_bind. destruct pushed as [b|]; [|done]. apply IH.
Qed.

Lemma maxThroughput_more_fuel fuel k connections maxIn maxOut origin targets v :
  maxThroughput fuel connections maxIn maxOut origin targets = Ret v ->
  maxThroughput (fuel + k) connections maxIn maxOut origin targets = Ret v.
Proof.
  unfold maxThroughput, fordFulkerson.
  destruct (build connections maxIn maxOut targets) as [g| |]; try discriminate.
  ret_bind.
  destruct (fordFulkerson_loop fuel g origin _ 0) as [[g' flow]| |] eqn:H;
    try discriminate.
  intros [= <-]. by rewrite (fordFulkerson_loop_more_fuel _ _ _ _ _ _ k H).
Qed.

(** C7: the three scenarios return 1, 10 and 8, as soon as the loop of
    [fordFulkerson] is allowed its two or three turns. *)
Theorem maxThroughput_scenarios :
  forall fuel,
    maxThroughput (2 + fuel) [(0, 1, 5); (1, 2, 5)] [10; 1; 10] [10; 10; 10] 0 [2]
    = Ret 1
    /\ maxThroughput (3 + fuel) [(0, 1, 5); (0, 2, 5); (1, 3, 5); (2, 3, 5)]
         [10; 10; 10; 10] [10; 10; 10; 10] 0 [3] = Ret 10
    /\ maxThroughput (3 + fuel) [(0, 1, 4); (0, 2, 4)] [10; 10; 10] [10; 10; 10]
         0 [1; 2] = Ret 8.
Proof.
  intros fuel.
  repeat split; apply maxThroughput_more_fuel; vm_compute; reflexivity.
Qed.

(** ** The origin among the targets *)

(** C9, for a single data centre that is both origin and target, with
    [maxIn = [1]]: the path 0, 3 has no inner vertex, nothing is updated, and
    the loop runs for ever. *)
Theorem maxThroughput_origin_in_targets_diverges :
  forall fuel, maxThroughput fuel [] [1] [1] 0 [0] = Timeout.
Proof.
  intros fuel. unfold maxThroughput, fordFulkerson.
  run_build Hb. simpl.
  erewrite fordFulkerson_loop_stuck; [reflexivity|].
  vm_compute. reflexivity.
Qed.

(** ** Source equal to sink *)

Lemma py_index_in_range (len : nat) (i : Z) :
  0 <= i < Z.of_nat len -> py_index len i = Ret (Z.to_nat i).
Proof.
  intros H. unfold py_index.
  destruct (0 <=? i) eqn:H0; [|lia].
  destruct (i <? Z.of_nat len) eqn:H1; [reflexivity|lia].
Qed.

Lemma py_index_of_nat (len k : nat) :
  (k < len)%nat -> py_index len (Z.of_nat k) = Ret k.
Proof.
  intros H. rewrite py_index_in_range by lia. by rewrite Nat2Z.id.
Qed.

Lemma length_reset self : length (reset self) = length self.
Proof. apply length_map. Qed.

Lemma backtrack_at_source fuel self source path smallest_value :
  backtrack fuel self source source path smallest_value
  = Ret (path ++ [source], smallest_value).
Proof. destruct fuel; simpl; by rewrite Z.eqb_refl. Qed.

(** With [source == sink] the search succeeds at once, the path is the
    single vertex [source], its value is the initial [-1], and no edge is
    updated. *)
Lemma round_source_is_sink self s :
  0 <= s < Z.of_nat (length self) ->
  round self s s
  = Ret (reset (alter set_visited (Z.to_nat s) self), Some (-1)).
Proof.
  intros H. unfold round, hasAugmentingPath.
  rewrite py_index_in_range by done. simpl.
  rewrite Z2Nat.id by lia. rewrite Z.eqb_refl. simpl.
  unfold getAugmentingPath. rewrite backtrack_at_source. reflexivity.
Qed.

Lemma fordFulkerson_loop_source_is_sink fuel :
  forall self s flow,
    0 <= s < Z.of_nat (length self) ->
    fordFulkerson_loop fuel self s s flow = Timeout.
Proof.
  induction fuel as [|fuel IH]; intros self s flow H; [reflexivity|].
  rewrite (fordFulkerson_loop_push _ _ _ _ _ _ _ (round_source_is_sink _ _ H)).
  apply IH. by rewrite length_reset, length_alter.
Qed.

(** C8, for every graph and every vertex id [s] of it: [fordFulkerson(s, s)]
    does not return 0; each turn of its loop adds [-1] to [flow] and the loop
    never ends. *)
Theorem fordFulkerson_source_is_sink_diverges (self : Graph) (s : Z) :
  0 <= s < Z.of_nat (length self) ->
  forall fuel, fordFulkerson fuel self s s = Timeout.
Proof.
  intros H fuel. unfold fordFulkerson.
  by rewrite fordFulkerson_loop_source_is_sink.
Qed.

Lemma fordFulkerson_source_is_sink_diverges_witness :
  fordFulkerson 5 [Vertex_init] 0 0 = Timeout.
Proof.
  apply (fordFulkerson_source_is_sink_diverges [Vertex_init] 0). simpl. lia.
Defined.

(** ** The search always ends *)

Lemma undiscovered_le vs : (undiscovered vs <= length vs)%nat.
Proof. induction vs as [|v vs IH]; simpl; [lia|]. destruct (discovered v); lia. Qed.

Lemma undiscovered_set_visited k vs :
  undiscovered (alter set_visited k vs) = undiscovered vs.
Proof.
  revert k. induction vs as [|v vs IH]; intros [|k]; simpl; auto.
  fold_alter. by rewrite IH.
Qed.

Lemma undiscovered_set_discovered u k vs v :
  vs !! k = Some v -> discovered v = false ->
  (undiscovered (alter (set_discovered u) k vs) + 1 = undiscovered vs)%nat.
Proof.
  revert k. induction vs as [|x vs IH]; intros [|k] Hk Hd; simpl in *;
    try discriminate.
  - injection Hk as ->. rewrite Hd. lia.
  - fold_alter. specialize (IH _ Hk Hd). destruct (discovered x); lia.
Qed.

Lemma map_edges_alter (f : Vertex -> Vertex) k (vs : Graph) :
  (forall v, edges (f v) = edges v) ->
  map edges (alter f k vs) = map edges vs.
Proof.
  intros Hf. revert k. induction vs as [|x vs IH]; intros [|k]; simpl; auto.
  - by rewrite Hf.
  - fold_alter. by rewrite IH.
Qed.

Lemma edges_of_map_edges (vs vs' : Graph) k :
  map edges vs' = map edges vs -> edges_of vs' k = edges_of vs k.
Proof.
  intros H. unfold edges_of.
  assert (Hk : (map edges vs') !! k = (map edges vs) !! k) by by rewrite H.
  change (map edges vs') with (edges <$> vs') in Hk.
  change (map edges vs) with (edges <$> vs) in Hk.
  rewrite !list_lookup_fmap in Hk.
  destruct (vs' !! k), (vs !! k); simpl in Hk; congruence.
Qed.

Lemma length_map_edges (vs vs' : Graph) :
  map edges vs' = map edges vs -> length vs' = length vs.
Proof. intros H. by rewrite <- (length_map edges vs'), H, length_map. Qed.

(** What one scanned edge does to the graph and the queue. *)
Lemma scan_edge_ret u e vs q vs' q' :
  scan_edge u e (vs, q) = Ret (vs', q') ->
  map edges vs' = map edges vs
  /\ (length q' + undiscovered vs' = length q + undiscovered vs)%nat
  /\ (q' = q \/ exists k, q' = q ++ [k] /\ py_index (length vs) (e_v e) = Ret k).
Proof.
  unfold scan_edge. destruct (py_index (length vs) (e_v e)) as [k| |] eqn:Hk;
    simpl; try discriminate.
  destruct (vs !! k) as [v|] eqn:Hv; try discriminate.
  destruct (negb (discovered v) && (0 <? e_w e)) eqn:Hc; intros [= <- <-].
  - apply andb_true_iff in Hc as [Hd _]. apply negb_true_iff in Hd.
    split; [by apply map_edges_alter|]. split; [|right; eauto].
    rewrite length_app. simpl.
    pose proof (undiscovered_set_discovered u k vs v Hv Hd). lia.
  - auto.
Qed.

Lemma scan_edge_no_timeout u e st : scan_edge u e st <> Timeout.
Proof.
  destruct st as [vs q]. unfold scan_edge.
  unfold py_index. repeat (case_match; simpl; try discriminate).
Qed.

Lemma foldM_scan_edge_ret u es :
  forall vs q vs' q',
    foldM (scan_edge u) es (vs, q) = Ret (vs', q') ->
    map edges vs' = map edges vs
    /\ (length q' + undiscovered vs' = length q + undiscovered vs)%nat
    /\ exists added,
         q' = q ++ added
         /\ Forall (fun k => exists e, e ∈ es
                      /\ py_index (length vs) (e_v e) = Ret k) added.
Proof.
  induction es as [|e es IH]; intros vs q vs' q' H; simpl in H.
  - injection H as <- <-. split; [done|]. split; [done|].
    exists []. by rewrite app_nil_r.
  - destruct (scan_edge u e (vs, q)) as [[vs1 q1]| |] eqn:H1; simpl in H;
      try discriminate.
    apply scan_edge_ret in H1 as (He1 & Hm1 & Hq1).
    apply IH in H as (He & Hm & added & -> & Hadd).
    rewrite (length_map_edges _ _ He1) in Hadd.
    split; [congruence|]. split; [lia|].
    destruct Hq1 as [->|(k & -> & Hk)].
    + exists added. split; [done|].
      eapply Forall_impl; [exact Hadd|]. intros k (e' & Hin & Hk).
      exists e'. split; [by right|done].
    + exists (k :: added). split; [by rewrite <- app_assoc|].
      constructor.
      * exists e. split; [by left|done].
      * eapply Forall_impl; [exact Hadd|]. intros k' (e' & Hin & Hk').
        exists e'. split; [by right|done].
Qed.

Lemma foldM_scan_edge_no_timeout u es :
  forall st, foldM (scan_edge u) es st <> Timeout.
Proof.
  induction es as [|e es IH]; intros st; simpl; [discriminate|].
  destruct (scan_edge u e st) eqn:H; simpl; [apply IH|discriminate|].
  by apply scan_edge_no_timeout in H.
Qed.

(** The search never runs out of the turns [hasAugmentingPath] gives it. *)
Lemma bfs_loop_no_timeout fuel sink :
  forall queue vs,
    (length queue + undiscovered vs <= fuel)%nat ->
    bfs_loop fuel sink queue vs <> Timeout.
Proof.
  induction fuel as [|fuel IH]; intros [|u q] vs Hm; simpl in *;
    try discriminate; try lia.
  destruct (Z.of_nat u =? sink); [discriminate|].
  destruct (foldM (scan_edge u) (edges_of (alter set_visited u vs) u)
              (alter set_visited u vs, q)) as [[vs2 q2]| |] eqn:Hs; simpl;
    [|discriminate|by apply foldM_scan_edge_no_timeout in Hs].
  apply foldM_scan_edge_ret in Hs as (_ & Hm2 & _).
  apply IH. rewrite undiscovered_set_visited in Hm2. lia.
Qed.

Lemma hasAugmentingPath_no_timeout self source sink :
  hasAugmentingPath self source sink <> Timeout.
Proof.
  unfold hasAugmentingPath.
  destruct (py_index (length self) source) as [s| |] eqn:Hs;
    [|discriminate|].
  - apply bfs_loop_no_timeout. pose proof (undiscovered_le self). simpl. lia.
  - revert Hs. unfold py_index. repeat case_match; discriminate.
Qed.

(** ** The graph built by [maxThroughput] *)

Lemma with_reverse_app l1 l2 :
  with_reverse (l1 ++ l2) = with_reverse l1 ++ with_reverse l2.
Proof. induction l1 as [|c l1 IH]; simpl; [done|]. by rewrite IH. Qed.

Lemma py_get_lookup {A} (l : list A) (k : nat) (x : A) :
  l !! k = Some x -> py_get l (Z.of_nat k) = Ret x.
Proof.
  intros H. unfold py_get.
  rewrite py_index_of_nat by (by apply lookup_lt_Some in H). simpl.
  by rewrite H.
Qed.

Lemma py_get_in_range (l : list Z) (i : Z) :
  0 <= i < Z.of_nat (length l) ->
  py_get l i = Ret (default 0 (l !! Z.to_nat i)).
Proof.
  intros H. destruct (lookup_lt_is_Some_2 l (Z.to_nat i)) as [x Hx]; [lia|].
  rewrite <- (Z2Nat.id i) at 1 by lia.
  rewrite (py_get_lookup _ _ _ Hx). by rewrite Hx.
Qed.

(** A loop over the positions of [l] that appends one arc and its reverse
    edge at every turn. *)
Lemma for_range_pairs_from {A} (body : Z -> list conn -> outcome (list conn))
  (l : list A) :
  forall (f : nat -> A -> conn) (n : nat) (pc : list conn),
    (forall k x pc', l !! k = Some x ->
       body (Z.of_nat (n + k)) pc' = Ret (pc' ++ with_reverse [f k x])) ->
    for_range body (Z.of_nat n) (length l) pc
    = Ret (pc ++ with_reverse (imap f l)).
Proof.
  induction l as [|x l IH]; intros f n pc Hbody; simpl.
  - by rewrite app_nil_r.
  - pose proof (Hbody O x pc eq_refl) as H0.
    rewrite Nat.add_0_r in H0. rewrite H0. simpl.
    replace (Z.of_nat n + 1) with (Z.of_nat (Datatypes.S n)) by lia.
    rewrite (IH (f ∘ Datatypes.S)).
    + by rewrite <- app_assoc.
    + intros k y pc' Hk. specialize (Hbody (Datatypes.S k) y pc' Hk).
      by replace (Datatypes.S n + k)%nat with (n + Datatypes.S k)%nat by lia.
Qed.

Lemma for_range_pairs {A} (body : Z -> list conn -> outcome (list conn))
  (l : list A) (f : nat -> A -> conn) (pc : list conn) :
  (forall k x pc', l !! k = Some x ->
     body (Z.of_nat k) pc' = Ret (pc' ++ with_reverse [f k x])) ->
  for_range body 0 (length l) pc = Ret (pc ++ with_reverse (imap f l)).
Proof. intros H. by apply (for_range_pairs_from body l f O pc). Qed.

(** The list [preprocessed_connections]. *)
Lemma preprocess_arcs connections maxIn maxOut targets :
  Forall (fun t => 0 <= t < Z.of_nat (length maxIn)) targets ->
  preprocess connections maxIn maxOut targets
  = Ret (with_reverse (arcs connections maxIn maxOut targets)).
Proof.
  intros Ht. unfold preprocess, arcs.
  rewrite (for_range_pairs _ maxIn
             (fun i w => (Z.of_nat i + Z.of_nat (length maxIn), Z.of_nat i, w))).
  2:{ intros k x pc' Hk. by rewrite (py_get_lookup _ _ _ Hk). }
  simpl.
  rewrite (for_range_pairs _ maxOut
             (fun i w => (Z.of_nat i, Z.of_nat i + Z.of_nat (length maxIn) * 2, w))).
  2:{ intros k x pc' Hk. by rewrite (py_get_lookup _ _ _ Hk). }
  simpl.
  rewrite (for_range_pairs _ connections
             (const (fun c : conn =>
                (c.1.1 + Z.of_nat (length maxIn) * 2,
                 c.1.2 + Z.of_nat (length maxIn), c.2)))).
  2:{ intros k [[a b] t] pc' Hk. by rewrite (py_get_lookup _ _ _ Hk). }
  simpl.
  rewrite (for_range_pairs _ targets
             (const (fun t => (t, Z.of_nat (length maxIn) * 3,
                               default 0 (maxIn !! Z.to_nat t))))).
  2:{ intros k t pc' Hk. rewrite (py_get_lookup _ _ _ Hk). simpl.
      rewrite py_get_in_range; [done|].
      rewrite Forall_forall in Ht. apply Ht. by eapply list_elem_of_lookup_2. }
  rewrite !imap_const. rewrite !with_reverse_app, <- !app_assoc. done.
Qed.

Lemma edges_from_cons c pc k :
  edges_from (c :: pc) k
  = if decide (c.1.1 = Z.of_nat k)
    then mkEdge c.1.1 c.1.2 c.2 :: edges_from pc k
    else edges_from pc k.
Proof. unfold edges_from. rewrite filter_cons. by case_decide. Qed.

(** [Graph.__init__] appends every edge to the adjacency list of the vertex
    it leaves. *)
Lemma foldM_insert_edge pc :
  forall g0,
    Forall (fun c : conn => 0 <= c.1.1 < Z.of_nat (length g0)) pc ->
    exists g,
      foldM insert_edge pc g0 = Ret g
      /\ length g = length g0
      /\ forall k v0, g0 !! k = Some v0 ->
           g !! k = Some (mkVertex (edges v0 ++ edges_from pc k)
                            (discovered v0) (visited v0) (previous v0)).
Proof.
  induction pc as [|[[u v] w] pc IH]; intros g0 Hr.
  - exists g0. split; [done|]. split; [done|]. intros k v0 Hk.
    unfold edges_from. rewrite filter_nil. simpl. rewrite app_nil_r.
    by destruct v0.
  - apply Forall_cons in Hr as [Hu Hr]. simpl in Hu.
    simpl. unfold insert_edge at 1. rewrite py_index_in_range by done. simpl.
    destruct (IH (alter (add_edge (mkEdge u v w)) (Z.to_nat u) g0))
      as (g & Hg & Hlen & Hlook).
    { by rewrite length_alter. }
    exists g. split; [done|]. split; [by rewrite Hlen, length_alter|].
    intros k v0 Hk. rewrite edges_from_cons. simpl.
    destruct (decide (u = Z.of_nat k)) as [->|Hne].
    + rewrite Nat2Z.id in Hlook.
      rewrite (Hlook k (add_edge (mkEdge (Z.of_nat k) v w) v0)).
      * simpl. by rewrite <- app_assoc.
      * by rewrite list_lookup_alter_eq, Hk.
    + rewrite (Hlook k v0); [done|].
      rewrite list_lookup_alter_ne; [done|]. lia.
Qed.

Lemma Graph_init_edges pc n :
  Forall (fun c : conn => 0 <= c.1.1 < n) pc ->
  exists g,
    Graph_init pc n = Ret g
    /\ length g = Z.to_nat n
    /\ forall k, (k < Z.to_nat n)%nat ->
         g !! k = Some (mkVertex (edges_from pc k) false false None).
Proof.
  intros Hr. unfold Graph_init.
  destruct (foldM_insert_edge pc (replicate (Z.to_nat n) Vertex_init))
    as (g & Hg & Hlen & Hlook).
  { rewrite length_replicate. eapply Forall_impl; [exact Hr|].
    intros c Hc. simpl in Hc. lia. }
  exists g. split; [done|]. split; [by rewrite Hlen, length_replicate|].
  intros k Hk. by rewrite (Hlook k Vertex_init) by by apply lookup_replicate_2.
Qed.

Lemma Forall_with_reverse (P : conn -> Prop) l :
  Forall (fun c : conn => P (c.1.1, c.1.2, c.2) /\ P (c.1.2, c.1.1, 0)) l ->
  Forall P (with_reverse l).
Proof.
  induction 1 as [|c l [H1 H2] _ IH]; simpl; [constructor|].
  by repeat constructor.
Qed.

(** Where the arcs go: each leaves a vertex below [3N], arrives at a vertex
    up to [3N], joins two different vertices, and only the arc of a target
    arrives at [3N]. *)
Lemma arcs_in_range connections maxIn maxOut origin targets :
  ids_in_range connections maxIn maxOut origin targets ->
  Forall (fun c : conn =>
            0 <= c.1.1 < Z.of_nat (length maxIn) * 3
            /\ 0 <= c.1.2 < Z.of_nat (length maxIn) * 3 + 1
            /\ c.1.1 <> c.1.2
            /\ (targets = [] -> c.1.2 < Z.of_nat (length maxIn) * 3))
    (arcs connections maxIn maxOut targets).
Proof.
  intros (Hlen & Hc & Ho & Ht). unfold arcs.
  repeat apply Forall_app_2.
  - apply Forall_forall. intros c Hin.
    apply elem_of_lookup_imap in Hin as (i & w & -> & Hi).
    apply lookup_lt_Some in Hi. simpl. lia.
  - apply Forall_forall. intros c Hin.
    apply elem_of_lookup_imap in Hin as (i & w & -> & Hi).
    apply lookup_lt_Some in Hi. simpl. lia.
  - apply Forall_forall. intros c Hin.
    apply list_elem_of_fmap in Hin as (x & -> & Hx).
    rewrite Forall_forall in Hc. specialize (Hc x Hx). simpl. lia.
  - apply Forall_forall. intros c Hin.
    apply list_elem_of_fmap in Hin as (x & -> & Hx).
    rewrite Forall_forall in Ht. specialize (Ht x Hx). simpl.
    repeat split; try lia. intros ->. by apply elem_of_nil in Hx.
Qed.

(** The residual network handed to [fordFulkerson]. *)
Lemma build_transformed connections maxIn maxOut origin targets :
  ids_in_range connections maxIn maxOut origin targets ->
  exists g,
    build connections maxIn maxOut targets = Ret g
    /\ length g = Datatypes.S (length maxIn * 3)
    /\ forall k, (k < length g)%nat ->
         g !! k = Some (mkVertex
                          (edges_from
                             (with_reverse
                                (arcs connections maxIn maxOut targets)) k)
                          false false None).
Proof.
  intros Hr. pose proof (arcs_in_range _ _ _ _ _ Hr) as Ha.
  destruct Hr as (Hlen & Hc & Ho & Ht).
  unfold build. rewrite preprocess_arcs by done. simpl.
  destruct (Graph_init_edges
              (with_reverse (arcs connections maxIn maxOut targets))
              (Z.of_nat (length maxIn) * 3 + 1)) as (g & Hg & Hl & Hk).
  { apply Forall_with_reverse. eapply Forall_impl; [exact Ha|].
    intros c. simpl. lia. }
  assert (Z.to_nat (Z.of_nat (length maxIn) * 3 + 1)
          = Datatypes.S (length maxIn * 3)) as Hn by lia.
  exists g. split; [done|]. split; [lia|].
  intros k Hlt. apply Hk. lia.
Qed.

(** C3: for [N = length maxIn] data centres and ids in range,
    [preprocessed_connections] is the list of the arcs [i + N -> i] (capacity
    [maxIn[i]]), [i -> i + 2N] (capacity [maxOut[i]]), [a + 2N -> b + N]
    (capacity [t], for every channel [(a, b, t)]) and [t -> 3N] (capacity
    [maxIn[t]], for every target [t]), each followed by its reverse edge of
    capacity 0; the graph has [3N + 1] vertices, the adjacency list of each is
    made of the edges of that list that leave it, and [fordFulkerson] is run
    on it from [origin] to [3N]. *)
Theorem maxThroughput_builds_transformed_graph connections maxIn maxOut origin
  targets :
  ids_in_range connections maxIn maxOut origin targets ->
  preprocess connections maxIn maxOut targets
  = Ret (with_reverse (arcs connections maxIn maxOut targets))
  /\ exists g,
       build connections maxIn maxOut targets = Ret g
       /\ Z.of_nat (length g) = 3 * Z.of_nat (length maxIn) + 1
       /\ (forall k, (k < length g)%nat ->
             g !! k = Some (mkVertex
                              (edges_from
                                 (with_reverse
                                    (arcs connections maxIn maxOut targets)) k)
                              false false None))
       /\ forall fuel,
            maxThroughput fuel connections maxIn maxOut origin targets
            = fordFulkerson fuel g origin (Z.of_nat (length maxIn) * 3).
Proof.
  intros Hr. split.
  - apply preprocess_arcs. apply Hr.
  - destruct (build_transformed _ _ _ _ _ Hr) as (g & Hg & Hl & Hk).
    exists g. split; [done|]. split; [lia|]. split; [done|].
    intros fuel. unfold maxThroughput. by rewrite Hg.
Qed.

Lemma maxThroughput_builds_transformed_graph_witness :
  preprocess [(0, 1, 7)] [3; 4] [5; 6] [1]
  = Ret [(2, 0, 3); (0, 2, 0); (3, 1, 4); (1, 3, 0);
         (0, 4, 5); (4, 0, 0); (1, 5, 6); (5, 1, 0);
         (4, 3, 7); (3, 4, 0); (1, 6, 4); (6, 1, 0)]
  /\ exists g,
       build [(0, 1, 7)] [3; 4] [5; 6] [1] = Ret g
       /\ Z.of_nat (length g) = 7
       /\ (forall k, (k < length g)%nat ->
             g !! k = Some (mkVertex
                              (edges_from
                                 (with_reverse
                                    (arcs [(0, 1, 7)] [3; 4] [5; 6] [1])) k)
                              false false None))
       /\ forall fuel,
            maxThroughput fuel [(0, 1, 7)] [3; 4] [5; 6] 0 [1]
            = fordFulkerson fuel g 0 6.
Proof.
  apply (maxThroughput_builds_transformed_graph [(0, 1, 7)] [3; 4] [5; 6] 0 [1]).
  unfold ids_in_range. simpl. repeat constructor; simpl; lia.
Defined.

(** ** No target *)

Lemma py_index_ret_nonneg (len : nat) (i : Z) (k : nat) :
  0 <= i -> py_index len i = Ret k -> i = Z.of_nat k /\ (k < len)%nat.
Proof.
  intros H0. unfold py_index.
  destruct ((0 <=? i) && (i <? Z.of_nat len)) eqn:H1.
  - intros [= <-]. apply andb_true_iff in H1 as [_ H1]. lia.
  - destruct ((- Z.of_nat len <=? i) && (i <? 0)) eqn:H2; [|discriminate].
    apply andb_true_iff in H2 as [_ H2]. lia.
Qed.

Lemma scan_edge_in_range u e vs q :
  0 <= e_v e < Z.of_nat (length vs) ->
  exists vs' q', scan_edge u e (vs, q) = Ret (vs', q').
Proof.
  intros H. unfold scan_edge. rewrite py_index_in_range by done. simpl.
  destruct (lookup_lt_is_Some_2 vs (Z.to_nat (e_v e))) as [v ->]; [lia|].
  destruct (negb (discovered v) && (0 <? e_w e)); eauto.
Qed.

Lemma foldM_scan_edge_in_range u es :
  forall vs q,
    Forall (fun e => 0 <= e_v e < Z.of_nat (length vs)) es ->
    exists vs' q', foldM (scan_edge u) es (vs, q) = Ret (vs', q').
Proof.
  induction es as [|e es IH]; intros vs q Hr; simpl; [eauto|].
  apply Forall_cons in Hr as [He Hr].
  destruct (scan_edge_in_range u e vs q He) as (vs1 & q1 & H1).
  rewrite H1. simpl. apply IH.
  apply scan_edge_ret in H1 as (Hm & _).
  by rewrite (length_map_edges _ _ Hm).
Qed.

Lemma dests_in_range_map_edges (vs vs' : Graph) :
  map edges vs' = map edges vs -> dests_in_range vs -> dests_in_range vs'.
Proof.
  intros Hm Hr k e He. rewrite (edges_of_map_edges _ _ _ Hm) in He.
  rewrite (length_map_edges _ _ Hm). by apply (Hr k).
Qed.

(** When no edge arrives at [sink] and [sink] is not in the queue, the search
    fails. *)
Lemma bfs_loop_unreachable sink fuel :
  forall queue vs,
    dests_in_range vs ->
    (forall k e, e ∈ edges_of vs k -> e_v e <> sink) ->
    Forall (fun k => Z.of_nat k <> sink) queue ->
    (length queue + undiscovered vs <= fuel)%nat ->
    exists vs', bfs_loop fuel sink queue vs = Ret (vs', false).
Proof.
  induction fuel as [|fuel IH]; intros [|u q] vs Hr Hs Hq Hm; simpl in *;
    eauto; try lia.
  apply Forall_cons in Hq as [Hu Hq].
  destruct (Z.of_nat u =? sink) eqn:E; [lia|].
  set (vs1 := alter set_visited u vs).
  assert (Hm1 : map edges vs1 = map edges vs) by by apply map_edges_alter.
  assert (Hes : forall e, e ∈ edges_of vs1 u -> e ∈ edges_of vs u).
  { intros e. by rewrite (edges_of_map_edges _ _ _ Hm1). }
  destruct (foldM_scan_edge_in_range u (edges_of vs1 u) vs1 q)
    as (vs2 & q2 & H2).
  { apply Forall_forall. intros e He.
    rewrite (length_map_edges _ _ Hm1). eapply Hr, Hes, He. }
  rewrite H2. simpl.
  apply foldM_scan_edge_ret in H2 as (Hm2 & Hmeas & added & -> & Hadd).
  assert (Hm' : map edges vs2 = map edges vs) by congruence.
  apply IH.
  - by apply (dests_in_range_map_edges vs).
  - intros k e. rewrite (edges_of_map_edges _ _ _ Hm'). apply Hs.
  - apply Forall_app_2; [done|].
    eapply Forall_impl; [exact Hadd|]. intros k (e & He & Hk).
    apply py_index_ret_nonneg in Hk as [Hk _].
    + rewrite <- Hk. eapply Hs, Hes, He.
    + eapply Hr, Hes, He.
  - unfold vs1 in Hmeas. rewrite undiscovered_set_visited in Hmeas. lia.
Qed.

(** C10: with ids in range and no target, [maxThroughput] returns 0: no
    edge arrives at the super target [3N], the first search fails, and the
    loop of [fordFulkerson] is left with [flow = 0]. *)
Theorem maxThroughput_no_targets connections maxIn maxOut origin :
  ids_in_range connections maxIn maxOut origin [] ->
  forall fuel,
    maxThroughput (Datatypes.S fuel) connections maxIn maxOut origin [] = Ret 0.
Proof.
  intros Hr fuel. pose proof (arcs_in_range _ _ _ _ _ Hr) as Ha.
  destruct (build_transformed _ _ _ _ _ Hr) as (g & Hg & Hl & Hk).
  unfold maxThroughput, fordFulkerson. rewrite Hg. simpl.
  set (N := Z.of_nat (length maxIn)) in *.
  assert (Hpc : Forall (fun c : conn => 0 <= c.1.2 < N * 3)
                  (with_reverse (arcs connections maxIn maxOut []))).
  { apply Forall_with_reverse. eapply Forall_impl; [exact Ha|].
    intros c (H1 & H2 & _ & H4). simpl. specialize (H4 eq_refl). lia. }
  assert (Hes : forall k e, e ∈ edges_of g k -> 0 <= e_v e < N * 3).
  { intros k e. unfold edges_of.
    destruct (g !! k) as [v|] eqn:Hv; [|by intros ?%elem_of_nil].
    rewrite Hk in Hv by by apply lookup_lt_Some in Hv. injection Hv as <-.
    simpl. unfold edges_from. intros Hin.
    apply list_elem_of_fmap in Hin as (c & -> & Hc).
    apply list_elem_of_filter in Hc as [_ Hc].
    rewrite Forall_forall in Hpc. apply (Hpc c Hc). }
  destruct Hr as (_ & _ & Ho & _).
  assert (Hbfs : exists g', hasAugmentingPath g origin (N * 3) = Ret (g', false)).
  { unfold hasAugmentingPath. rewrite py_index_in_range by lia. ret_bind.
    apply bfs_loop_unreachable.
    - intros k e He. specialize (Hes k e He). lia.
    - intros k e He. specialize (Hes k e He). lia.
    - repeat constructor. lia.
    - pose proof (undiscovered_le g). simpl. lia. }
  destruct Hbfs as [g' Hbfs]. unfold round. rewrite Hbfs. reflexivity.
Qed.

Lemma maxThroughput_no_targets_witness :
  maxThroughput 1 [(0, 1, 7)] [3; 4] [5; 6] 0 [] = Ret 0.
Proof.
  apply (maxThroughput_no_targets [(0, 1, 7)] [3; 4] [5; 6] 0).
  unfold ids_in_range. simpl. repeat constructor; simpl; lia.
Defined.

(** ** Residual capacities, pair by pair *)

Lemma upd_expand_push u v b Q :
  u <> v ->
  upd v u b (upd u v (- b) (expand Q)) = expand (push u v b Q).
Proof.
  intros Hne. induction Q as [|q Q IH]; simpl; [done|].
  repeat case_decide; simpl; repeat case_decide; simpl;
    try (exfalso; intuition congruence);
    rewrite ?Z.add_opp_r; try done.
  by rewrite IH.
Qed.

Lemma edges_from_upd ku v d L k :
  edges_from (upd (Z.of_nat ku) v d L) k
  = if decide (k = ku) then update_first v d (edges_from L k)
    else edges_from L k.
Proof.
  induction L as [|[[a c] w] L IH]; simpl.
  - unfold edges_from. rewrite filter_nil. simpl. by case_decide.
  - destruct (decide (a = Z.of_nat ku /\ c = v)) as [[-> ->]|H1];
      rewrite !edges_from_cons; simpl; [|rewrite IH];
      repeat case_decide; simpl; rewrite ?Z.eqb_refl; try done; try lia.
    destruct (c =? v) eqn:E; [|done].
    apply Z.eqb_eq in E. subst. tauto.
Qed.

Lemma edges_of_alter (f : Vertex -> Vertex) (g : Graph) ku k :
  edges_of (alter f ku g) k
  = if decide (k = ku)
    then match g !! k with Some x => edges (f x) | None => [] end
    else edges_of g k.
Proof.
  unfold edges_of. destruct (decide (k = ku)) as [->|Hk].
  - rewrite list_lookup_alter_eq. by destruct (g !! ku).
  - by rewrite list_lookup_alter_ne.
Qed.

Lemma Rep_update_edges g L ku v d :
  Rep g L ->
  Rep (alter (update_edges v d) ku g) (upd (Z.of_nat ku) v d L).
Proof.
  intros HR k Hk. rewrite length_alter in Hk.
  rewrite edges_of_alter, edges_from_upd.
  destruct (decide (k = ku)) as [->|Hne]; [|by apply HR].
  rewrite <- (HR ku Hk). unfold edges_of.
  destruct (g !! ku) as [x|] eqn:Hx; [done|].
  apply lookup_ge_None in Hx. lia.
Qed.

(** ** What the search leaves in the graph *)

Lemma py_index_lt (len : nat) (i : Z) (k : nat) :
  py_index len i = Ret k -> (k < len)%nat.
Proof.
  unfold py_index.
  destruct ((0 <=? i) && (i <? Z.of_nat len)) eqn:H1.
  - intros [= <-]. apply andb_true_iff in H1 as [H0 H1]. lia.
  - destruct ((- Z.of_nat len <=? i) && (i <? 0)) eqn:H2; [|discriminate].
    intros [= <-]. apply andb_true_iff in H2 as [H2 H3]. lia.
Qed.

Lemma PrevOK_map_edges (vs vs' : Graph) :
  map edges vs' = map edges vs ->
  (forall k v', vs' !! k = Some v' -> previous v' <> None ->
     exists v, vs !! k = Some v /\ previous v = previous v') ->
  PrevOK vs -> PrevOK vs'.
Proof.
  intros Hm Hp HP k v' u Hk Hu.
  destruct (Hp k v' Hk) as (v & Hv & Hpv); [congruence|].
  rewrite (length_map_edges _ _ Hm), (edges_of_map_edges _ _ _ Hm).
  apply (HP k v u Hv). congruence.
Qed.

Lemma scan_edge_PrevOK u e vs q vs' q' :
  scan_edge u e (vs, q) = Ret (vs', q') ->
  (u < length vs)%nat -> e ∈ edges_of vs u ->
  PrevOK vs -> PrevOK vs'.
Proof.
  intros H Hu He HP. pose proof (scan_edge_ret _ _ _ _ _ _ H) as (Hm & _ & _).
  revert H. unfold scan_edge.
  destruct (py_index (length vs) (e_v e)) as [k| |] eqn:Hk; simpl;
    try discriminate.
  destruct (vs !! k) as [v|] eqn:Hv; try discriminate.
  destruct (negb (discovered v) && (0 <? e_w e)); intros [= <- <-]; [|done].
  intros k' v' u' Hk' Hu'. rewrite length_alter.
  rewrite (edges_of_map_edges _ _ _ Hm).
  destruct (decide (k' = k)) as [->|Hne].
  - rewrite list_lookup_alter_eq, Hv in Hk'. injection Hk' as <-.
    simpl in Hu'. injection Hu' as <-. eauto.
  - rewrite list_lookup_alter_ne in Hk' by done. by apply (HP k' v' u').
Qed.

Lemma foldM_scan_edge_PrevOK u es :
  forall vs q vs' q',
    foldM (scan_edge u) es (vs, q) = Ret (vs', q') ->
    (u < length vs)%nat -> (forall e, e ∈ es -> e ∈ edges_of vs u) ->
    PrevOK vs -> PrevOK vs'.
Proof.
  induction es as [|e es IH]; intros vs q vs' q' H Hu Hes HP; simpl in H.
  - by injection H as <- <-.
  - destruct (scan_edge u e (vs, q)) as [[vs1 q1]| |] eqn:H1; simpl in H;
      try discriminate.
    pose proof (scan_edge_ret _ _ _ _ _ _ H1) as (Hm & _ & _).
    apply (IH vs1 q1 vs' q' H).
    + by rewrite (length_map_edges _ _ Hm).
    + intros e' He'. rewrite (edges_of_map_edges _ _ _ Hm).
      apply Hes. by right.
    + apply (scan_edge_PrevOK _ _ _ _ _ _ H1 Hu); [|done]. apply Hes. by left.
Qed.

Lemma PrevOK_set_visited u vs : PrevOK vs -> PrevOK (alter set_visited u vs).
Proof.
  apply PrevOK_map_edges; [by apply map_edges_alter|].
  intros k v' Hk _. rewrite list_lookup_alter in Hk.
  case_decide; [|eauto]. subst.
  destruct (vs !! k) as [v|]; [|done]. injection Hk as <-. eauto.
Qed.

(** The search changes no edge, and its [previous] pointers follow edges. *)
Lemma bfs_loop_ret fuel sink :
  forall queue vs vs' found,
    bfs_loop fuel sink queue vs = Ret (vs', found) ->
    Forall (fun k => (k < length vs)%nat) queue ->
    PrevOK vs ->
    map edges vs' = map edges vs /\ PrevOK vs'.
Proof.
  induction fuel as [|fuel IH]; intros [|u q] vs vs' found H Hq HP;
    simpl in H; try discriminate.
  - by injection H as <- <-.
  - by injection H as <- <-.
  - apply Forall_cons in Hq as [Hu Hq].
    set (vs1 := alter set_visited u vs) in *.
    assert (Hm1 : map edges vs1 = map edges vs) by by apply map_edges_alter.
    assert (HP1 : PrevOK vs1) by by apply PrevOK_set_visited.
    destruct (Z.of_nat u =? sink).
    { by injection H as <- <-. }
    destruct (foldM (scan_edge u) (edges_of vs1 u) (vs1, q))
      as [[vs2 q2]| |] eqn:H2; simpl in H; try discriminate.
    pose proof (foldM_scan_edge_ret _ _ _ _ _ _ H2)
      as (Hm2 & _ & added & -> & Hadd).
    apply IH in H as [Hm HP'].
    + split; [congruence|done].
    + rewrite (length_map_edges _ _ Hm2), (length_map_edges _ _ Hm1).
      apply Forall_app_2; [done|].
      eapply Forall_impl; [exact Hadd|]. intros k (e & _ & Hk).
      apply py_index_lt in Hk. by rewrite (length_map_edges _ _ Hm1) in Hk.
    + apply (foldM_scan_edge_PrevOK _ _ _ _ _ _ H2); [|done|done].
      by rewrite (length_map_edges _ _ Hm1).
Qed.

Lemma hasAugmentingPath_ret self source sink self' found :
  hasAugmentingPath self source sink = Ret (self', found) ->
  PrevOK self ->
  map edges self' = map edges self /\ PrevOK self'.
Proof.
  unfold hasAugmentingPath.
  destruct (py_index (length self) source) as [s| |] eqn:Hs; try discriminate.
  ret_bind. intros H HP. apply (bfs_loop_ret _ _ _ _ _ _ H); [|done].
  repeat constructor. by apply py_index_lt in Hs.
Qed.

(** ** The path read back from the [previous] pointers *)

Lemma fold_min_step c es :
  forall sm,
    Forall (fun e => 0 <= e_w e) es ->
    sm = -1 \/ 0 <= sm ->
    let r := fold_left (min_step c) es sm in
    (r = -1 \/ 0 <= r)
    /\ (0 <= sm -> 0 <= r <= sm)
    /\ (forall e, e ∈ es -> e_v e = c -> 0 <= r <= e_w e).
Proof.
  induction es as [|e es IH]; intros sm Hes Hsm; simpl.
  - split; [done|]. split; [lia|]. by intros e ?%elem_of_nil.
  - apply Forall_cons in Hes as [He Hes].
    assert (H1 : (min_step c sm e = -1 \/ 0 <= min_step c sm e)
                 /\ (0 <= sm -> 0 <= min_step c sm e <= sm)
                 /\ (e_v e = c -> 0 <= min_step c sm e <= e_w e)).
    { unfold min_step. destruct (e_v e =? c) eqn:Ec.
      - destruct (sm =? -1) eqn:E1; [lia|].
        destruct (e_w e <? sm) eqn:E2; lia.
      - split; [done|]. split; [lia|]. lia. }
    destruct H1 as (Ha & Hb & Hc).
    destruct (IH (min_step c sm e) Hes Ha) as (Ia & Ib & Ic).
    split; [done|]. split; [intros; specialize (Hb ltac:(done)); lia|].
    intros e' [->|Hin]%elem_of_cons Hv.
    + specialize (Hc Hv). lia.
    + by apply Ic.
Qed.

Lemma py_get_nonneg {A} (l : list A) (i : Z) (x : A) :
  0 <= i -> py_get l i = Ret x ->
  (Z.to_nat i < length l)%nat /\ l !! Z.to_nat i = Some x.
Proof.
  intros H0. unfold py_get.
  destruct (py_index (length l) i) as [k| |] eqn:Hk; try discriminate.
  apply py_index_ret_nonneg in Hk as [-> Hk]; [|done]. ret_bind.
  rewrite Nat2Z.id. destruct (l !! k) eqn:E; [|discriminate].
  by intros [= ->].
Qed.

(** What [backtrack] returns: the vertices of the walk, then [source]; and a
    value that is below the capacity of every edge from the predecessor of a
    vertex of the walk to that vertex. *)
Lemma backtrack_walk self source fuel :
  nonneg self ->
  forall current path sm path' b,
    backtrack fuel self source current path sm = Ret (path', b) ->
    sm = -1 \/ 0 <= sm ->
    exists l,
      walk self source current l
      /\ path' = path ++ l ++ [source]
      /\ (0 <= sm -> 0 <= b <= sm)
      /\ (forall c v p e,
            c ∈ l -> py_get self c = Ret v -> previous v = Some p ->
            e ∈ edges_of self p -> e_v e = c -> 0 <= b <= e_w e).
Proof.
  intros Hnn. induction fuel as [|fuel IH]; intros current path sm path' b H Hsm;
    simpl in H; destruct (current =? source) eqn:Ec.
  - apply Z.eqb_eq in Ec as ->. injection H as <- <-.
    exists []. split; [constructor|]. split; [done|]. split; [lia|].
    by intros c v p e ?%elem_of_nil.
  - discriminate.
  - apply Z.eqb_eq in Ec as ->. injection H as <- <-.
    exists []. split; [constructor|]. split; [done|]. split; [lia|].
    by intros c v p e ?%elem_of_nil.
  - apply Z.eqb_neq in Ec.
    destruct (py_get self current) as [v| |] eqn:Hv; try discriminate.
    revert H. ret_bind.
    destruct (previous v) as [p|] eqn:Hp; try discriminate. intros H.
    destruct (fold_min_step current (edges_of self p) sm) as (Fa & Fb & Fc);
      [|done|].
    { apply Forall_forall. intros e He. by apply (Hnn p). }
    destruct (IH _ _ _ _ _ H Fa) as (l & Hw & -> & Hb & Hedges).
    exists (current :: l).
    split; [by apply (walk_step _ _ _ v p)|].
    split; [by rewrite <- app_assoc|].
    split; [intros H0; specialize (Fb H0); specialize (Hb ltac:(lia)); lia|].
    intros c v' p' e [->|Hin]%elem_of_cons Hv' Hp' He Hev.
    + rewrite Hv in Hv'. injection Hv' as <-.
      rewrite Hp in Hp'. injection Hp' as <-.
      specialize (Fc e He Hev). specialize (Hb ltac:(lia)). lia.
    + by apply (Hedges c v' p' e).
Qed.

Lemma walk_det self source current l1 :
  walk self source current l1 ->
  forall l2, walk self source current l2 -> l1 = l2.
Proof.
  induction 1 as [|current v p l Hne Hv Hp Hw IH]; intros l2 H2.
  - by inversion H2.
  - inversion H2 as [|? v' p' l' _ Hv' Hp' Hw']; subst; [done|].
    rewrite Hv in Hv'. injection Hv' as <-.
    rewrite Hp in Hp'. injection Hp' as <-.
    f_equal. by apply IH.
Qed.

Lemma walk_suffix self source current l x :
  walk self source current l -> x ∈ l ->
  exists l1 l2, l = l1 ++ l2 /\ walk self source x l2.
Proof.
  induction 1 as [|current v p l Hne Hv Hp Hw IH].
  - by intros ?%elem_of_nil.
  - intros [->|Hin]%elem_of_cons.
    + exists [], (current :: l). split; [done|]. by apply (walk_step _ _ _ v p).
    + destruct (IH Hin) as (l1 & l2 & -> & H2).
      by exists (current :: l1), l2.
Qed.

(** A walk that ends meets no vertex twice. *)
Lemma walk_NoDup self source current l :
  walk self source current l -> NoDup l.
Proof.
  induction 1 as [|current v p l Hne Hv Hp Hw IH]; constructor; [|done].
  intros Hin.
  destruct (walk_suffix _ _ _ _ _ Hw Hin) as (l1 & l2 & -> & H2).
  pose proof (walk_det _ _ _ _ H2 _ (walk_step _ _ _ v p _ Hne Hv Hp Hw)) as E.
  apply (f_equal length) in E. simpl in E. rewrite length_app in E. lia.
Qed.

Lemma walk_elem self source current l x :
  walk self source current l -> x ∈ l ->
  exists v p, py_get self x = Ret v /\ previous v = Some p.
Proof.
  induction 1 as [|current v p l Hne Hv Hp Hw IH].
  - by intros ?%elem_of_nil.
  - intros [->|Hin]%elem_of_cons; eauto.
Qed.

Lemma walk_nonneg self source current l :
  walk self source current l -> 0 <= current -> Forall (fun x => 0 <= x) l.
Proof.
  induction 1 as [|current v p l Hne Hv Hp Hw IH]; intros H0; constructor;
    [done|]. apply IH. lia.
Qed.

(** *** The turns given to [getAugmentingPath] are enough *)

Lemma walk_not_source self source current l x :
  walk self source current l -> x ∈ l -> x <> source.
Proof.
  induction 1 as [|current v p l Hne Hv Hp Hw IH].
  - by intros ?%elem_of_nil.
  - intros [->|Hin]%elem_of_cons; auto.
Qed.

Lemma NoDup_below (n : nat) (l : list nat) :
  NoDup l -> Forall (fun k => (k < n)%nat) l -> (length l <= n)%nat.
Proof.
  intros Hnd Hlt.
  assert (H : (length l <= length (seq 0 n))%nat).
  { apply submseteq_length, NoDup_submseteq; [done|].
    intros x Hx. rewrite Forall_forall in Hlt. apply elem_of_seq.
    specialize (Hlt x Hx). lia. }
  by rewrite length_seq in H.
Qed.

(** The positions met by a walk that starts inside the graph, [source]
    included. *)
Lemma walk_positions self source :
  (forall k v p, self !! k = Some v -> previous v = Some p ->
                 (p < length self)%nat) ->
  forall current l,
    walk self source current l ->
    forall p, current = Z.of_nat p -> (p < length self)%nat ->
      exists ks : list nat,
        Z.of_nat <$> ks = l ++ [source]
        /\ Forall (fun k => (k < length self)%nat) ks.
Proof.
  intros Hprev current l.
  induction 1 as [|current v p' l Hne Hv Hp Hw IH]; intros p -> Hlt.
  - exists [p]. split; [done|]. by repeat constructor.
  - apply py_get_nonneg in Hv as [_ Hv]; [|lia]. rewrite Nat2Z.id in Hv.
    destruct (IH p' eq_refl (Hprev _ _ _ Hv Hp)) as (ks & Hks & Hall).
    exists (p :: ks). split; [|by constructor].
    by rewrite fmap_cons, Hks.
Qed.

Lemma walk_length self source current l :
  (forall k v p, self !! k = Some v -> previous v = Some p ->
                 (p < length self)%nat) ->
  walk self source current l -> (length l <= length self)%nat.
Proof.
  intros Hprev Hw.
  inversion Hw as [|? v p l' Hne Hv Hp Hw']; subst; simpl; [lia|].
  assert (Hp' : (p < length self)%nat).
  { unfold py_get in Hv.
    destruct (py_index (length self) current) as [k| |]; try discriminate.
    revert Hv. ret_bind. destruct (self !! k) as [v'|] eqn:Hk; [|discriminate].
    intros [= ->]. by apply (Hprev k v p). }
  destruct (walk_positions _ _ Hprev _ _ Hw' p eq_refl Hp') as (ks & Hks & Hall).
  assert (Hnd' : NoDup ks).
  { apply (NoDup_fmap_1 Z.of_nat). rewrite Hks.
    apply NoDup_app. split; [by apply (walk_NoDup _ _ _ _ Hw')|].
    split; [|apply NoDup_singleton].
    intros x Hx ->%list_elem_of_singleton.
    by apply (walk_not_source _ _ _ _ _ Hw' Hx). }
  pose proof (NoDup_below _ _ Hnd' Hall) as Hlen.
  apply (f_equal length) in Hks.
  rewrite length_fmap, length_app in Hks. simpl in Hks. lia.
Qed.

Lemma backtrack_of_walk self source current l :
  walk self source current l ->
  forall fuel path sm,
    (length l <= fuel)%nat ->
    backtrack fuel self source current path sm <> Timeout.
Proof.
  induction 1 as [|current v p l Hne Hv Hp Hw IH]; intros fuel path sm Hlen.
  - by rewrite backtrack_at_source.
  - destruct fuel as [|fuel]; simpl in Hlen; [lia|]. simpl.
    apply Z.eqb_neq in Hne. rewrite Hne, Hv. ret_bind. rewrite Hp.
    apply IH. lia.
Qed.

(** When the [previous] pointers lead from [sink] to [source], the loop of
    [getAugmentingPath] ends within the turns it is given. *)
Lemma getAugmentingPath_no_timeout self source sink l :
  (forall k v p, self !! k = Some v -> previous v = Some p ->
                 (p < length self)%nat) ->
  walk self source sink l ->
  getAugmentingPath self source sink <> Timeout.
Proof.
  intros Hprev Hw. unfold getAugmentingPath.
  pose proof (backtrack_of_walk _ _ _ _ Hw (length self) [] (-1)
                (walk_length _ _ _ _ Hprev Hw)) as H.
  destruct (backtrack (length self) self source sink [] (-1)) as [[? ?]| |];
    try done.
Qed.

(** ** One hop of the augmentation *)

Lemma augment_hop_at path b i self :
  augment_hop path b i self = (p ← py_get path i; augment_at b p self).
Proof. reflexivity. Qed.

Lemma for_range_mid {S} (f : Z -> S -> outcome S) (post mid : list Z) :
  forall (pre : list Z) (s : S),
    for_range (fun i s => p ← py_get (pre ++ mid ++ post) i; f p s)
      (Z.of_nat (length pre)) (length mid) s
    = foldM f mid s.
Proof.
  induction mid as [|x mid IH]; intros pre s; simpl; [done|].
  rewrite (py_get_lookup _ _ x) by (by apply list_lookup_middle).
  ret_bind. destruct (f x s) as [s'| |]; try done.
  replace (pre ++ x :: mid ++ post) with ((pre ++ [x]) ++ mid ++ post)
    by (by rewrite <- app_assoc).
  replace (Z.of_nat (length pre) + 1) with (Z.of_nat (length (pre ++ [x])))
    by (rewrite length_app; simpl; lia).
  apply IH.
Qed.

Lemma sums_push u v b Q : sums (push u v b Q) = sums Q.
Proof.
  induction Q as [|q Q IH]; simpl; [done|].
  repeat case_decide; simpl; [f_equal; f_equal; lia..|by rewrite IH].
Qed.

Lemma edges_of_update_edges d x k (g : Graph) k' :
  edges_of (alter (update_edges d x) k g) k'
  = if decide (k' = k) then update_first d x (edges_of g k')
    else edges_of g k'.
Proof.
  rewrite edges_of_alter. case_decide; [|done]. subst. unfold edges_of.
  by destruct (g !! k).
Qed.

Lemma edges_of_apply_hop b g h k :
  h.1 <> h.2 ->
  edges_of (apply_hop b g h) k
  = if decide (k = h.2) then update_first (Z.of_nat h.1) b (edges_of g k)
    else if decide (k = h.1) then update_first (Z.of_nat h.2) (- b) (edges_of g k)
    else edges_of g k.
Proof.
  intros Hne. unfold apply_hop. rewrite !edges_of_update_edges.
  repeat case_decide; subst; done.
Qed.

Lemma update_first_elem d x es e' :
  e' ∈ update_first d x es ->
  e' ∈ es
  \/ (e_v e' = d /\ exists e, e ∈ es /\ e_v e = d /\ e_w e' = e_w e + x).
Proof.
  induction es as [|e es IH]; simpl; [by intros ?%elem_of_nil|].
  destruct (e_v e =? d) eqn:E.
  - apply Z.eqb_eq in E.
    intros [->|Hin]%elem_of_cons; [|left; by right].
    right. simpl. split; [done|]. exists e. split; [by left|done].
  - intros [->|Hin]%elem_of_cons; [left; by left|].
    destruct (IH Hin) as [H|(Hv & e0 & H0 & H1 & H2)]; [left; by right|].
    right. split; [done|]. exists e0. split; [by right|done].
Qed.

Lemma Rep_apply_hop b g Q h :
  h.1 <> h.2 ->
  Rep g (expand Q) ->
  Rep (apply_hop b g h) (expand (push (Z.of_nat h.1) (Z.of_nat h.2) b Q)).
Proof.
  intros Hne HR. rewrite <- upd_expand_push by lia.
  unfold apply_hop. by do 2 apply Rep_update_edges.
Qed.

(** The hops of one turn keep the graph in step with a list of arcs that
    promises the same, and keep every capacity non-negative. *)
Lemma fold_apply_hop b hops :
  forall g Q,
    Rep g (expand Q) ->
    nonneg g ->
    NoDup (map snd hops) ->
    Forall (fun h : nat * nat =>
              h.1 <> h.2 /\ 0 <= b
              /\ forall e, e ∈ edges_of g h.1 -> e_v e = Z.of_nat h.2 ->
                           b <= e_w e) hops ->
    exists Q',
      Rep (fold_left (apply_hop b) hops g) (expand Q')
      /\ sums Q' = sums Q
      /\ nonneg (fold_left (apply_hop b) hops g).
Proof.
  induction hops as [|h hops IH]; intros g Q HR Hnn Hnd Hh; simpl.
  - by exists Q.
  - apply Forall_cons in Hh as [(Hne & Hb & Hbound) Hh].
    simpl in Hnd. apply NoDup_cons in Hnd as [Hnotin Hnd].
    destruct (IH (apply_hop b g h)
                (push (Z.of_nat h.1) (Z.of_nat h.2) b Q)) as (Q' & H1 & H2 & H3).
    + by apply Rep_apply_hop.
    + intros k e. rewrite edges_of_apply_hop by done.
      repeat case_decide; subst.
      * intros [Hold|(_ & e0 & Hin0 & _ & Hw)]%update_first_elem; [by apply (Hnn h.2)|].
        specialize (Hnn _ _ Hin0). lia.
      * intros [Hold|(_ & e0 & Hin0 & Hv & Hw)]%update_first_elem; [by apply (Hnn h.1)|].
        specialize (Hbound e0 Hin0 Hv). lia.
      * apply Hnn.
    + done.
    + apply Forall_forall. intros h' Hin'.
      rewrite Forall_forall in Hh. destruct (Hh h' Hin') as (Hne' & _ & Hbound').
      split; [done|]. split; [done|].
      assert (h'.2 <> h.2) as Hv.
      { intros E. apply Hnotin. rewrite <- E.
        apply list_elem_of_fmap. by exists h'. }
      intros e. rewrite edges_of_apply_hop by done.
      repeat case_decide; subst.
      * intros [Hold|(Hve & e0 & Hin0 & Hv0 & Hw)]%update_first_elem Hev;
          [by apply Hbound'|].
        assert (b <= e_w e0); [|lia]. apply Hbound'; [done|]. congruence.
      * intros [Hold|(Hv0 & _)]%update_first_elem Hev; [by apply Hbound'|].
        rewrite Hv0 in Hev. lia.
      * apply Hbound'.
    + exists Q'. split; [done|]. split; [|done].
      by rewrite H2, sums_push.
Qed.

Lemma map_previous_alter (f : Vertex -> Vertex) k (vs : Graph) :
  (forall v, previous (f v) = previous v) ->
  map previous (alter f k vs) = map previous vs.
Proof.
  intros Hf. revert k. induction vs as [|x vs IH]; intros [|k]; simpl; auto.
  - by rewrite Hf.
  - fold_alter. by rewrite IH.
Qed.

Lemma map_previous_apply_hop b g h :
  map previous (apply_hop b g h) = map previous g.
Proof. unfold apply_hop. by rewrite !map_previous_alter. Qed.

Lemma length_apply_hop b g h : length (apply_hop b g h) = length g.
Proof. unfold apply_hop. by rewrite !length_alter. Qed.

Lemma length_fold_apply_hop b hops :
  forall g, length (fold_left (apply_hop b) hops g) = length g.
Proof.
  induction hops as [|h hops IH]; intros g; simpl; [done|].
  by rewrite IH, length_apply_hop.
Qed.

Lemma lookup_map_previous (g g1 : Graph) k v :
  map previous g = map previous g1 -> g !! k = Some v ->
  exists v1, g1 !! k = Some v1 /\ previous v1 = previous v.
Proof.
  intros Hm Hk.
  assert (E : (previous <$> g1) !! k = (previous <$> g) !! k)
    by (change ((map previous g1) !! k = (map previous g) !! k); by rewrite Hm).
  rewrite !list_lookup_fmap, Hk in E. simpl in E.
  destruct (g1 !! k) as [v1|]; [|done]. injection E as E. eauto.
Qed.

(** The loop over the inner vertices of the path, as a list of hops: each
    goes from the predecessor of a vertex to that vertex. *)
Lemma foldM_augment_at b (g1 : Graph) interior :
  forall gc g2,
    foldM (augment_at b) interior gc = Ret g2 ->
    Forall (fun c => 0 <= c) interior ->
    map previous gc = map previous g1 ->
    exists hops : list (nat * nat),
      g2 = fold_left (apply_hop b) hops gc
      /\ map (fun h => Z.of_nat h.2) hops = interior
      /\ Forall (fun h => exists v, g1 !! h.2 = Some v
                                    /\ previous v = Some h.1) hops.
Proof.
  induction interior as [|c interior IH]; intros gc g2 H Hc Hp; simpl in H.
  - injection H as <-. by exists [].
  - apply Forall_cons in Hc as [Hc0 Hc].
    destruct (augment_at b c gc) as [gc1| |] eqn:H1; try discriminate.
    revert H. ret_bind. intros H.
    revert H1. unfold augment_at.
    destruct (py_index (length gc) c) as [vi| |] eqn:Hvi; try discriminate.
    ret_bind. apply py_index_ret_nonneg in Hvi as [-> Hvi]; [|done].
    destruct (gc !! vi) as [v|] eqn:Hv; try discriminate.
    destruct (previous v) as [ui|] eqn:Hu; try discriminate.
    intros [= <-].
    destruct (IH _ _ H Hc) as (hops & -> & <- & Hh).
    { change (map previous (apply_hop b gc (ui, vi)) = map previous g1).
      by rewrite map_previous_apply_hop. }
    exists ((ui, vi) :: hops). split; [done|]. split; [done|].
    constructor; [|done].
    destruct (lookup_map_previous _ _ _ _ Hp Hv) as (v1 & Hv1 & Hp1).
    exists v1. simpl. split; [done|]. congruence.
Qed.

(** ** The invariant of the loop of [fordFulkerson] *)

Lemma expand_elem Q c :
  c ∈ expand Q ->
  exists q, q ∈ Q
    /\ (c = (r_u q, r_v q, r_fwd q) \/ c = (r_v q, r_u q, r_rev q)).
Proof.
  induction Q as [|q Q IH]; simpl; [by intros ?%elem_of_nil|].
  intros [->|[->|Hin]%elem_of_cons]%elem_of_cons.
  - exists q. split; [by left|by left].
  - exists q. split; [by left|by right].
  - destruct (IH Hin) as (q' & Hq' & Hc). exists q'. split; [by right|done].
Qed.

Lemma Rep_edges A g Q k e :
  Rep g (expand Q) -> sums Q = A -> arcs_ok (length g) A ->
  e ∈ edges_of g k ->
  0 <= e_v e < Z.of_nat (length g) /\ e_v e <> Z.of_nat k.
Proof.
  intros HR HS HA He.
  destruct (decide (k < length g)%nat) as [Hk|Hk].
  2:{ unfold edges_of in He. rewrite lookup_ge_None_2 in He by lia.
      by apply elem_of_nil in He. }
  rewrite (HR k Hk) in He. unfold edges_from in He.
  apply list_elem_of_fmap in He as (c & -> & Hc).
  apply list_elem_of_filter in Hc as [Hsrc Hc].
  apply expand_elem in Hc as (q & Hq & Hc).
  assert (Hin : (r_u q, r_v q, r_fwd q + r_rev q) ∈ A).
  { rewrite <- HS. unfold sums. apply list_elem_of_fmap. by exists q. }
  unfold arcs_ok in HA. rewrite Forall_forall in HA.
  specialize (HA _ Hin). simpl in HA.
  destruct Hc as [->| ->]; simpl in *; lia.
Qed.

Lemma Rep_map_edges (g g' : Graph) L :
  map edges g' = map edges g -> Rep g L -> Rep g' L.
Proof.
  intros Hm HR k Hk. rewrite (edges_of_map_edges _ _ _ Hm). apply HR.
  by rewrite <- (length_map_edges _ _ Hm).
Qed.

Lemma nonneg_map_edges (g g' : Graph) :
  map edges g' = map edges g -> nonneg g -> nonneg g'.
Proof. intros Hm Hn k e. rewrite (edges_of_map_edges _ _ _ Hm). apply Hn. Qed.

Lemma map_edges_reset g : map edges (reset g) = map edges g.
Proof. unfold reset. rewrite map_map. by apply map_ext. Qed.

Lemma PrevOK_no_previous g : Forall (fun v => previous v = None) g -> PrevOK g.
Proof.
  intros H k v u Hk Hu. rewrite Forall_forall in H.
  rewrite (H v) in Hu; [done|]. by eapply list_elem_of_lookup_2.
Qed.

(** A turn of the loop that finds a path keeps the invariant. *)
Lemma round_Inv A n g source sink g' b :
  arcs_ok n A -> Inv A n g ->
  round g source sink = Ret (g', Some b) ->
  Inv A n g'.
Proof.
  intros HA (Hlen & Hprev & Hnn & Q & HR & HS) Hround. subst n.
  unfold round in Hround.
  destruct (hasAugmentingPath g source sink) as [[g1 found]| |] eqn:Hbfs;
    try discriminate.
  revert Hround. ret_bind. destruct found; [|discriminate].
  destruct (getAugmentingPath g1 source sink) as [[path sv]| |] eqn:Hpath;
    try discriminate.
  destruct (for_range (augment_hop path sv) 1
              (Z.to_nat (Z.of_nat (length path) - 1 - 1)) g1) as [g2| |] eqn:Hloop;
    try discriminate.
  intros [= <- <-].
  destruct (hasAugmentingPath_ret _ _ _ _ _ Hbfs (PrevOK_no_previous _ Hprev))
    as [Hm1 HP1].
  pose proof (length_map_edges _ _ Hm1) as Hlen1.
  pose proof (Rep_map_edges _ _ _ Hm1 HR) as HR1.
  pose proof (nonneg_map_edges _ _ Hm1 Hnn) as Hnn1.
  (* the path *)
  unfold getAugmentingPath in Hpath.
  destruct (backtrack (length g1) g1 source sink [] (-1))
    as [[path' sv']| |] eqn:Hbt; try discriminate.
  revert Hpath. ret_bind. intros [= <- <-].
  destruct (backtrack_walk _ _ _ Hnn1 _ _ _ _ _ Hbt) as (l & Hw & -> & _ & Hbound);
    [by left|].
  simpl in Hloop. rewrite reverse_snoc in Hloop.
  assert (Hgoal : exists Q', Rep g2 (expand Q') /\ sums Q' = sums Q
                             /\ nonneg g2 /\ length g2 = length g1).
  { destruct l as [|c0 l'].
    - simpl in Hloop. injection Hloop as <-. by exists Q.
    - rewrite reverse_cons in Hloop.
      assert (Hf : foldM (augment_at sv') (reverse l') g1 = Ret g2).
      { rewrite <- Hloop.
        rewrite <- (for_range_mid (augment_at sv') [c0] (reverse l') [source] g1).
        replace (Z.to_nat (Z.of_nat (length (source :: reverse l' ++ [c0])) - 1 - 1))
          with (length (reverse l'))
          by (simpl; rewrite length_app; simpl; lia).
        reflexivity. }
      inversion Hw as [|? v0 p0 ? Hne0 Hv0 Hp0 Hw']; subst.
      pose proof (walk_nonneg _ _ _ _ Hw' ltac:(lia)) as Hpos.
      pose proof (walk_NoDup _ _ _ _ Hw') as Hnd.
      destruct (foldM_augment_at sv' g1 _ _ _ Hf) as (hops & -> & Hint & Hh);
        [by apply Forall_reverse|done|].
      destruct (fold_apply_hop sv' hops g1 Q HR1 Hnn1) as (Q' & H1 & H2 & H3).
      + apply (NoDup_fmap_1 Z.of_nat). rewrite <- list_fmap_compose.
        change (NoDup (map (fun h : nat * nat => Z.of_nat h.2) hops)).
        rewrite Hint. by rewrite reverse_Permutation.
      + apply Forall_forall. intros h Hin.
        rewrite Forall_forall in Hh. destruct (Hh h Hin) as (v & Hv & Hu).
        assert (Hc : Z.of_nat h.2 ∈ c0 :: l').
        { right. apply elem_of_reverse. rewrite <- Hint.
          apply list_elem_of_fmap. by exists h. }
        destruct (HP1 _ _ _ Hv Hu) as (Hlt & e0 & He0 & Hidx).
        destruct (Rep_edges _ _ _ _ _ HR1 eq_refl ltac:(by rewrite Hlen1) He0)
          as [Hr0 Hl0].
        apply py_index_ret_nonneg in Hidx as [Hidx _]; [|lia].
        pose proof (Hbound _ _ _ e0 Hc (py_get_lookup _ _ _ Hv) Hu He0 Hidx).
        split; [intros E; rewrite E in Hl0; lia|]. split; [lia|].
        intros e He Hev.
        pose proof (Hbound _ _ _ e Hc (py_get_lookup _ _ _ Hv) Hu He Hev). lia.
      + exists Q'. split; [done|]. split; [done|]. split; [done|].
        apply length_fold_apply_hop. }
  destruct Hgoal as (Q' & H1 & H2 & H3 & H4).
  split; [by rewrite length_reset, H4|].
  split.
  { unfold reset. apply Forall_forall. intros v Hv.
    apply list_elem_of_fmap in Hv as (v0 & -> & _). done. }
  split; [by apply (nonneg_map_edges g2), H3; apply map_edges_reset|].
  exists Q'. split; [|congruence].
  apply (Rep_map_edges g2); [apply map_edges_reset|done].
Qed.

(** ** Capacities after any number of turns *)

Lemma arcs_nonneg connections maxIn maxOut targets :
  capacities_nonneg connections maxIn maxOut ->
  Forall (fun c : conn => 0 <= c.2) (arcs connections maxIn maxOut targets).
Proof.
  intros (Hi & Ho & Hc). unfold arcs.
  rewrite Forall_forall in Hi. rewrite Forall_forall in Ho.
  rewrite Forall_forall in Hc.
  repeat apply Forall_app_2; apply Forall_forall; intros c Hin.
  - apply elem_of_lookup_imap in Hin as (i & w & -> & Hw). simpl.
    apply Hi. by eapply list_elem_of_lookup_2.
  - apply elem_of_lookup_imap in Hin as (i & w & -> & Hw). simpl.
    apply Ho. by eapply list_elem_of_lookup_2.
  - apply list_elem_of_fmap in Hin as (x & -> & Hx). simpl. by apply Hc.
  - apply list_elem_of_fmap in Hin as (x & -> & Hx). simpl.
    destruct (maxIn !! Z.to_nat x) as [w|] eqn:Hw; simpl; [|lia].
    apply Hi. by eapply list_elem_of_lookup_2.
Qed.

Lemma expand_fresh A : expand (fresh A) = with_reverse A.
Proof. induction A as [|c A IH]; simpl; [done|]. by rewrite IH. Qed.

Lemma sums_fresh A : sums (fresh A) = A.
Proof.
  induction A as [|[[u v] w] A IH]; simpl; [done|].
  rewrite IH. by rewrite Z.add_0_r.
Qed.

Lemma Inv_build connections maxIn maxOut origin targets g0 :
  well_formed connections maxIn maxOut origin targets ->
  build connections maxIn maxOut targets = Ret g0 ->
  arcs_ok (Datatypes.S (length maxIn * 3))
    (arcs connections maxIn maxOut targets)
  /\ Inv (arcs connections maxIn maxOut targets)
       (Datatypes.S (length maxIn * 3)) g0.
Proof.
  intros [Hr Hc] Hb.
  pose proof (arcs_in_range _ _ _ _ _ Hr) as Ha.
  pose proof (arcs_nonneg _ _ _ targets Hc) as Hn.
  destruct (build_transformed _ _ _ _ _ Hr) as (g & Hg & Hl & Hk).
  rewrite Hb in Hg. injection Hg as <-.
  set (A := arcs connections maxIn maxOut targets) in *.
  split.
  { eapply Forall_impl; [exact Ha|]. intros c. simpl. lia. }
  split; [done|]. split.
  { apply Forall_forall. intros v Hv.
    apply list_elem_of_lookup_1 in Hv as [k Hv].
    rewrite Hk in Hv by by apply lookup_lt_Some in Hv. by injection Hv as <-. }
  assert (HR : Rep g0 (with_reverse A)).
  { intros k Hlt. unfold edges_of. by rewrite (Hk k Hlt). }
  split.
  { intros k e He.
    destruct (decide (k < length g0)%nat) as [Hlt|Hge].
    2:{ unfold edges_of in He. rewrite lookup_ge_None_2 in He by lia.
        by apply elem_of_nil in He. }
    rewrite (HR k Hlt) in He. unfold edges_from in He.
    apply list_elem_of_fmap in He as (c & -> & Hin).
    apply list_elem_of_filter in Hin as [_ Hin]. simpl.
    assert (Hall : Forall (fun c : conn => 0 <= c.2) (with_reverse A)).
    { apply Forall_with_reverse. eapply Forall_impl; [exact Hn|].
      intros c'. simpl. lia. }
    rewrite Forall_forall in Hall. by apply Hall. }
  exists (fresh A). split; [by rewrite expand_fresh|apply sums_fresh].
Qed.

Lemma Inv_after_rounds A n source sink g0 g :
  arcs_ok n A -> Inv A n g0 -> after_rounds source sink g0 g -> Inv A n g.
Proof.
  intros HA H0. induction 1 as [|g g' b _ IH Hround]; [done|].
  by apply (round_Inv A n g source sink g' b).
Qed.

Lemma after_rounds_trans source sink g0 g1 g2 :
  after_rounds source sink g0 g1 -> after_rounds source sink g1 g2 ->
  after_rounds source sink g0 g2.
Proof.
  intros H1. induction 1 as [|g g' b _ IH Hround]; [done|].
  by apply (after_round _ _ _ g g' b).
Qed.

(** The graphs of [after_rounds] are those the loop of [fordFulkerson] goes
    through: when it ends, it does so at one of them, on a search that
    fails. *)
Lemma fordFulkerson_loop_after_rounds fuel :
  forall g0 source sink flow g' flow',
    fordFulkerson_loop fuel g0 source sink flow = Ret (g', flow') ->
    exists g,
      after_rounds source sink g0 g /\ round g source sink = Ret (g', None).
Proof.
  induction fuel as [|fuel IH]; intros g0 source sink flow g' flow' H;
    [discriminate|].
  simpl in H.
  destruct (round g0 source sink) as [[g1 pushed]| |] eqn:Hround;
    try discriminate.
  revert H. ret_bind. destruct pushed as [b|].
  - intros H. destruct (IH _ _ _ _ _ _ H) as (g & Hafter & Hlast).
    exists g. split; [|done].
    apply (after_rounds_trans _ _ _ g1); [|done].
    by apply (after_round _ _ _ g0 g1 b); [constructor|].
  - intros [= <- <-]. exists g0. split; [constructor|done].
Qed.

Lemma slot_lookup (L : list conn) j c :
  L !! j = Some c ->
  edges_from L (Z.to_nat c.1.1)
    !! length (filter (fun c' : conn => c'.1.1 = c.1.1) (take j L))
  = (if decide (0 <= c.1.1) then Some (mkEdge c.1.1 c.1.2 c.2) else
       edges_from L (Z.to_nat c.1.1)
         !! length (filter (fun c' : conn => c'.1.1 = c.1.1) (take j L))).
Proof.
  intros Hj. case_decide as H0; [|done].
  unfold edges_from. rewrite Z2Nat.id by done.
  set (n := length (filter (fun c' : conn => c'.1.1 = c.1.1) (take j L))).
  rewrite <- (take_drop_middle L j c Hj).
  rewrite filter_app, filter_cons_True by done.
  rewrite map_app. simpl.
  apply list_lookup_middle. subst n. by rewrite length_map.
Qed.

Lemma count_same_source (s : Z) (l1 : list conn) :
  forall l2 : list conn,
    map fst l1 = map fst l2 ->
    length (filter (fun c' : conn => c'.1.1 = s) l1)
    = length (filter (fun c' : conn => c'.1.1 = s) l2).
Proof.
  induction l1 as [|c1 l1 IH]; intros [|c2 l2] E; simpl in E; try discriminate;
    [done|].
  injection E as E1 E. rewrite !filter_cons. rewrite <- E1.
  case_decide; simpl; by rewrite (IH l2 E).
Qed.

Lemma endpoints_expand Q :
  map fst (expand Q) = map fst (with_reverse (sums Q)).
Proof. induction Q as [|q Q IH]; simpl; [done|]. by rewrite IH. Qed.

Lemma expand_lookup Q :
  forall i q,
    Q !! i = Some q ->
    expand Q !! (2 * i)%nat = Some (r_u q, r_v q, r_fwd q)
    /\ expand Q !! (2 * i + 1)%nat = Some (r_v q, r_u q, r_rev q).
Proof.
  induction Q as [|q0 Q IH]; intros [|i] q Hq; simpl in Hq; try discriminate.
  - by injection Hq as <-.
  - replace (2 * Datatypes.S i)%nat with (Datatypes.S (Datatypes.S (2 * i)))
      by lia.
    simpl. by apply IH.
Qed.

Lemma with_reverse_lookup A :
  forall i fwd,
    with_reverse A !! (2 * i)%nat = Some fwd ->
    exists c, A !! i = Some c /\ fwd = (c.1.1, c.1.2, c.2)
      /\ with_reverse A !! (2 * i + 1)%nat = Some (c.1.2, c.1.1, 0).
Proof.
  induction A as [|c0 A IH]; intros i fwd H.
  - simpl in H. by rewrite lookup_nil in H.
  - destruct i as [|i].
    + injection H as <-. exists c0. repeat split; reflexivity.
    + replace (2 * Datatypes.S i)%nat with (Datatypes.S (Datatypes.S (2 * i)))
        in * by lia.
      destruct (IH i fwd H) as (c & H1 & H2 & H3). exists c.
      split; [done|]. split; [done|]. exact H3.
Qed.

(** An edge is found in the graph at the slot of its entry. *)
Lemma edge_at_slot g (L pc : list conn) j c c' :
  Rep g L -> map fst pc = map fst L ->
  pc !! j = Some c -> L !! j = Some c' ->
  0 <= c.1.1 < Z.of_nat (length g) ->
  edge_at g (slot pc j) = Some (mkEdge c'.1.1 c'.1.2 c'.2).
Proof.
  intros HR HE Hc Hc' Hr.
  assert (E : c.1 = c'.1).
  { assert (H : (fst <$> pc) !! j = (fst <$> L) !! j)
      by (change ((map fst pc) !! j = (map fst L) !! j); by rewrite HE).
    rewrite !list_lookup_fmap, Hc, Hc' in H. by injection H. }
  unfold slot. rewrite Hc. simpl. rewrite HR by lia.
  rewrite (count_same_source _ _ (take j L)).
  2:{ change (fst <$> take j pc = fst <$> take j L).
      rewrite !fmap_take. f_equal. exact HE. }
  rewrite E. rewrite slot_lookup by done.
  rewrite decide_True; [done|]. rewrite <- E. lia.
Qed.

(** C6: for a well-formed input, start from the graph that [maxThroughput]
    builds and take any number of turns of the loop of [fordFulkerson].  Then
    no edge has a negative capacity; and for every arc at an even position
    [2i] of [preprocessed_connections], inserted with its reverse edge at
    position [2i+1], the two edges are still in the graph, with the same end
    points, and their capacities add up to the capacity the arc was inserted
    with. *)
Theorem capacities_invariant connections maxIn maxOut origin targets pc g0 g :
  well_formed connections maxIn maxOut origin targets ->
  preprocess connections maxIn maxOut targets = Ret pc ->
  build connections maxIn maxOut targets = Ret g0 ->
  after_rounds origin (Z.of_nat (length maxIn) * 3) g0 g ->
  (forall k e, e ∈ edges_of g k -> 0 <= e_w e)
  /\ forall i fwd,
       pc !! (2 * i)%nat = Some fwd ->
       exists ef er,
         edge_at g (slot pc (2 * i)) = Some ef
         /\ edge_at g (slot pc (2 * i + 1)) = Some er
         /\ (e_u ef, e_v ef) = (fwd.1.1, fwd.1.2)
         /\ (e_u er, e_v er) = (fwd.1.2, fwd.1.1)
         /\ e_w ef + e_w er = fwd.2.
Proof.
  intros Hwf Hpc Hb Hafter.
  destruct (Inv_build _ _ _ _ _ _ Hwf Hb) as [HA H0].
  pose proof (Inv_after_rounds _ _ _ _ _ _ HA H0 Hafter)
    as (Hlen & _ & Hnn & Q & HR & HS).
  split; [exact Hnn|].
  rewrite preprocess_arcs in Hpc by apply Hwf. injection Hpc as <-.
  set (A := arcs connections maxIn maxOut targets) in *.
  intros i fwd Hfwd.
  destruct (with_reverse_lookup _ _ _ Hfwd) as (c & Hc & -> & Hrev).
  assert (Hq : exists q, Q !! i = Some q
                 /\ c = (r_u q, r_v q, r_fwd q + r_rev q)).
  { rewrite <- HS in Hc. unfold sums in Hc.
    change ((((fun q => (r_u q, r_v q, r_fwd q + r_rev q)) <$> Q) !! i)
            = Some c) in Hc.
    rewrite list_lookup_fmap in Hc.
    destruct (Q !! i) as [q|]; [|done]. injection Hc as <-. by exists q. }
  destruct Hq as (q & Hq & ->).
  destruct (expand_lookup _ _ _ Hq) as [Hf Hr].
  assert (HE : map fst (with_reverse A) = map fst (expand Q))
    by by rewrite endpoints_expand, HS.
  assert (Hok : 0 <= r_u q < Z.of_nat (length g)
                /\ 0 <= r_v q < Z.of_nat (length g)).
  { unfold arcs_ok in HA. rewrite Forall_forall in HA.
    rewrite Hlen. apply list_elem_of_lookup_2 in Hc.
    specialize (HA _ Hc). simpl in HA. lia. }
  exists (mkEdge (r_u q) (r_v q) (r_fwd q)), (mkEdge (r_v q) (r_u q) (r_rev q)).
  split; [by rewrite (edge_at_slot g _ _ _ _ _ HR HE Hfwd Hf) by (simpl; lia)|].
  split; [by rewrite (edge_at_slot g _ _ _ _ _ HR HE Hrev Hr) by (simpl; lia)|].
  done.
Qed.

Lemma capacities_invariant_witness :
  exists pc g0 g,
    preprocess one_connections one_maxIn one_maxOut one_targets = Ret pc
    /\ build one_connections one_maxIn one_maxOut one_targets = Ret g0
    /\ round g0 0 6 = Ret (g, Some 10)
    /\ (forall k e, e ∈ edges_of g k -> 0 <= e_w e)
    /\ forall i fwd,
         pc !! (2 * i)%nat = Some fwd ->
         exists ef er,
           edge_at g (slot pc (2 * i)) = Some ef
           /\ edge_at g (slot pc (2 * i + 1)) = Some er
           /\ (e_u ef, e_v ef) = (fwd.1.1, fwd.1.2)
           /\ (e_u er, e_v er) = (fwd.1.2, fwd.1.1)
           /\ e_w ef + e_w er = fwd.2.
Proof.
  eexists _, _, _.
  split; [vm_compute; reflexivity|].
  split; [vm_compute; reflexivity|].
  split; [vm_compute; reflexivity|].
  eapply (capacities_invariant one_connections one_maxIn one_maxOut 0
            one_targets).
  - unfold well_formed, ids_in_range, capacities_nonneg. simpl.
    repeat constructor; simpl; lia.
  - vm_compute. reflexivity.
  - vm_compute. reflexivity.
  - eapply after_round; [apply after_none|]. vm_compute. reflexivity.
Defined.

(** ** [Graph.__init__]: where the edges go, and when it raises *)

Lemma py_index_indexable (len : nat) (i : Z) :
  indexable len i -> exists k, py_index len i = Ret k /\ (k < len)%nat.
Proof.
  unfold indexable, py_index. intros H.
  destruct ((0 <=? i) && (i <? Z.of_nat len)) eqn:H1.
  - apply andb_true_iff in H1 as [H0 H1]. exists (Z.to_nat i). split; [done|lia].
  - destruct ((- Z.of_nat len <=? i) && (i <? 0)) eqn:H2.
    + exists (Z.to_nat (Z.of_nat len + i)). split; [done|].
      apply andb_true_iff in H2 as [H2 H3]. lia.
    + apply andb_false_iff in H1. apply andb_false_iff in H2.
      destruct H1 as [H1|H1], H2 as [H2|H2]; lia.
Qed.

Lemma py_index_not_indexable (len : nat) (i : Z) :
  ~ indexable len i -> py_index len i = Raise IndexError.
Proof.
  unfold indexable, py_index. intros H.
  destruct ((0 <=? i) && (i <? Z.of_nat len)) eqn:H1.
  { apply andb_true_iff in H1 as [H0 H1]. lia. }
  destruct ((- Z.of_nat len <=? i) && (i <? 0)) eqn:H2; [|done].
  apply andb_true_iff in H2 as [H2 H3]. lia.
Qed.

Lemma all_edges_add_edge e (g : Graph) :
  forall k, (k < length g)%nat ->
    all_edges (alter (add_edge e) k g) ≡ₚ e :: all_edges g.
Proof.
  unfold all_edges. induction g as [|v g IH]; intros [|k] Hk; simpl in *;
    try lia.
  - rewrite <- app_assoc. simpl.
    by rewrite <- Permutation_middle.
  - fold_alter. rewrite IH by lia. by rewrite <- Permutation_middle.
Qed.

Lemma all_edges_replicate m : all_edges (replicate m Vertex_init) = [].
Proof. unfold all_edges. induction m as [|m IH]; simpl; done. Qed.

Lemma foldM_insert_edge_indexable pc :
  forall g0,
    Forall (fun c : conn => indexable (length g0) c.1.1) pc ->
    exists g,
      foldM insert_edge pc g0 = Ret g
      /\ length g = length g0
      /\ all_edges g ≡ₚ all_edges g0 ++ map conn_edge pc
      /\ (Forall clear g0 -> Forall clear g).
Proof.
  induction pc as [|[[u v] w] pc IH]; intros g0 Hr.
  - exists g0. simpl. by rewrite app_nil_r.
  - apply Forall_cons in Hr as [Hu Hr]. simpl in Hu.
    destruct (py_index_indexable _ _ Hu) as (k & Hk & Hlt).
    simpl. unfold insert_edge at 1. rewrite Hk. ret_bind.
    destruct (IH (alter (add_edge (mkEdge u v w)) k g0))
      as (g & Hg & Hlen & Hperm & Hclear).
    { by rewrite length_alter. }
    exists g. split; [done|]. split; [by rewrite Hlen, length_alter|]. split.
    + rewrite Hperm, all_edges_add_edge by done.
      by rewrite <- Permutation_middle.
    + intros Hc. apply Hclear. apply Forall_forall. intros x Hx.
      apply list_elem_of_lookup_1 in Hx as [j Hj].
      rewrite Forall_forall in Hc.
      destruct (decide (j = k)) as [->|Hne].
      * rewrite list_lookup_alter_eq in Hj.
        destruct (g0 !! k) as [x0|] eqn:E; [|done]. injection Hj as <-.
        apply (Hc x0). by eapply list_elem_of_lookup_2.
      * rewrite list_lookup_alter_ne in Hj by done.
        apply (Hc x). by eapply list_elem_of_lookup_2.
Qed.

Lemma foldM_insert_edge_raises pc :
  forall g0,
    Exists (fun c : conn => ~ indexable (length g0) c.1.1) pc ->
    foldM insert_edge pc g0 = Raise IndexError.
Proof.
  induction pc as [|[[u v] w] pc IH]; intros g0 Hex.
  - by apply Exists_nil in Hex.
  - simpl. unfold insert_edge at 1.
    destruct (decide (indexable (length g0) u)) as [Hu|Hu].
    + destruct (py_index_indexable _ _ Hu) as (k & Hk & _). rewrite Hk.
      ret_bind. apply IH. rewrite length_alter.
      apply Exists_cons in Hex as [Hex|Hex]; [done|done].
    + by rewrite (py_index_not_indexable _ _ Hu).
Qed.

Lemma foldM_insert_edge_adjacency pc :
  forall g0 g,
    foldM insert_edge pc g0 = Ret g ->
    forall k v0, g0 !! k = Some v0 ->
      exists v, g !! k = Some v
        /\ edges v = edges v0 ++ edges_at (length g0) pc k.
Proof.
  induction pc as [|[[u w0] w] pc IH]; intros g0 g H k v0 Hk.
  - injection H as <-. exists v0. split; [done|].
    unfold edges_at. rewrite filter_nil. simpl. by rewrite app_nil_r.
  - simpl in H. unfold insert_edge at 1 in H.
    destruct (py_index (length g0) u) as [j| |] eqn:Hj; try discriminate.
    revert H. ret_bind. intros H.
    set (e := mkEdge u w0 w) in *.
    assert (Hk1 : alter (add_edge e) j g0 !! k
                  = Some (if decide (j = k) then add_edge e v0 else v0)).
    { rewrite list_lookup_alter. case_decide; subst; by rewrite Hk. }
    destruct (IH _ _ H k _ Hk1) as (v & Hv & He).
    exists v. split; [done|]. rewrite He, length_alter.
    unfold edges_at. rewrite filter_cons. simpl. rewrite Hj.
    destruct (decide (j = k)) as [->|Hne].
    + rewrite decide_True by done. simpl. by rewrite <- app_assoc.
    + rewrite decide_False by congruence. done.
Qed.

(** [Graph(connections, n)], when [self.vertices[u]] is defined for the
    start [u] of every connection: the graph has [n] vertices, in a clear
    search state; the adjacency list of each vertex [k] holds, in the order
    of the list, the edges of the connections that start at [k] or, counting
    from the end, at [k - n]; and the graph holds one edge for each
    connection, no more. *)
Theorem Graph_init_holds_every_edge pc n :
  Forall (fun c : conn => indexable (Z.to_nat n) c.1.1) pc ->
  exists g,
    Graph_init pc n = Ret g
    /\ length g = Z.to_nat n
    /\ Forall clear g
    /\ (forall k, (k < Z.to_nat n)%nat ->
          edges_of g k = edges_at (Z.to_nat n) pc k)
    /\ all_edges g ≡ₚ map conn_edge pc.
Proof.
  intros Hr. unfold Graph_init.
  destruct (foldM_insert_edge_indexable pc (replicate (Z.to_nat n) Vertex_init))
    as (g & Hg & Hlen & Hperm & Hclear).
  { by rewrite length_replicate. }
  exists g. split; [done|]. split; [by rewrite Hlen, length_replicate|].
  split.
  { apply Hclear. apply Forall_forall. intros x Hx.
    apply elem_of_replicate in Hx as [-> _]. by repeat split. }
  split.
  - intros k Hk.
    destruct (foldM_insert_edge_adjacency _ _ _ Hg k Vertex_init)
      as (v & Hv & He); [by apply lookup_replicate_2|].
    unfold edges_of. rewrite Hv, He, length_replicate. done.
  - by rewrite Hperm, all_edges_replicate.
Qed.

Lemma Graph_init_holds_every_edge_witness :
  exists g,
    Graph_init [(0, 1, 5); (-1, 0, 7)] 2 = Ret g
    /\ length g = 2%nat
    /\ Forall clear g
    /\ (forall k, (k < 2)%nat ->
          edges_of g k = edges_at 2 [(0, 1, 5); (-1, 0, 7)] k)
    /\ all_edges g ≡ₚ [mkEdge 0 1 5; mkEdge (-1) 0 7].
Proof.
  apply (Graph_init_holds_every_edge [(0, 1, 5); (-1, 0, 7)] 2).
  repeat constructor; unfold indexable; simpl; lia.
Defined.

(** [Graph(connections, n)] raises [IndexError] as soon as the start of some
    connection is no index of a list of length [n]. *)
Theorem Graph_init_raises_IndexError pc n :
  Exists (fun c : conn => ~ indexable (Z.to_nat n) c.1.1) pc ->
  Graph_init pc n = Raise IndexError.
Proof.
  intros Hex. unfold Graph_init. apply foldM_insert_edge_raises.
  by rewrite length_replicate.
Qed.

Lemma Graph_init_raises_IndexError_witness :
  Graph_init [(0, 1, 5); (2, 0, 7)] 2 = Raise IndexError.
Proof.
  apply (Graph_init_raises_IndexError [(0, 1, 5); (2, 0, 7)] 2).
  apply Exists_cons_tl, Exists_cons_hd. unfold indexable. simpl. lia.
Defined.

(** ** [hasAugmentingPath]: what the search decides *)

Lemma hop_map_edges (g g' : Graph) u k :
  map edges g' = map edges g -> hop g' u k -> hop g u k.
Proof.
  intros Hm (e & He & Hw & Hk). exists e.
  by rewrite <- (edges_of_map_edges _ _ _ Hm), <- (length_map_edges _ _ Hm).
Qed.

(** One scanned edge either changes nothing, or discovers the vertex it
    arrives at and puts it at the end of the queue. *)
Lemma scan_edge_cases u e vs q vs' q' :
  scan_edge u e (vs, q) = Ret (vs', q') ->
  (vs' = vs /\ q' = q
   /\ (0 < e_w e ->
       exists k v, py_index (length vs) (e_v e) = Ret k
                   /\ vs !! k = Some v /\ discovered v = true))
  \/ (exists k v,
        py_index (length vs) (e_v e) = Ret k /\ vs !! k = Some v
        /\ discovered v = false /\ 0 < e_w e
        /\ vs' = alter (set_discovered u) k vs /\ q' = q ++ [k]).
Proof.
  unfold scan_edge.
  destruct (py_index (length vs) (e_v e)) as [k| |] eqn:Hk; try discriminate.
  ret_bind. destruct (vs !! k) as [v|] eqn:Hv; try discriminate.
  destruct (discovered v) eqn:Hd; simpl.
  - intros [= <- <-]. left. split; [done|]. split; [done|]. eauto.
  - destruct (0 <? e_w e) eqn:Hw; intros [= <- <-].
    + right. exists k, v. repeat split; try done. lia.
    + left. split; [done|]. split; [done|]. lia.
Qed.

Lemma foldM_scan_edge_flags u es :
  forall vs q vs' q',
    foldM (scan_edge u) es (vs, q) = Ret (vs', q') ->
    exists added,
      q' = q ++ added
      /\ (forall k, k ∈ added ->
            exists e, e ∈ es /\ 0 < e_w e
                      /\ py_index (length vs) (e_v e) = Ret k)
      /\ (forall k v, vs !! k = Some v ->
            exists v', vs' !! k = Some v' /\ visited v' = visited v
              /\ (discovered v' = true <-> discovered v = true \/ k ∈ added))
      /\ (forall e k, e ∈ es -> 0 < e_w e ->
            py_index (length vs) (e_v e) = Ret k ->
            exists v', vs' !! k = Some v' /\ discovered v' = true).
Proof.
  induction es as [|e es IH]; intros vs q vs' q' H; simpl in H.
  - injection H as <- <-. exists []. split; [by rewrite app_nil_r|].
    split; [by intros k ?%elem_of_nil|]. split.
    + intros k v Hk. exists v. split; [done|]. split; [done|].
      split; [auto|]. intros [?|?%elem_of_nil]; done.
    + by intros e k ?%elem_of_nil.
  - destruct (scan_edge u e (vs, q)) as [[vs1 q1]| |] eqn:H1; try discriminate.
    revert H. ret_bind. intros H.
    destruct (IH _ _ _ _ H) as (added & -> & Hadd & Hflags & Hdisc).
    apply scan_edge_cases in H1
      as [(-> & -> & Hold)|(k0 & v0 & Hk0 & Hv0 & Hd0 & Hw0 & -> & ->)].
    + exists added. split; [done|]. split.
      { intros k Hk. destruct (Hadd k Hk) as (e' & He' & H').
        exists e'. split; [by right|done]. }
      split; [done|].
      intros e' k [->|He']%elem_of_cons Hw Hk; [|by apply (Hdisc e')].
      destruct (Hold Hw) as (k1 & v1 & Hk1 & Hv1 & Hd1).
      rewrite Hk in Hk1. injection Hk1 as <-.
      destruct (Hflags k v1 Hv1) as (v' & Hv' & _ & Hiff).
      exists v'. split; [done|]. apply Hiff. by left.
    + rewrite length_alter in Hadd, Hdisc.
      exists (k0 :: added). split; [by rewrite <- app_assoc|]. split.
      { intros k [->|Hk]%elem_of_cons.
        - exists e. split; [by left|done].
        - destruct (Hadd k Hk) as (e' & He' & H').
          exists e'. split; [by right|done]. }
      split.
      { intros k v Hk.
        destruct (decide (k = k0)) as [->|Hne].
        - rewrite Hv0 in Hk. injection Hk as <-.
          destruct (Hflags k0 (set_discovered u v0)) as (v' & Hv' & Hvis & Hiff).
          { by rewrite list_lookup_alter_eq, Hv0. }
          exists v'. split; [done|]. split; [done|].
          split; [intros _; right; by left|].
          intros _. apply Hiff. by left.
        - destruct (Hflags k v) as (v' & Hv' & Hvis & Hiff).
          { by rewrite list_lookup_alter_ne. }
          exists v'. split; [done|]. split; [done|]. rewrite Hiff.
          split; intros [?|?]; auto.
          + right. by right.
          + apply elem_of_cons in H0 as [?|?]; [done|by right]. }
      intros e' k [->|He']%elem_of_cons Hw Hk; [|by apply (Hdisc e')].
      rewrite Hk in Hk0. injection Hk0 as ->.
      destruct (Hflags k0 (set_discovered u v0)) as (v' & Hv' & _ & Hiff).
      { by rewrite list_lookup_alter_eq, Hv0. }
      exists v'. split; [done|]. apply Hiff. by left.
Qed.

Lemma lookup_set_visited (vs : Graph) u k v1 :
  alter set_visited u vs !! k = Some v1 ->
  exists v, vs !! k = Some v
    /\ discovered v1 = discovered v
    /\ (visited v1 = true <-> k = u \/ visited v = true).
Proof.
  rewrite list_lookup_alter. case_decide as E.
  - subst. destruct (vs !! k) as [v|]; [|done]. intros [= <-].
    exists v. simpl. split; [done|]. split; [done|]. split; auto.
  - intros Hk. exists v1. split; [done|]. split; [done|].
    split; [auto|]. intros [?|?]; [congruence|done].
Qed.

(** One turn of the loop of [hasAugmentingPath] that does not end the search
    keeps [bfs_inv]. *)
Lemma bfs_inv_step g s0 sink u q vs vs2 q2 :
  bfs_inv g s0 sink vs (u :: q) ->
  Z.of_nat u <> sink ->
  foldM (scan_edge u) (edges_of (alter set_visited u vs) u)
    (alter set_visited u vs, q) = Ret (vs2, q2) ->
  bfs_inv g s0 sink vs2 q2.
Proof.
  intros (J1 & J2 & J3 & J4 & J5) Hu H.
  apply Forall_cons in J2 as [[Hult Hureach] J2].
  set (vs1 := alter set_visited u vs) in *.
  assert (Hm1 : map edges vs1 = map edges vs) by by apply map_edges_alter.
  pose proof (foldM_scan_edge_ret _ _ _ _ _ _ H) as (Hm2 & _ & _).
  pose proof (length_map_edges _ _ Hm1) as Hl1.
  pose proof (length_map_edges _ _ Hm2) as Hl2.
  pose proof (length_map_edges _ _ J1) as Hl0.
  destruct (foldM_scan_edge_flags _ _ _ _ _ _ H)
    as (added & -> & Hadd & Hflags & Hdisc).
  assert (Hes : edges_of vs1 u = edges_of g u).
  { by rewrite (edges_of_map_edges _ _ _ Hm1), (edges_of_map_edges _ _ _ J1). }
  assert (Hback : forall k v2, vs2 !! k = Some v2 ->
            exists v, vs !! k = Some v
              /\ (visited v2 = true <-> k = u \/ visited v = true)
              /\ (discovered v2 = true <-> discovered v = true \/ k ∈ added)).
  { intros k v2 Hk.
    destruct (lookup_lt_is_Some_2 vs1 k) as [v1 Hv1].
    { rewrite <- Hl2. by apply lookup_lt_Some in Hk. }
    destruct (Hflags k v1 Hv1) as (v' & Hv' & Hvis & Hiff).
    rewrite Hk in Hv'. injection Hv' as <-.
    destruct (lookup_set_visited _ _ _ _ Hv1) as (v & Hv & Hd & Hvis1).
    exists v. split; [done|]. rewrite Hvis, Hiff, Hd. done. }
  assert (Hfwd : forall k v, vs !! k = Some v -> discovered v = true ->
            exists v2, vs2 !! k = Some v2 /\ discovered v2 = true).
  { intros k v Hk Hd.
    destruct (lookup_lt_is_Some_2 vs2 k) as [v2 Hv2].
    { rewrite Hl2, Hl1. by apply lookup_lt_Some in Hk. }
    exists v2. split; [done|].
    destruct (Hback k v2 Hv2) as (v' & Hv' & _ & Hiff).
    rewrite Hk in Hv'. injection Hv' as <-. apply Hiff. by left. }
  split; [congruence|]. split.
  { apply Forall_app_2.
    - eapply Forall_impl; [exact J2|]. intros k [? ?]. split; [lia|done].
    - apply Forall_forall. intros k Hk.
      destruct (Hadd k Hk) as (e & He & Hw & Hidx).
      split; [apply py_index_lt in Hidx; lia|].
      apply (reach_hop _ _ u); [done|]. exists e.
      rewrite <- Hes. split; [done|]. split; [done|].
      by rewrite <- Hl0, <- Hl1. }
  split.
  { intros k v2 Hk Hvis.
    destruct (Hback k v2 Hk) as (v & Hv & Hiffv & _).
    destruct (proj1 Hiffv Hvis) as [Heq|Hvis0].
    - subst k. split; [done|]. intros k' (e & He & Hw & Hidx).
      apply (Hdisc e k'); [by rewrite Hes|done|].
      by rewrite Hl1, Hl0.
    - destruct (J3 k v Hv Hvis0) as [Hns Hhops]. split; [done|].
      intros k' Hhop. destruct (Hhops k' Hhop) as (v' & Hv' & Hd').
      by apply (Hfwd k' v'). }
  split.
  { intros k v2 Hk Hd.
    destruct (Hback k v2 Hk) as (v & Hv & Hiffv & Hiffd).
    destruct (proj1 Hiffd Hd) as [Hd0|Hin].
    - destruct (J4 k v Hv Hd0) as [[->|Hin]%elem_of_cons|Hvis].
      + right. apply Hiffv. by left.
      + left. apply elem_of_app. by left.
      + right. apply Hiffv. by right.
    - left. apply elem_of_app. by right. }
  assert (Hvisu : exists v2, vs2 !! u = Some v2 /\ visited v2 = true).
  { destruct (lookup_lt_is_Some_2 vs2 u) as [v2 Hv2]; [lia|].
    exists v2. split; [done|].
    destruct (Hback u v2 Hv2) as (v & Hv & Hiffv & _). apply Hiffv. by left. }
  destruct J5 as [[->|Hin]%elem_of_cons|(v & Hv & Hvis)].
  - by right.
  - left. apply elem_of_app. by left.
  - right. destruct (lookup_lt_is_Some_2 vs2 s0) as [v2 Hv2].
    { rewrite Hl2, Hl1. by apply lookup_lt_Some in Hv. }
    exists v2. split; [done|].
    destruct (Hback s0 v2 Hv2) as (v' & Hv' & Hiffv & _).
    rewrite Hv in Hv'. injection Hv' as <-. apply Hiffv. by right.
Qed.

(** When the queue is empty, every vertex that can be reached was taken from
    the queue. *)
Lemma bfs_inv_done g s0 sink vs t :
  bfs_inv g s0 sink vs [] -> reach g s0 t ->
  exists v, vs !! t = Some v /\ visited v = true.
Proof.
  intros (J1 & J2 & J3 & J4 & J5). induction 1 as [|u k _ IH Hhop].
  - destruct J5 as [?%elem_of_nil|?]; done.
  - destruct IH as (v & Hv & Hvis).
    destruct (J3 u v Hv Hvis) as [_ Hhops].
    destruct (Hhops k Hhop) as (v' & Hv' & Hd').
    destruct (J4 k v' Hv' Hd') as [?%elem_of_nil|?]; [done|eauto].
Qed.

Lemma bfs_loop_decides g s0 sink fuel :
  forall q vs vs' found,
    bfs_loop fuel sink q vs = Ret (vs', found) ->
    bfs_inv g s0 sink vs q ->
    (found = true <-> exists t, Z.of_nat t = sink /\ reach g s0 t).
Proof.
  assert (Hempty : forall vs, bfs_inv g s0 sink vs [] ->
            ~ exists t, Z.of_nat t = sink /\ reach g s0 t).
  { intros vs HJ (t & Ht & Hr).
    destruct (bfs_inv_done _ _ _ _ _ HJ Hr) as (v & Hv & Hvis).
    destruct HJ as (_ & _ & J3 & _). by destruct (J3 t v Hv Hvis). }
  induction fuel as [|fuel IH]; intros [|u q] vs vs' found H HJ; simpl in H;
    try discriminate.
  - injection H as <- <-. split; [done|]. intros Hex. by destruct (Hempty vs).
  - injection H as <- <-. split; [done|]. intros Hex. by destruct (Hempty vs).
  - destruct (Z.of_nat u =? sink) eqn:E.
    + injection H as <- <-. split; [|done]. intros _. exists u.
      split; [lia|]. destruct HJ as (_ & J2 & _).
      apply Forall_cons in J2 as [[_ ?] _]. done.
    + destruct (foldM (scan_edge u) (edges_of (alter set_visited u vs) u)
                  (alter set_visited u vs, q)) as [[vs2 q2]| |] eqn:H2;
        try discriminate.
      revert H. ret_bind. intros H. apply (IH _ _ _ _ H).
      apply (bfs_inv_step g s0 sink u q vs); [done|lia|done].
Qed.

Lemma search_decides self source sink self' found :
  Forall clear self ->
  hasAugmentingPath self source sink = Ret (self', found) ->
  exists s0,
    py_index (length self) source = Ret s0
    /\ (found = true <-> exists t, Z.of_nat t = sink /\ reach self s0 t).
Proof.
  intros Hclear. unfold hasAugmentingPath.
  destruct (py_index (length self) source) as [s0| |] eqn:Hs; try discriminate.
  ret_bind. intros H. exists s0. split; [done|].
  apply (bfs_loop_decides self s0 sink _ _ _ _ _ H).
  rewrite Forall_forall in Hclear.
  split; [done|]. split.
  { constructor; [|constructor].
    split; [by apply py_index_lt in Hs|apply reach_here]. }
  split.
  { intros k v Hk Hvis. destruct (Hclear v) as (_ & Hv & _);
      [by eapply list_elem_of_lookup_2|congruence]. }
  split.
  { intros k v Hk Hd. destruct (Hclear v) as (Hv & _ & _);
      [by eapply list_elem_of_lookup_2|congruence]. }
  left. by left.
Qed.

(** [hasAugmentingPath], called on a graph in a clear search state, answers
    [True] exactly when edges of positive capacity lead from the vertex
    [self.vertices[source]] to the vertex whose id is [sink]. *)
Theorem hasAugmentingPath_decides_reachability self source sink self' found :
  Forall clear self ->
  hasAugmentingPath self source sink = Ret (self', found) ->
  exists s0,
    py_index (length self) source = Ret s0
    /\ (found = true <-> exists t, Z.of_nat t = sink /\ reach self s0 t).
Proof. apply search_decides. Qed.

Lemma hasAugmentingPath_decides_reachability_witness :
  exists s0,
    py_index (length two_vertices) 0 = Ret s0
    /\ (true = true <-> exists t, Z.of_nat t = 1 /\ reach two_vertices s0 t).
Proof.
  eapply (hasAugmentingPath_decides_reachability two_vertices 0 1).
  - repeat constructor.
  - vm_compute. reflexivity.
Defined.

(** ** [hasAugmentingPath]: how the search ends *)

Lemma py_index_outcome (len : nat) (i : Z) :
  match py_index len i with
  | Ret k => (k < len)%nat /\ indexable len i
  | Raise ex => ex = IndexError /\ ~ indexable len i
  | Timeout => False
  end.
Proof.
  destruct (decide (indexable len i)) as [H|H].
  - destruct (py_index_indexable _ _ H) as (k & -> & Hk). done.
  - by rewrite (py_index_not_indexable _ _ H).
Qed.

Lemma scan_edge_outcome u e vs q :
  match scan_edge u e (vs, q) with
  | Ret _ => True
  | Raise ex => ex = IndexError /\ ~ indexable (length vs) (e_v e)
  | Timeout => False
  end.
Proof.
  unfold scan_edge. pose proof (py_index_outcome (length vs) (e_v e)) as H.
  destruct (py_index (length vs) (e_v e)) as [k| |]; [|done..].
  ret_bind. destruct H as [Hk _].
  destruct (lookup_lt_is_Some_2 vs k Hk) as [v ->].
  by destruct (negb (discovered v) && (0 <? e_w e)).
Qed.

Lemma foldM_scan_edge_outcome u es :
  forall vs q,
    match foldM (scan_edge u) es (vs, q) with
    | Ret _ => True
    | Raise ex =>
        ex = IndexError
        /\ exists e, e ∈ es /\ ~ indexable (length vs) (e_v e)
    | Timeout => False
    end.
Proof.
  induction es as [|e es IH]; intros vs q; simpl; [done|].
  pose proof (scan_edge_outcome u e vs q) as H1.
  destruct (scan_edge u e (vs, q)) as [[vs1 q1]|ex|] eqn:E1; [|..|done].
  - ret_bind. specialize (IH vs1 q1).
    apply scan_edge_ret in E1 as (Hm & _).
    rewrite (length_map_edges _ _ Hm) in IH.
    destruct (foldM (scan_edge u) es (vs1, q1)) as [?|ex|]; [done| |done].
    destruct IH as (-> & e' & He' & Hn). split; [done|].
    exists e'. split; [by right|done].
  - destruct H1 as [-> Hn]. split; [done|]. exists e. split; [by left|done].
Qed.

Lemma bfs_loop_outcome sink fuel :
  forall queue vs,
    (length queue + undiscovered vs <= fuel)%nat ->
    match bfs_loop fuel sink queue vs with
    | Ret r => map edges r.1 = map edges vs
    | Raise ex =>
        ex = IndexError
        /\ exists k e, e ∈ edges_of vs k /\ ~ indexable (length vs) (e_v e)
    | Timeout => False
    end.
Proof.
  induction fuel as [|fuel IH]; intros [|u q] vs Hm; simpl in *;
    try done; try lia.
  set (vs1 := alter set_visited u vs).
  assert (Hm1 : map edges vs1 = map edges vs) by by apply map_edges_alter.
  destruct (Z.of_nat u =? sink); [done|].
  pose proof (foldM_scan_edge_outcome u (edges_of vs1 u) vs1 q) as H2.
  destruct (foldM (scan_edge u) (edges_of vs1 u) (vs1, q))
    as [[vs2 q2]|ex|] eqn:E2; [|..|done].
  - ret_bind.
    apply foldM_scan_edge_ret in E2 as (Hm2 & Hmeas & _).
    unfold vs1 in Hmeas. rewrite undiscovered_set_visited in Hmeas.
    specialize (IH q2 vs2 ltac:(lia)).
    destruct (bfs_loop fuel sink q2 vs2) as [r|ex|]; [congruence| |done].
    destruct IH as (-> & k & e & He & Hn). split; [done|].
    exists k, e. rewrite (edges_of_map_edges _ _ _ Hm2) in He.
    rewrite (edges_of_map_edges _ _ _ Hm1) in He.
    rewrite (length_map_edges _ _ Hm2), (length_map_edges _ _ Hm1) in Hn. done.
  - destruct H2 as (-> & e & He & Hn). split; [done|].
    exists u, e. rewrite (edges_of_map_edges _ _ _ Hm1) in He.
    rewrite (length_map_edges _ _ Hm1) in Hn. done.
Qed.

Lemma search_outcome self source sink :
  match hasAugmentingPath self source sink with
  | Ret r => map edges r.1 = map edges self /\ indexable (length self) source
  | Raise ex =>
      ex = IndexError
      /\ (~ indexable (length self) source
          \/ exists k e, e ∈ edges_of self k
                         /\ ~ indexable (length self) (e_v e))
  | Timeout => False
  end.
Proof.
  unfold hasAugmentingPath.
  pose proof (py_index_outcome (length self) source) as Hs.
  destruct (py_index (length self) source) as [s|ex|]; ret_bind;
    [|destruct Hs; auto|done].
  destruct Hs as [Hs Hi].
  pose proof (bfs_loop_outcome sink (Datatypes.S (length self)) [s] self) as H.
  destruct (bfs_loop (Datatypes.S (length self)) sink [s] self) as [r|ex|].
  - split; [|done]. apply H. pose proof (undiscovered_le self). simpl. lia.
  - destruct H as [-> H]; [pose proof (undiscovered_le self); simpl; lia|].
    split; [done|]. by right.
  - apply H. pose proof (undiscovered_le self). simpl. lia.
Qed.

(** [hasAugmentingPath] always ends, on any graph.  When it returns, it has
    changed no edge.  It raises nothing but [IndexError], and only when
    [self.vertices[source]], or [self.vertices[edge.v]] for some edge of the
    graph, is not defined. *)
Theorem hasAugmentingPath_outcome self source sink :
  match hasAugmentingPath self source sink with
  | Ret r => map edges r.1 = map edges self /\ indexable (length self) source
  | Raise ex =>
      ex = IndexError
      /\ (~ indexable (length self) source
          \/ exists k e, e ∈ edges_of self k
                         /\ ~ indexable (length self) (e_v e))
  | Timeout => False
  end.
Proof. apply search_outcome. Qed.

(** ** [getAugmentingPath]: the path and its value *)

Lemma fold_min_step_attained c es :
  forall sm,
    fold_left (min_step c) es sm = sm
    \/ exists e, e ∈ es /\ e_v e = c /\ fold_left (min_step c) es sm = e_w e.
Proof.
  induction es as [|e es IH]; intros sm; simpl; [by left|].
  destruct (IH (min_step c sm e)) as [H|(e' & He' & Hv & H)].
  - rewrite H. unfold min_step.
    destruct (e_v e =? c) eqn:Ec; [|by left].
    apply Z.eqb_eq in Ec.
    destruct (sm =? -1); [right; exists e; split; [by left|done]|].
    destruct (e_w e <? sm); [right; exists e; split; [by left|done]|by left].
  - right. exists e'. split; [by right|done].
Qed.

(** The value that [backtrack] returns is the one it started with or the
    capacity of an edge it has compared. *)
Lemma backtrack_attained self source fuel :
  forall current path sm path' b,
    backtrack fuel self source current path sm = Ret (path', b) ->
    exists l,
      path' = path ++ l ++ [source]
      /\ (b = sm \/ exists e, scanned self l e /\ b = e_w e).
Proof.
  induction fuel as [|fuel IH]; intros current path sm path' b H;
    simpl in H; destruct (current =? source) eqn:Ec.
  - apply Z.eqb_eq in Ec as ->. injection H as <- <-. exists []. auto.
  - discriminate.
  - apply Z.eqb_eq in Ec as ->. injection H as <- <-. exists []. auto.
  - destruct (py_get self current) as [v| |] eqn:Hv; try discriminate.
    revert H. ret_bind.
    destruct (previous v) as [p|] eqn:Hp; try discriminate. intros H.
    destruct (IH _ _ _ _ _ H) as (l & -> & Hb).
    exists (current :: l). split; [by rewrite <- app_assoc|].
    assert (Hmono : forall e, scanned self l e -> scanned self (current :: l) e).
    { intros e (c & v' & p' & Hc & H'). exists c, v', p'.
      split; [by right|done]. }
    destruct Hb as [->|(e & He & ->)]; [|right; eauto].
    destruct (fold_min_step_attained current (edges_of self p) sm)
      as [->|(e & He & Hev & ->)]; [by left|].
    right. exists e. split; [|done].
    exists current, v, p. split; [by left|done].
Qed.

(** [getAugmentingPath], on a graph without negative capacity: the path
    starts at [source], goes through each vertex once, follows the
    [previous] pointers back from [sink], and the value returned with it is
    the smallest capacity among all the edges that join a vertex of the path
    to the next one, parallel edges included ([-1] when there is no such
    edge). *)
Theorem getAugmentingPath_returns_minimum self source sink path b :
  nonneg self ->
  getAugmentingPath self source sink = Ret (path, b) ->
  exists l,
    walk self source sink l
    /\ path = source :: reverse l
    /\ NoDup path
    /\ (forall e, scanned self l e -> 0 <= b <= e_w e)
    /\ ((exists e, scanned self l e /\ b = e_w e)
        \/ (b = -1 /\ forall e, ~ scanned self l e)).
Proof.
  intros Hnn. unfold getAugmentingPath.
  destruct (backtrack (length self) self source sink [] (-1))
    as [[path' b']|ex|] eqn:Hbt; try discriminate.
  ret_bind. intros [= <- <-].
  destruct (backtrack_walk _ _ _ Hnn _ _ _ _ _ Hbt) as (l & Hw & -> & _ & Hbound);
    [by left|].
  destruct (backtrack_attained _ _ _ _ _ _ _ _ Hbt) as (l' & El & Hatt).
  simpl in El. apply app_inj_tail in El as [<- _].
  exists l. split; [done|]. simpl. rewrite reverse_snoc. split; [done|].
  split.
  { apply NoDup_cons. split.
    - rewrite elem_of_reverse. intros Hin.
      by apply (walk_not_source _ _ _ _ _ Hw Hin).
    - rewrite reverse_Permutation. by apply (walk_NoDup _ _ _ _ Hw). }
  assert (Hb : forall e, scanned self l e -> 0 <= b' <= e_w e).
  { intros e (c & v & p & Hc & Hv & Hp & He & Hev). by apply (Hbound c v p e). }
  split; [done|].
  destruct Hatt as [->|Hatt]; [|by left].
  right. split; [done|]. intros e He. specialize (Hb e He). lia.
Qed.

Lemma getAugmentingPath_returns_minimum_witness :
  exists l,
    walk [mkVertex [mkEdge 0 1 0; mkEdge 0 1 3] false true None;
          mkVertex [] true true (Some 0%nat)] 0 1 l
    /\ [0; 1] = 0 :: reverse l
    /\ NoDup [0; 1]
    /\ (forall e,
          scanned [mkVertex [mkEdge 0 1 0; mkEdge 0 1 3] false true None;
                   mkVertex [] true true (Some 0%nat)] l e ->
          0 <= 0 <= e_w e)
    /\ ((exists e,
           scanned [mkVertex [mkEdge 0 1 0; mkEdge 0 1 3] false true None;
                    mkVertex [] true true (Some 0%nat)] l e /\ 0 = e_w e)
        \/ (0 = -1
            /\ forall e,
                 ~ scanned [mkVertex [mkEdge 0 1 0; mkEdge 0 1 3] false true None;
                            mkVertex [] true true (Some 0%nat)] l e)).
Proof.
  apply (getAugmentingPath_returns_minimum
           [mkVertex [mkEdge 0 1 0; mkEdge 0 1 3] false true None;
            mkVertex [] true true (Some 0%nat)] 0 1 [0; 1] 0).
  - intros [|[|k]] e He; unfold edges_of in He; simpl in He.
    + apply elem_of_cons in He as [->|He]; [simpl; lia|].
      apply elem_of_cons in He as [->|He]; [simpl; lia|].
      by apply elem_of_nil in He.
    + by apply elem_of_nil in He.
    + by apply elem_of_nil in He.
  - vm_compute. reflexivity.
Defined.

(** ** From a successful search to its path *)

Lemma py_get_ret {A} (l : list A) (i : Z) (x : A) :
  py_get l i = Ret x ->
  exists k, py_index (length l) i = Ret k /\ l !! k = Some x.
Proof.
  unfold py_get.
  destruct (py_index (length l) i) as [k|ex|]; try discriminate.
  ret_bind. destruct (l !! k) as [y|] eqn:E; [|discriminate].
  intros [= ->]. eauto.
Qed.

Lemma py_get_of_index {A} (l : list A) (i : Z) (k : nat) (x : A) :
  py_index (length l) i = Ret k -> l !! k = Some x -> py_get l i = Ret x.
Proof. intros Hk Hx. unfold py_get. rewrite Hk. ret_bind. by rewrite Hx. Qed.

(** A walk only reads vertices that have a [previous] pointer. *)
Lemma walk_alter (f : Vertex -> Vertex) vs source k0 v0 current l :
  vs !! k0 = Some v0 -> previous v0 = None ->
  walk vs source current l -> walk (alter f k0 vs) source current l.
Proof.
  intros Hk0 Hp0. induction 1 as [|current v p l Hne Hv Hp Hw IH];
    [constructor|].
  apply (walk_step _ _ _ v p); try done.
  apply py_get_ret in Hv as (k & Hk & Hv).
  apply (py_get_of_index _ _ k); [by rewrite length_alter|].
  rewrite list_lookup_alter_ne; [done|]. intros ->. congruence.
Qed.

Lemma walk_map_previous (vs vs' : Graph) source current l :
  map previous vs' = map previous vs ->
  walk vs source current l -> walk vs' source current l.
Proof.
  intros Hm. induction 1 as [|current v p l Hne Hv Hp Hw IH]; [constructor|].
  apply py_get_ret in Hv as (k & Hk & Hv).
  destruct (lookup_map_previous _ _ _ _ (eq_sym Hm) Hv) as (v' & Hv' & Hp').
  apply (walk_step _ _ _ v' p); try done; [|congruence].
  apply (py_get_of_index _ _ k); [|done].
  by rewrite <- (length_map previous vs'), Hm, length_map.
Qed.

Lemma scan_edge_walk source u e vs q vs' q' :
  scan_edge u e (vs, q) = Ret (vs', q') ->
  walkable vs source u -> bfs_walk_inv vs source q ->
  walkable vs' source u /\ bfs_walk_inv vs' source q'.
Proof.
  intros H Hu [W2 W1].
  apply scan_edge_cases in H
    as [(-> & -> & _)|(k0 & v0 & Hk0 & Hv0 & Hd0 & Hw0 & -> & ->)]; [done|].
  assert (Hp0 : previous v0 = None).
  { destruct (previous v0) eqn:E; [|done].
    rewrite (W2 k0 v0 Hv0) in Hd0; [done|congruence]. }
  assert (Hkeep : forall k, walkable vs source k ->
            walkable (alter (set_discovered u) k0 vs) source k).
  { intros k [l Hl]. exists l. by apply (walk_alter _ _ _ _ v0). }
  split; [by apply Hkeep|]. split.
  - intros k v Hk Hp.
    destruct (decide (k = k0)) as [->|Hne].
    + rewrite list_lookup_alter_eq, Hv0 in Hk. by injection Hk as <-.
    + rewrite list_lookup_alter_ne in Hk by done. by apply (W2 k v).
  - apply Forall_app_2; [by eapply Forall_impl; [exact W1|]|].
    constructor; [|constructor].
    destruct (decide (Z.of_nat k0 = source)) as [E|E].
    + exists []. rewrite E. constructor.
    + destruct (Hkeep u Hu) as [lu Hlu]. exists (Z.of_nat k0 :: lu).
      apply (walk_step _ _ _ (set_discovered u v0) u); try done.
      apply py_get_lookup. by rewrite list_lookup_alter_eq, Hv0.
Qed.

Lemma foldM_scan_edge_walk source u es :
  forall vs q vs' q',
    foldM (scan_edge u) es (vs, q) = Ret (vs', q') ->
    walkable vs source u -> bfs_walk_inv vs source q ->
    bfs_walk_inv vs' source q'.
Proof.
  induction es as [|e es IH]; intros vs q vs' q' H Hu HW; simpl in H.
  - by injection H as <- <-.
  - destruct (scan_edge u e (vs, q)) as [[vs1 q1]|ex|] eqn:H1; try discriminate.
    revert H. ret_bind. intros H.
    destruct (scan_edge_walk source _ _ _ _ _ _ H1 Hu HW) as [Hu1 HW1].
    by apply (IH _ _ _ _ H).
Qed.

Lemma bfs_loop_walk source sink fuel :
  forall q vs vs',
    bfs_loop fuel sink q vs = Ret (vs', true) ->
    bfs_walk_inv vs source q ->
    exists l, walk vs' source sink l.
Proof.
  induction fuel as [|fuel IH]; intros [|u q] vs vs' H HW; simpl in H;
    try discriminate.
  destruct HW as [W2 W1]. apply Forall_cons in W1 as [Hu W1].
  set (vs1 := alter set_visited u vs) in *.
  assert (Hp1 : map previous vs1 = map previous vs)
    by by apply map_previous_alter.
  assert (Hkeep : forall k, walkable vs source k -> walkable vs1 source k).
  { intros k [l Hl]. exists l. by apply (walk_map_previous vs). }
  assert (HW1 : bfs_walk_inv vs1 source q).
  { split; [|by eapply Forall_impl; [exact W1|]].
    intros k v1 Hk Hp. unfold vs1 in Hk.
    rewrite list_lookup_alter in Hk. case_decide; [|by apply (W2 k v1)].
    subst. destruct (vs !! k) as [v|] eqn:Hv; [|done].
    injection Hk as <-. simpl in *. by apply (W2 k v). }
  destruct (Z.of_nat u =? sink) eqn:E.
  - injection H as <-. apply Z.eqb_eq in E as <-. by apply Hkeep.
  - destruct (foldM (scan_edge u) (edges_of vs1 u) (vs1, q))
      as [[vs2 q2]|ex|] eqn:H2; try discriminate.
    revert H. ret_bind. intros H. apply (IH _ _ _ H).
    apply (foldM_scan_edge_walk source _ _ _ _ _ _ H2); [by apply Hkeep|done].
Qed.

Lemma backtrack_of_walk_ret self source current l :
  walk self source current l ->
  forall fuel path sm,
    (length l <= fuel)%nat ->
    exists b,
      backtrack fuel self source current path sm
      = Ret (path ++ l ++ [source], b).
Proof.
  induction 1 as [|current v p l Hne Hv Hp Hw IH]; intros fuel path sm Hlen.
  - rewrite backtrack_at_source. eauto.
  - destruct fuel as [|fuel]; simpl in Hlen; [lia|]. simpl.
    apply Z.eqb_neq in Hne. rewrite Hne, Hv. ret_bind. rewrite Hp.
    destruct (IH fuel (path ++ [current])
                (fold_left (min_step current) (edges_of self p) sm))
      as [b Hb]; [lia|].
    exists b. rewrite Hb. by rewrite <- app_assoc.
Qed.

Lemma walk_starts self source current l :
  walk self source current l ->
  (l = [] /\ current = source) \/ exists l', l = current :: l'.
Proof. destruct 1; eauto. Qed.

Lemma PrevOK_in_range vs :
  PrevOK vs ->
  forall k v p, vs !! k = Some v -> previous v = Some p -> (p < length vs)%nat.
Proof. intros HP k v p Hk Hp. by destruct (HP k v p Hk Hp). Qed.

Lemma getAugmentingPath_of_search self source sink self' :
  Forall (fun v => previous v = None) self ->
  0 <= source ->
  hasAugmentingPath self source sink = Ret (self', true) ->
  exists l b,
    walk self' source sink l
    /\ getAugmentingPath self' source sink = Ret (source :: reverse l, b).
Proof.
  intros Hprev H0 Hbfs.
  destruct (hasAugmentingPath_ret _ _ _ _ _ Hbfs (PrevOK_no_previous _ Hprev))
    as [_ HP].
  assert (Hw : exists l, walk self' source sink l).
  { revert Hbfs. unfold hasAugmentingPath.
    destruct (py_index (length self) source) as [s0|ex|] eqn:Hs;
      try discriminate.
    ret_bind. intros Hbfs.
    apply py_index_ret_nonneg in Hs as [-> _]; [|done].
    apply (bfs_loop_walk _ _ _ _ _ _ Hbfs). split.
    - intros k v Hk Hp. rewrite Forall_forall in Hprev.
      rewrite (Hprev v) in Hp; [done|]. by eapply list_elem_of_lookup_2.
    - constructor; [|constructor]. exists []. constructor. }
  destruct Hw as [l Hw].
  pose proof (walk_length _ _ _ _ (PrevOK_in_range _ HP) Hw) as Hlen.
  destruct (backtrack_of_walk_ret _ _ _ _ Hw (length self') [] (-1) Hlen)
    as [b Hb].
  exists l, b. split; [done|]. unfold getAugmentingPath. rewrite Hb.
  ret_bind. simpl. by rewrite reverse_snoc.
Qed.

(** After [hasAugmentingPath] has answered [True] for a graph whose
    [previous] pointers were all [None] and a [source] that is not negative,
    [getAugmentingPath] returns: it neither raises nor runs for ever, and its
    path starts at [source] and ends at [sink]. *)
Theorem getAugmentingPath_after_search self source sink self' :
  Forall (fun v => previous v = None) self ->
  0 <= source ->
  hasAugmentingPath self source sink = Ret (self', true) ->
  exists path b,
    getAugmentingPath self' source sink = Ret (path, b)
    /\ head path = Some source
    /\ last path = Some sink.
Proof.
  intros Hprev H0 Hbfs.
  destruct (getAugmentingPath_of_search _ _ _ _ Hprev H0 Hbfs)
    as (l & b & Hw & Hpath).
  exists (source :: reverse l), b. split; [done|]. split; [done|].
  destruct (walk_starts _ _ _ _ Hw) as [[-> ->]|[l' ->]]; [done|].
  rewrite reverse_cons.
  change (last ((source :: reverse l') ++ [sink]) = Some sink).
  apply last_snoc.
Qed.

Lemma getAugmentingPath_after_search_witness :
  exists path b,
    getAugmentingPath
      [mkVertex [mkEdge 0 1 5] false true None;
       mkVertex [] true true (Some 0%nat)] 0 1 = Ret (path, b)
    /\ head path = Some 0
    /\ last path = Some 1.
Proof.
  apply (getAugmentingPath_after_search two_vertices 0 1).
  - repeat constructor.
  - lia.
  - vm_compute. reflexivity.
Defined.

(** ** A turn of the loop of [fordFulkerson] always ends *)

Lemma round_inversion g source sink g' b :
  round g source sink = Ret (g', Some b) ->
  exists g1 path g2,
    hasAugmentingPath g source sink = Ret (g1, true)
    /\ getAugmentingPath g1 source sink = Ret (path, b)
    /\ for_range (augment_hop path b) 1
         (Z.to_nat (Z.of_nat (length path) - 1 - 1)) g1 = Ret g2
    /\ g' = reset g2.
Proof.
  unfold round.
  destruct (hasAugmentingPath g source sink) as [[g1 found]|ex|] eqn:Hbfs;
    try discriminate.
  ret_bind. destruct found; [|discriminate].
  destruct (getAugmentingPath g1 source sink) as [[path sv]|ex|] eqn:Hpath;
    try discriminate.
  destruct (for_range (augment_hop path sv) 1
              (Z.to_nat (Z.of_nat (length path) - 1 - 1)) g1)
    as [g2|ex|] eqn:Hloop; try discriminate.
  intros [= <- <-]. by exists g1, path, g2.
Qed.

Lemma for_range_augment_hop source l c0 b g :
  for_range (augment_hop (source :: reverse (c0 :: l)) b) 1
    (Z.to_nat (Z.of_nat (length (source :: reverse (c0 :: l))) - 1 - 1)) g
  = foldM (augment_at b) (reverse l) g.
Proof.
  rewrite reverse_cons.
  rewrite <- (for_range_mid (augment_at b) [c0] (reverse l) [source] g).
  replace (Z.to_nat (Z.of_nat (length (source :: reverse l ++ [c0])) - 1 - 1))
    with (length (reverse l)) by (simpl; rewrite length_app; simpl; lia).
  reflexivity.
Qed.

Lemma augment_at_ret b c (gc : Graph) v ui :
  0 <= c -> gc !! Z.to_nat c = Some v -> previous v = Some ui ->
  augment_at b c gc = Ret (apply_hop b gc (ui, Z.to_nat c)).
Proof.
  intros Hc Hv Hu. unfold augment_at.
  rewrite py_index_in_range by (apply lookup_lt_Some in Hv; lia).
  ret_bind. by rewrite Hv, Hu.
Qed.

Lemma foldM_augment_at_returns b (g1 : Graph) interior :
  forall gc,
    Forall (fun c => 0 <= c
                     /\ exists v ui, g1 !! Z.to_nat c = Some v
                                     /\ previous v = Some ui) interior ->
    map previous gc = map previous g1 ->
    exists g2, foldM (augment_at b) interior gc = Ret g2.
Proof.
  induction interior as [|c interior IH]; intros gc Hc Hp; simpl; [eauto|].
  apply Forall_cons in Hc as [(Hc0 & v & ui & Hv & Hu) Hc].
  destruct (lookup_map_previous _ _ _ _ (eq_sym Hp) Hv) as (v' & Hv' & Hp').
  rewrite (augment_at_ret b c gc v' ui) by (done || congruence).
  ret_bind. apply IH; [done|].
  by rewrite map_previous_apply_hop.
Qed.

(** On a graph whose [previous] pointers are all [None] and whose edges all
    arrive at a vertex of the graph, with [source] a vertex id, a turn of the
    loop ends without raising. *)
Lemma round_returns g source sink :
  Forall (fun v => previous v = None) g ->
  dests_in_range g ->
  0 <= source < Z.of_nat (length g) ->
  exists g' r, round g source sink = Ret (g', r).
Proof.
  intros Hprev Hdests Hs. unfold round.
  pose proof (search_outcome g source sink) as Hout.
  destruct (hasAugmentingPath g source sink) as [[g1 found]|ex|] eqn:Hbfs;
    [|exfalso|done].
  2:{ destruct Hout as [_ [Hn|(k & e & He & Hn)]]; apply Hn; unfold indexable.
      - lia.
      - specialize (Hdests k e He). lia. }
  ret_bind. destruct found; [|eauto].
  destruct (getAugmentingPath_of_search _ _ _ _ Hprev (proj1 Hs) Hbfs)
    as (l & b & Hw & Hpath).
  rewrite Hpath. ret_bind.
  destruct l as [|c0 l].
  { simpl. eauto. }
  rewrite for_range_augment_hop.
  inversion Hw as [|? v0 p0 ? Hne0 Hv0 Hp0 Hw']; subst.
  destruct (foldM_augment_at_returns b g1 (reverse l) g1) as [g2 Hg2];
    [|done|rewrite Hg2; ret_bind; eauto].
  apply Forall_reverse, Forall_forall. intros c Hc.
  pose proof (walk_nonneg _ _ _ _ Hw' ltac:(lia)) as Hpos.
  rewrite Forall_forall in Hpos. specialize (Hpos c Hc).
  split; [done|].
  destruct (walk_elem _ _ _ _ _ Hw' Hc) as (v & p & Hv & Hp).
  apply py_get_nonneg in Hv as [_ Hv]; [|done]. eauto.
Qed.

(** When the loop pushes a value along a path from [source] to another
    vertex [sink], that value is not negative. *)
Lemma round_push_nonneg A n g source sink g' b :
  arcs_ok n A -> Inv A n g ->
  source <> sink -> 0 <= sink ->
  round g source sink = Ret (g', Some b) ->
  0 <= b.
Proof.
  intros HA (Hlen & Hprev & Hnn & Q & HR & HS) Hne Hsink Hround. subst n.
  destruct (round_inversion _ _ _ _ _ Hround)
    as (g1 & path & g2 & Hbfs & Hpath & _ & _).
  destruct (hasAugmentingPath_ret _ _ _ _ _ Hbfs (PrevOK_no_previous _ Hprev))
    as [Hm1 HP1].
  pose proof (length_map_edges _ _ Hm1) as Hlen1.
  pose proof (Rep_map_edges _ _ _ Hm1 HR) as HR1.
  pose proof (nonneg_map_edges _ _ Hm1 Hnn) as Hnn1.
  unfold getAugmentingPath in Hpath.
  destruct (backtrack (length g1) g1 source sink [] (-1))
    as [[path' sv']|ex|] eqn:Hbt; try discriminate.
  revert Hpath. ret_bind. intros [= <- <-].
  destruct (backtrack_walk _ _ _ Hnn1 _ _ _ _ _ Hbt) as (l & Hw & _ & _ & Hbound);
    [by left|].
  inversion Hw as [|? v0 p0 l' Hne0 Hv0 Hp0 Hw']; subst; [done|].
  pose proof Hv0 as Hv0'.
  apply py_get_nonneg in Hv0' as [_ Hk0]; [|done].
  destruct (HP1 _ _ _ Hk0 Hp0) as (_ & e & He & Hidx).
  destruct (Rep_edges _ _ _ _ _ HR1 eq_refl ltac:(by rewrite Hlen1) He)
    as [Hr0 _].
  apply py_index_ret_nonneg in Hidx as [Hidx _]; [|lia].
  assert (Hev : e_v e = sink) by lia.
  specialize (Hbound sink v0 p0 e ltac:(by left) Hv0 Hp0 He Hev). lia.
Qed.

Lemma Inv_dests_in_range A n g :
  arcs_ok n A -> Inv A n g -> dests_in_range g.
Proof.
  intros HA (Hlen & _ & _ & Q & HR & HS) k e He. subst n.
  by destruct (Rep_edges _ _ _ _ _ HR HS HA He).
Qed.

Lemma fordFulkerson_loop_outcome A n source sink fuel :
  arcs_ok n A -> source <> sink -> 0 <= sink ->
  0 <= source < Z.of_nat n ->
  forall g flow,
    Inv A n g ->
    fordFulkerson_loop fuel g source sink flow = Timeout
    \/ exists g' flow',
         fordFulkerson_loop fuel g source sink flow = Ret (g', flow')
         /\ flow <= flow'.
Proof.
  intros HA Hne Hsink Hs.
  induction fuel as [|fuel IH]; intros g flow HI; [by left|].
  destruct (round_returns g source sink) as (g' & r & Hr).
  - apply HI.
  - by apply (Inv_dests_in_range A n).
  - destruct HI as [-> _]. done.
  - destruct r as [b|].
    + rewrite (fordFulkerson_loop_push _ _ _ _ _ _ _ Hr).
      pose proof (round_push_nonneg _ _ _ _ _ _ _ HA HI Hne Hsink Hr) as Hb.
      destruct (IH g' (flow + b) (round_Inv _ _ _ _ _ _ _ HA HI Hr))
        as [->|(g'' & flow' & -> & Hle)]; [by left|].
      right. exists g'', flow'. split; [done|lia].
    + rewrite (fordFulkerson_loop_leave _ _ _ _ _ _ Hr).
      right. exists g', flow. split; [done|lia].
Qed.

(** For every well-formed input, [maxThroughput] raises no exception; and
    when it returns, it returns an integer that is not negative. *)
Theorem maxThroughput_never_raises connections maxIn maxOut origin targets :
  well_formed connections maxIn maxOut origin targets ->
  forall fuel,
    maxThroughput fuel connections maxIn maxOut origin targets = Timeout
    \/ exists v,
         maxThroughput fuel connections maxIn maxOut origin targets = Ret v
         /\ 0 <= v.
Proof.
  intros Hwf fuel.
  destruct (build_transformed _ _ _ _ _ (proj1 Hwf)) as (g & Hg & Hl & _).
  destruct (Inv_build _ _ _ _ _ _ Hwf Hg) as [HA HI].
  destruct Hwf as [(_ & _ & Ho & _) _].
  unfold maxThroughput, fordFulkerson. rewrite Hg. ret_bind.
  destruct (fordFulkerson_loop_outcome _ _ origin
              (Z.of_nat (length maxIn) * 3) fuel HA) with (g := g) (flow := 0)
    as [->|(g' & flow' & -> & Hle)]; try done; try lia.
  - by left.
  - right. exists flow'. done.
Qed.

Lemma maxThroughput_never_raises_witness :
  maxThroughput 3 one_connections one_maxIn one_maxOut 0 one_targets = Timeout
  \/ exists v,
       maxThroughput 3 one_connections one_maxIn one_maxOut 0 one_targets
       = Ret v /\ 0 <= v.
Proof.
  apply (maxThroughput_never_raises one_connections one_maxIn one_maxOut 0
           one_targets).
  unfold well_formed, ids_in_range, capacities_nonneg. simpl.
  repeat constructor; simpl; lia.
Defined.

(** ** Networks without parallel channels: the loop ends *)

Lemma hop_same_edges (g g' : Graph) u k :
  map edges g' = map edges g -> hop g u k -> hop g' u k.
Proof.
  intros Hm (e & He & Hw & Hk). exists e.
  by rewrite (edges_of_map_edges _ _ _ Hm), (length_map_edges _ _ Hm).
Qed.

Lemma scan_edge_PrevPos u e vs q vs' q' :
  scan_edge u e (vs, q) = Ret (vs', q') ->
  e ∈ edges_of vs u -> PrevPos vs -> PrevPos vs'.
Proof.
  intros H He HP. pose proof (scan_edge_ret _ _ _ _ _ _ H) as (Hm & _ & _).
  apply scan_edge_cases in H
    as [(-> & -> & _)|(k0 & v0 & Hk0 & Hv0 & Hd0 & Hw0 & -> & ->)]; [done|].
  intros k v u' Hk Hu'. apply (hop_same_edges vs); [done|].
  destruct (decide (k = k0)) as [->|Hne].
  - rewrite list_lookup_alter_eq, Hv0 in Hk. injection Hk as <-.
    simpl in Hu'. injection Hu' as <-. by exists e.
  - rewrite list_lookup_alter_ne in Hk by done. by apply (HP k v u').
Qed.

Lemma foldM_scan_edge_PrevPos u es :
  forall vs q vs' q',
    foldM (scan_edge u) es (vs, q) = Ret (vs', q') ->
    (forall e, e ∈ es -> e ∈ edges_of vs u) ->
    PrevPos vs -> PrevPos vs'.
Proof.
  induction es as [|e es IH]; intros vs q vs' q' H Hes HP; simpl in H.
  - by injection H as <- <-.
  - destruct (scan_edge u e (vs, q)) as [[vs1 q1]|ex|] eqn:H1; try discriminate.
    revert H. ret_bind. intros H.
    pose proof (scan_edge_ret _ _ _ _ _ _ H1) as (Hm & _ & _).
    apply (IH vs1 q1 vs' q' H).
    + intros e' He'. rewrite (edges_of_map_edges _ _ _ Hm). apply Hes. by right.
    + apply (scan_edge_PrevPos _ _ _ _ _ _ H1); [|done]. apply Hes. by left.
Qed.

Lemma bfs_loop_PrevPos fuel sink :
  forall queue vs vs' found,
    bfs_loop fuel sink queue vs = Ret (vs', found) ->
    PrevPos vs -> PrevPos vs'.
Proof.
  induction fuel as [|fuel IH]; intros [|u q] vs vs' found H HP;
    simpl in H; try discriminate.
  - by injection H as <- <-.
  - by injection H as <- <-.
  - set (vs1 := alter set_visited u vs) in *.
    assert (Hm1 : map edges vs1 = map edges vs) by by apply map_edges_alter.
    assert (HP1 : PrevPos vs1).
    { intros k v1 u' Hk Hu'. apply (hop_same_edges vs); [done|].
      unfold vs1 in Hk. rewrite list_lookup_alter in Hk.
      case_decide; [|by apply (HP k v1 u')].
      subst. destruct (vs !! k) as [v|] eqn:Hv; [|done].
      injection Hk as <-. simpl in Hu'. by apply (HP k v u'). }
    destruct (Z.of_nat u =? sink).
    { by injection H as <- <-. }
    destruct (foldM (scan_edge u) (edges_of vs1 u) (vs1, q))
      as [[vs2 q2]|ex|] eqn:H2; try discriminate.
    revert H. ret_bind. intros H. apply (IH _ _ _ _ H).
    by apply (foldM_scan_edge_PrevPos _ _ _ _ _ _ H2).
Qed.

Lemma hasAugmentingPath_PrevPos self source sink self' found :
  Forall (fun v => previous v = None) self ->
  hasAugmentingPath self source sink = Ret (self', found) ->
  PrevPos self'.
Proof.
  intros Hprev. unfold hasAugmentingPath.
  destruct (py_index (length self) source) as [s|ex|]; try discriminate.
  ret_bind. intros H. apply (bfs_loop_PrevPos _ _ _ _ _ _ H).
  intros k v u Hk Hu. rewrite Forall_forall in Hprev.
  rewrite (Hprev v) in Hu; [done|]. by eapply list_elem_of_lookup_2.
Qed.

(** A turn that finds a path, taken apart: the search, the walk back from
    [sink], the value, and the hops that are updated, one for each vertex of
    the walk but [sink]. *)
Lemma round_hops g source sink g' b :
  Forall (fun v => previous v = None) g -> nonneg g ->
  round g source sink = Ret (g', Some b) ->
  exists g1 l hops,
    hasAugmentingPath g source sink = Ret (g1, true)
    /\ walk g1 source sink l
    /\ (b = -1 \/ exists e, scanned g1 l e /\ b = e_w e)
    /\ (forall e, scanned g1 l e -> 0 <= b <= e_w e)
    /\ map (fun h : nat * nat => Z.of_nat h.2) hops = reverse (tail l)
    /\ Forall (fun h : nat * nat =>
                 exists v, g1 !! h.2 = Some v /\ previous v = Some h.1) hops
    /\ g' = reset (fold_left (apply_hop b) hops g1).
Proof.
  intros Hprev Hnn Hround.
  destruct (round_inversion _ _ _ _ _ Hround)
    as (g1 & path & g2 & Hbfs & Hpath & Hloop & ->).
  destruct (hasAugmentingPath_ret _ _ _ _ _ Hbfs (PrevOK_no_previous _ Hprev))
    as [Hm1 _].
  pose proof (nonneg_map_edges _ _ Hm1 Hnn) as Hnn1.
  unfold getAugmentingPath in Hpath.
  destruct (backtrack (length g1) g1 source sink [] (-1))
    as [[path' sv']|ex|] eqn:Hbt; try discriminate.
  revert Hpath. ret_bind. intros [= <- Eb]. subst sv'.
  destruct (backtrack_walk _ _ _ Hnn1 _ _ _ _ _ Hbt) as (l & Hw & -> & _ & Hbound);
    [by left|].
  destruct (backtrack_attained _ _ _ _ _ _ _ _ Hbt) as (l' & El & Hatt).
  simpl in El. apply app_inj_tail in El as [<- _].
  simpl in Hloop. rewrite reverse_snoc in Hloop.
  assert (Hb : forall e, scanned g1 l e -> 0 <= b <= e_w e).
  { intros e (c & v & p & Hc & Hv & Hp & He & Hev). by apply (Hbound c v p e). }
  destruct l as [|c0 l].
  - simpl in Hloop. injection Hloop as <-.
    exists g1, [], [].
    split; [done|]. split; [done|]. split; [done|]. split; [done|].
    split; [done|]. split; [constructor|done].
  - rewrite for_range_augment_hop in Hloop.
    inversion Hw as [|? v0 p0 ? Hne0 Hv0 Hp0 Hw']; subst.
    pose proof (walk_nonneg _ _ _ _ Hw' ltac:(lia)) as Hpos.
    destruct (foldM_augment_at b g1 _ _ _ Hloop) as (hops & -> & Hint & Hh);
      [by apply Forall_reverse|done|].
    exists g1, (c0 :: l), hops.
    split; [done|]. split; [done|]. split; [done|]. split; [done|].
    split; [done|]. split; done.
Qed.

(** In a walk, the predecessor of a vertex is the next vertex of the walk,
    or [source] for the last one. *)
Lemma walk_prev_next self source current l :
  walk self source current l ->
  forall i y v p,
    l !! i = Some y -> py_get self y = Ret v -> previous v = Some p ->
    l !! Datatypes.S i = Some (Z.of_nat p)
    \/ (l !! Datatypes.S i = None /\ Z.of_nat p = source).
Proof.
  induction 1 as [|current v0 p0 l Hne Hv0 Hp0 Hw IH]; intros i y v p Hi Hv Hp.
  - by rewrite lookup_nil in Hi.
  - destruct i as [|i]; [|by apply (IH i y v p)].
    injection Hi as <-. rewrite Hv0 in Hv. injection Hv as <-.
    rewrite Hp0 in Hp. injection Hp as <-. simpl.
    destruct (walk_starts _ _ _ _ Hw) as [[-> ->]|[l' ->]]; [by right|by left].
Qed.

Lemma NoDup_fmap_eq {A B} (f : A -> B) (l : list A) x y :
  NoDup (f <$> l) -> x ∈ l -> y ∈ l -> f x = f y -> x = y.
Proof.
  induction l as [|a l IH]; [by intros _ ?%elem_of_nil|].
  rewrite fmap_cons. intros [Hnotin Hnd]%NoDup_cons Hx Hy E.
  apply elem_of_cons in Hx as [->|Hx]; apply elem_of_cons in Hy as [->|Hy];
    try done.
  - destruct Hnotin. rewrite E. by apply list_elem_of_fmap_2.
  - destruct Hnotin. rewrite <- E. by apply list_elem_of_fmap_2.
  - by apply IH.
Qed.

Lemma edges_from_simple L k : simple L -> NoDup (map e_v (edges_from L k)).
Proof.
  unfold simple. induction L as [|c L IH]; intros Hnd.
  - unfold edges_from. rewrite filter_nil. constructor.
  - simpl in Hnd. apply NoDup_cons in Hnd as [Hnotin Hnd].
    rewrite edges_from_cons. case_decide as Hc; [|by apply IH].
    simpl. apply NoDup_cons. split; [|by apply IH].
    intros Hin. apply Hnotin.
    change (e_v <$> edges_from L k) with (e_v <$> (conn_edge <$> filter (fun c' : conn => c'.1.1 = Z.of_nat k) L)) in Hin.
    apply list_elem_of_fmap in Hin as (e & He & Hin).
    apply list_elem_of_fmap in Hin as (c' & -> & Hin).
    apply list_elem_of_filter in Hin as [Hsrc Hin].
    apply list_elem_of_fmap. exists c'. split; [|done].
    destruct c as [[u v] w], c' as [[u' v'] w']. simpl in *. congruence.
Qed.

(** Without parallel arcs, at most one edge goes from a vertex to another. *)
Lemma Rep_simple A g Q p :
  Rep g (expand Q) -> sums Q = A -> simple (with_reverse A) ->
  NoDup (map e_v (edges_of g p)).
Proof.
  intros HR HS Hsimple.
  destruct (decide (p < length g)%nat) as [Hp|Hp].
  - rewrite (HR p Hp). apply edges_from_simple.
    unfold simple. by rewrite endpoints_expand, HS.
  - unfold edges_of. rewrite lookup_ge_None_2 by lia. constructor.
Qed.

(** When no arc joins [source] and [sink], no edge goes from [source] to
    [sink]. *)
Lemma Rep_not_adjacent A g Q source sink o e :
  Rep g (expand Q) -> sums Q = A -> not_adjacent source sink A ->
  source = Z.of_nat o ->
  e ∈ edges_of g o -> e_v e <> sink.
Proof.
  intros HR HS Hna -> He Hev.
  destruct (decide (o < length g)%nat) as [Ho|Ho].
  2:{ unfold edges_of in He. rewrite lookup_ge_None_2 in He by lia.
      by apply elem_of_nil in He. }
  rewrite (HR o Ho) in He. unfold edges_from in He.
  apply list_elem_of_fmap in He as (c & -> & Hc).
  apply list_elem_of_filter in Hc as [Hsrc Hc].
  apply expand_elem in Hc as (q & Hq & Hc).
  assert (Hin : (r_u q, r_v q, r_fwd q + r_rev q) ∈ A).
  { rewrite <- HS. unfold sums. apply list_elem_of_fmap. by exists q. }
  unfold not_adjacent in Hna. rewrite Forall_forall in Hna.
  destruct (Hna _ Hin) as [H1 H2]. simpl in *.
  destruct Hc as [->| ->]; simpl in *; [apply H1|apply H2]; done.
Qed.

(** After the search, the edge that a [previous] pointer goes back along. *)
Lemma PrevPos_edge (g1 : Graph) k v p :
  PrevPos g1 -> dests_in_range g1 ->
  g1 !! k = Some v -> previous v = Some p ->
  exists e, e ∈ edges_of g1 p /\ e_v e = Z.of_nat k /\ 0 < e_w e.
Proof.
  intros HP Hd Hk Hp. destruct (HP k v p Hk Hp) as (e & He & Hw & Hidx).
  exists e. split; [done|]. split; [|done].
  apply py_index_ret_nonneg in Hidx as [-> _]; [done|].
  specialize (Hd p e He). lia.
Qed.

Lemma sum_update_first d x es :
  (exists e, e ∈ es /\ e_v e = d) ->
  fold_right Z.add 0 (map e_w (update_first d x es))
  = fold_right Z.add 0 (map e_w es) + x.
Proof.
  induction es as [|e es IH]; intros (e0 & He0 & Hv0).
  - by apply elem_of_nil in He0.
  - simpl. destruct (e_v e =? d) eqn:E; simpl; [lia|].
    apply elem_of_cons in He0 as [->|He0]; [lia|].
    rewrite IH by eauto. lia.
Qed.

Lemma out_map_edges (g g' : Graph) o :
  map edges g' = map edges g -> out g' o = out g o.
Proof. intros Hm. unfold out. by rewrite (edges_of_map_edges _ _ _ Hm). Qed.

Lemma out_apply_hop_other b g h o :
  h.1 <> h.2 -> o <> h.1 -> o <> h.2 -> out (apply_hop b g h) o = out g o.
Proof.
  intros Hne H1 H2. unfold out. rewrite edges_of_apply_hop by done.
  by rewrite !decide_False by done.
Qed.

Lemma out_apply_hop_from b g h :
  h.1 <> h.2 ->
  (exists e, e ∈ edges_of g h.1 /\ e_v e = Z.of_nat h.2) ->
  out (apply_hop b g h) h.1 = out g h.1 - b.
Proof.
  intros Hne Hex. unfold out. rewrite edges_of_apply_hop by done.
  rewrite decide_False by done. rewrite decide_True by done.
  rewrite sum_update_first by done. lia.
Qed.

Lemma out_fold_apply_hop_other b o hops :
  forall g,
    Forall (fun h : nat * nat => h.1 <> h.2 /\ o <> h.1 /\ o <> h.2) hops ->
    out (fold_left (apply_hop b) hops g) o = out g o.
Proof.
  induction hops as [|h hops IH]; intros g Hh; simpl; [done|].
  apply Forall_cons in Hh as [(H0 & H1 & H2) Hh].
  rewrite IH by done. by apply out_apply_hop_other.
Qed.

Lemma out_nonneg g o : nonneg g -> 0 <= out g o.
Proof.
  intros Hnn. unfold out. specialize (Hnn o).
  induction (edges_of g o) as [|e es IH]; simpl; [lia|].
  assert (0 <= e_w e) by (apply Hnn; by left).
  assert (0 <= fold_right Z.add 0 (map e_w es)); [|lia].
  apply IH. intros e' He'. apply Hnn. by right.
Qed.

(** Without parallel arcs and without an arc between [source] and [sink], a
    turn that finds a path pushes at least 1, and takes exactly what it
    pushes from the capacity that leaves [source]. *)
Lemma round_decreases A n g source sink o g' b :
  arcs_ok n A -> simple (with_reverse A) -> not_adjacent source sink A ->
  Inv A n g ->
  source = Z.of_nat o -> source <> sink -> 0 <= sink ->
  round g source sink = Ret (g', Some b) ->
  1 <= b /\ out g' o = out g o - b.
Proof.
  intros HA Hsimple Hna HI Hso Hne Hsink Hround.
  pose proof (round_push_nonneg _ _ _ _ _ _ _ HA HI Hne Hsink Hround) as Hb0.
  pose proof (Inv_dests_in_range _ _ _ HA HI) as Hdests.
  destruct HI as (Hlen & Hprev & Hnn & Q & HR & HS). subst n.
  destruct (round_hops _ _ _ _ _ Hprev Hnn Hround)
    as (g1 & l & hops & Hbfs & Hw & Hatt & Hbound & Hint & Hh & ->).
  destruct (hasAugmentingPath_ret _ _ _ _ _ Hbfs (PrevOK_no_previous _ Hprev))
    as [Hm1 _].
  pose proof (hasAugmentingPath_PrevPos _ _ _ _ _ Hprev Hbfs) as HPP.
  pose proof (length_map_edges _ _ Hm1) as Hlen1.
  pose proof (Rep_map_edges _ _ _ Hm1 HR) as HR1.
  pose proof (dests_in_range_map_edges _ _ Hm1 Hdests) as Hdests1.
  (* the walk is not empty, and does not end at once *)
  inversion Hw as [|? v0 p0 l' Hne0 Hv0 Hp0 Hw' E1 E2]; [done|]. subst l.
  pose proof (walk_nonneg _ _ _ _ Hw' ltac:(lia)) as Hpos'.
  assert (Hpos : Forall (fun c => 0 <= c) (sink :: l')) by by constructor.
  assert (Hedge : forall c v p,
            c ∈ sink :: l' -> py_get g1 c = Ret v -> previous v = Some p ->
            exists e, e ∈ edges_of g1 p /\ e_v e = c /\ 0 < e_w e).
  { intros c v p Hc Hv Hp. rewrite Forall_forall in Hpos.
    apply py_get_nonneg in Hv as [_ Hv]; [|by apply Hpos].
    destruct (PrevPos_edge _ _ _ _ HPP Hdests1 Hv Hp) as (e & He & Hev & Hew).
    exists e. split; [done|]. split; [|done].
    rewrite Hev. rewrite Z2Nat.id; [done|by apply Hpos]. }
  split.
  { destruct Hatt as [->|(e & (c & v & p & Hc & Hv & Hp & He & Hev) & ->)];
      [lia|].
    destruct (Hedge c v p Hc Hv Hp) as (e' & He' & Hev' & Hew').
    assert (e = e'); [|subst; lia].
    apply (NoDup_fmap_eq e_v (edges_of g1 p)); try done; [|congruence].
    by apply (Rep_simple _ _ _ _ HR1 HS). }
  rewrite (out_map_edges (fold_left (apply_hop b) hops g1) _ o
             (map_edges_reset _)).
  rewrite <- (out_map_edges g g1 o Hm1).
  (* the hops *)
  simpl in Hint.
  assert (Hl' : l' <> []).
  { intros ->. destruct (walk_starts _ _ _ _ Hw') as [[_ Esrc]|[l'' E]]; [|done].
    assert (p0 = o) as -> by lia.
    destruct (Hedge sink v0 o ltac:(by left) Hv0 Hp0) as (e & He & Hev & _).
    by apply (Rep_not_adjacent _ _ _ _ _ _ _ HR1 HS Hna Hso He). }
  assert (Hhop : forall h, h ∈ hops ->
            Z.of_nat h.2 ∈ l' /\ h.1 <> h.2 /\ h.2 <> o
            /\ (exists e, e ∈ edges_of g1 h.1 /\ e_v e = Z.of_nat h.2)
            /\ exists i v, l' !! i = Some (Z.of_nat h.2)
                 /\ py_get g1 (Z.of_nat h.2) = Ret v /\ previous v = Some h.1).
  { intros h Hin. rewrite Forall_forall in Hh.
    destruct (Hh h Hin) as (v & Hv & Hp).
    assert (Hc : Z.of_nat h.2 ∈ l').
    { apply elem_of_reverse. rewrite <- Hint.
      apply list_elem_of_fmap. by exists h. }
    destruct (PrevPos_edge _ _ _ _ HPP Hdests1 Hv Hp) as (e & He & Hev & _).
    destruct (Rep_edges _ _ _ _ _ HR1 HS ltac:(by rewrite Hlen1) He) as [_ Hl0].
    split; [done|]. split; [intros E; rewrite E in Hl0; lia|].
    split.
    { intros E. apply (walk_not_source _ _ _ _ _ Hw' Hc). by rewrite E. }
    split; [eauto|].
    apply list_elem_of_lookup_1 in Hc as [i Hi].
    exists i, v. split; [done|]. split; [by apply py_get_lookup|done]. }
  destruct hops as [|h1 rest].
  { simpl in Hint. destruct l' as [|c l'0]; [done|].
    rewrite reverse_cons in Hint. by destruct (reverse l'0). }
  assert (Hlast : h1.1 = o /\ forall h, h ∈ rest -> h.1 <> o).
  { assert (El : l' = reverse (map (fun h : nat * nat => Z.of_nat h.2) rest)
                        ++ [Z.of_nat h1.2]).
    { apply (f_equal reverse) in Hint. rewrite reverse_involutive in Hint.
      rewrite <- Hint. simpl. by rewrite reverse_cons. }
    set (r := reverse (map (fun h : nat * nat => Z.of_nat h.2) rest)) in *.
    pose proof (walk_NoDup _ _ _ _ Hw') as Hnd. split.
    - destruct (Hhop h1 ltac:(by left)) as (_ & _ & _ & _ & i & v & Hi & Hv & Hp).
      assert (i = length r).
      { apply (proj1 (NoDup_alt l') Hnd i (length r) (Z.of_nat h1.2)); [done|].
        rewrite El. by apply list_lookup_middle. }
      subst i.
      destruct (walk_prev_next _ _ _ _ Hw' _ _ _ _ Hi Hv Hp) as [Hn|[_ Hn]]; [|lia].
      apply lookup_lt_Some in Hn. rewrite El, length_app in Hn. simpl in Hn. lia.
    - intros h Hin.
      destruct (Hhop h ltac:(by right)) as (_ & _ & _ & _ & i & v & Hi & Hv & Hp).
      assert (Hr : Z.of_nat h.2 ∈ r).
      { unfold r. apply elem_of_reverse.
        apply list_elem_of_fmap. by exists h. }
      apply list_elem_of_lookup_1 in Hr as [j Hj].
      assert (i = j).
      { apply (proj1 (NoDup_alt l') Hnd i j (Z.of_nat h.2)); [done|].
        rewrite El. by apply lookup_app_l_Some. }
      subst i. apply lookup_lt_Some in Hj.
      destruct (walk_prev_next _ _ _ _ Hw' _ _ _ _ Hi Hv Hp) as [Hn|[Hn _]].
      + intros E. apply list_elem_of_lookup_2 in Hn.
        apply (walk_not_source _ _ _ _ _ Hw' Hn). by rewrite E.
      + apply lookup_ge_None in Hn. rewrite El, length_app in Hn.
        simpl in Hn. lia. }
  destruct Hlast as [Ho1 Hrest]. simpl.
  rewrite out_fold_apply_hop_other.
  - destruct (Hhop h1 ltac:(by left)) as (_ & Hne1 & _ & Hex & _).
    rewrite <- Ho1. by apply out_apply_hop_from.
  - apply Forall_forall. intros h Hin.
    destruct (Hhop h ltac:(by right)) as (_ & Hne1 & Hne2 & _).
    split; [done|]. split; [|done]. intros E. by apply (Hrest h Hin).
Qed.

Lemma fordFulkerson_loop_terminates A n source sink o :
  arcs_ok n A -> simple (with_reverse A) -> not_adjacent source sink A ->
  source = Z.of_nat o -> (o < n)%nat -> source <> sink -> 0 <= sink ->
  forall fuel g flow,
    Inv A n g ->
    out g o < Z.of_nat fuel ->
    exists g' flow',
      fordFulkerson_loop fuel g source sink flow = Ret (g', flow')
      /\ flow <= flow' <= flow + out g o.
Proof.
  intros HA Hsimple Hna Hso Ho Hne Hsink.
  induction fuel as [|fuel IH]; intros g flow HI Hout.
  { pose proof (out_nonneg g o ltac:(apply HI)). lia. }
  pose proof (out_nonneg g o ltac:(apply HI)) as Hnn.
  destruct (round_returns g source sink) as (g' & r & Hr).
  - apply HI.
  - by apply (Inv_dests_in_range A n).
  - destruct HI as [-> _]. lia.
  - destruct r as [b|].
    + rewrite (fordFulkerson_loop_push _ _ _ _ _ _ _ Hr).
      destruct (round_decreases _ _ _ _ _ _ _ _ HA Hsimple Hna HI Hso Hne Hsink Hr)
        as [Hb Hdec].
      destruct (IH g' (flow + b) (round_Inv _ _ _ _ _ _ _ HA HI Hr))
        as (g'' & flow' & -> & Hle); [lia|].
      exists g'', flow'. split; [done|lia].
    + rewrite (fordFulkerson_loop_leave _ _ _ _ _ _ Hr).
      exists g', flow. split; [done|lia].
Qed.

(** *** The arcs of the transformed graph, one by one *)

Lemma arcs_elem connections maxIn maxOut targets c :
  c ∈ arcs connections maxIn maxOut targets ->
  let N := Z.of_nat (length maxIn) in
  (exists i w, maxIn !! i = Some w /\ c = (Z.of_nat i + N, Z.of_nat i, w))
  \/ (exists i w, maxOut !! i = Some w
                  /\ c = (Z.of_nat i, Z.of_nat i + N * 2, w))
  \/ (exists x : conn, x ∈ connections
                       /\ c = (x.1.1 + N * 2, x.1.2 + N, x.2))
  \/ (exists t, t ∈ targets
                /\ c = (t, N * 3, default 0 (maxIn !! Z.to_nat t))).
Proof.
  unfold arcs. intros Hin. simpl.
  apply elem_of_app in Hin as [Hin|Hin].
  { apply elem_of_lookup_imap in Hin as (i & w & -> & Hi). left. eauto. }
  apply elem_of_app in Hin as [Hin|Hin].
  { apply elem_of_lookup_imap in Hin as (i & w & -> & Hi). right. left. eauto. }
  apply elem_of_app in Hin as [Hin|Hin].
  { apply list_elem_of_fmap in Hin as (x & -> & Hx). right. right. left. eauto. }
  apply list_elem_of_fmap in Hin as (t & -> & Ht). right. right. right. eauto.
Qed.

Lemma arcs_not_adjacent connections maxIn maxOut origin targets :
  ids_in_range connections maxIn maxOut origin targets ->
  origin ∉ targets ->
  not_adjacent origin (Z.of_nat (length maxIn) * 3)
    (arcs connections maxIn maxOut targets).
Proof.
  intros (Hlen & Hc & Ho & Ht) Hnotin. apply Forall_forall. intros c Hin.
  rewrite Forall_forall in Hc. rewrite Forall_forall in Ht.
  destruct (arcs_elem _ _ _ _ _ Hin)
    as [(i & w & Hi & ->)|[(i & w & Hi & ->)|[(x & Hx & ->)|(t & Htin & ->)]]];
    simpl.
  - apply lookup_lt_Some in Hi. lia.
  - apply lookup_lt_Some in Hi. lia.
  - specialize (Hc x Hx). lia.
  - specialize (Ht t Htin). split; [|lia]. intros [-> _]. done.
Qed.

Lemma with_reverse_endpoints A p :
  p ∈ map fst (with_reverse A) ->
  exists c : conn, c ∈ A /\ (p = (c.1.1, c.1.2) \/ p = (c.1.2, c.1.1)).
Proof.
  induction A as [|c A IH]; simpl; [by intros ?%elem_of_nil|].
  intros [->|[->|Hin]%elem_of_cons]%elem_of_cons.
  - exists c. split; [by left|by left].
  - exists c. split; [by left|by right].
  - destruct (IH Hin) as (c' & Hc' & Hp). exists c'. split; [by right|done].
Qed.

(** Arcs that are all different, and none the reverse of another, give an
    edge list without parallel edges. *)
Lemma simple_with_reverse A :
  NoDup (map fst A) ->
  (forall c c' : conn, c ∈ A -> c' ∈ A -> (c.1.1, c.1.2) <> (c'.1.2, c'.1.1)) ->
  simple (with_reverse A).
Proof.
  unfold simple. induction A as [|c A IH]; intros Hnd Hor; simpl;
    [constructor|].
  simpl in Hnd. apply NoDup_cons in Hnd as [Hnotin Hnd].
  assert (Hc : c ∈ c :: A) by by left.
  apply NoDup_cons. split; [|apply NoDup_cons; split].
  - intros [E|Hin]%elem_of_cons.
    + by apply (Hor c c).
    + apply with_reverse_endpoints in Hin as (c' & Hc' & [E|E]).
      * apply Hnotin. apply list_elem_of_fmap. exists c'. split; [|done].
        destruct c as [[? ?] ?], c' as [[? ?] ?]. simpl in *. congruence.
      * apply (Hor c c'); [done|by right|done].
  - intros Hin.
    apply with_reverse_endpoints in Hin as (c' & Hc' & [E|E]).
    + apply (Hor c' c); [by right|done|]. congruence.
    + apply Hnotin. apply list_elem_of_fmap. exists c'. split; [|done].
      destruct c as [[? ?] ?], c' as [[? ?] ?]. simpl in *. congruence.
  - apply IH; [done|]. intros c1 c2 H1 H2. apply Hor; by right.
Qed.

Lemma arcs_oriented connections maxIn maxOut origin targets :
  ids_in_range connections maxIn maxOut origin targets ->
  forall c c' : conn,
    c ∈ arcs connections maxIn maxOut targets ->
    c' ∈ arcs connections maxIn maxOut targets ->
    (c.1.1, c.1.2) <> (c'.1.2, c'.1.1).
Proof.
  intros (Hlen & Hc & Ho & Ht) c c' Hin Hin'.
  rewrite Forall_forall in Hc. rewrite Forall_forall in Ht.
  destruct (arcs_elem _ _ _ _ _ Hin)
    as [(i & w & Hi & ->)|[(i & w & Hi & ->)|[(x & Hx & ->)|(t & Htin & ->)]]];
    destruct (arcs_elem _ _ _ _ _ Hin')
      as [(j & w' & Hj & ->)|[(j & w' & Hj & ->)|[(y & Hy & ->)|(t' & Htin' & ->)]]];
    simpl; intros [= E1 E2];
    repeat match goal with
      | H : _ !! _ = Some _ |- _ => apply lookup_lt_Some in H
      | H : ?x ∈ connections |- _ => apply Hc in H
      | H : ?x ∈ targets |- _ => apply Ht in H
      end; lia.
Qed.

Lemma NoDup_imap {A B} (g : nat -> A -> B) (l : list A) :
  (forall i j a b, g i a = g j b -> i = j) -> NoDup (imap g l).
Proof.
  intros Hg. apply NoDup_alt. intros i j x Hi Hj.
  rewrite list_lookup_imap in Hi. rewrite list_lookup_imap in Hj.
  destruct (l !! i) as [a|]; [|done]. destruct (l !! j) as [b|]; [|done].
  simpl in *. apply (Hg i j a b). congruence.
Qed.

(** Without two channels between the same data centres in the same
    direction, and without a target listed twice, all the arcs are
    different. *)
Lemma arcs_NoDup connections maxIn maxOut origin targets :
  ids_in_range connections maxIn maxOut origin targets ->
  NoDup (map fst connections) -> NoDup targets ->
  NoDup (map fst (arcs connections maxIn maxOut targets)).
Proof.
  intros (Hlen & Hc & Ho & Ht) Hndc Hndt.
  rewrite Forall_forall in Hc. rewrite Forall_forall in Ht.
  unfold arcs. rewrite !map_app.
  apply NoDup_app. split; [|split].
  { change (NoDup (fst <$> imap (fun (i : nat) (w : Z) =>
              (Z.of_nat i + Z.of_nat (length maxIn), Z.of_nat i, w)) maxIn)).
    rewrite fmap_imap. apply NoDup_imap. intros i j a b [= E1 E2]. lia. }
  { intros x H1 H2. arc_families; simplify_eq/=;
      repeat match goal with
        | H : ?x ∈ connections |- _ => apply Hc in H
        | H : ?x ∈ targets |- _ => apply Ht in H
        end; lia. }
  apply NoDup_app. split; [|split].
  { change (NoDup (fst <$> imap (fun (i : nat) (w : Z) =>
              (Z.of_nat i, Z.of_nat i + Z.of_nat (length maxIn) * 2, w)) maxOut)).
    rewrite fmap_imap. apply NoDup_imap. intros i j a b [= E1 E2]. lia. }
  { intros x H1 H2. arc_families; simplify_eq/=;
      repeat match goal with
        | H : ?x ∈ connections |- _ => apply Hc in H
        | H : ?x ∈ targets |- _ => apply Ht in H
        end; lia. }
  apply NoDup_app. split; [|split].
  { rewrite map_map.
    apply (NoDup_fmap_2_strong
             (fun c : conn => (c.1.1 + Z.of_nat (length maxIn) * 2,
                               c.1.2 + Z.of_nat (length maxIn)))).
    - intros x y Hx Hy [= E1 E2].
      apply (NoDup_fmap_eq fst connections); try done.
      destruct x as [[? ?] ?], y as [[? ?] ?]. simpl in *. f_equal; lia.
    - by apply (NoDup_fmap_1 fst). }
  { intros x H1 H2. arc_families; simplify_eq/=;
      repeat match goal with
        | H : ?x ∈ connections |- _ => apply Hc in H
        | H : ?x ∈ targets |- _ => apply Ht in H
        end; lia. }
  rewrite map_map.
  apply (NoDup_fmap_2_strong
           (fun t : Z => (t, Z.of_nat (length maxIn) * 3))); [|done].
  intros x y _ _ [= E]. done.
Qed.

(** *** The capacity that leaves the origin at the start *)

Lemma edges_from_app L1 L2 k :
  edges_from (L1 ++ L2) k = edges_from L1 k ++ edges_from L2 k.
Proof. unfold edges_from. by rewrite filter_app, map_app. Qed.

Lemma edges_from_other L k :
  Forall (fun c : conn => c.1.1 <> Z.of_nat k) L -> edges_from L k = [].
Proof.
  induction 1 as [|c L Hc _ IH]; [done|].
  rewrite edges_from_cons. by rewrite decide_False.
Qed.

Lemma srcsum_app L1 L2 o : srcsum (L1 ++ L2) o = srcsum L1 o + srcsum L2 o.
Proof.
  unfold srcsum. rewrite edges_from_app, map_app.
  induction (map e_w (edges_from L1 o)) as [|x l IH]; simpl; lia.
Qed.

Lemma srcsum_other L o :
  Forall (fun c : conn => c.1.1 <> Z.of_nat o) L -> srcsum L o = 0.
Proof. intros H. unfold srcsum. by rewrite edges_from_other. Qed.

Lemma srcsum_with_reverse A o : srcsum (with_reverse A) o = srcsum A o.
Proof.
  unfold srcsum. induction A as [|[[u v] w] A IH]; [done|].
  simpl. rewrite !edges_from_cons. simpl.
  repeat case_decide; simpl; rewrite IH; lia.
Qed.

Lemma srcsum_cons c L o :
  srcsum (c :: L) o
  = (if decide (c.1.1 = Z.of_nat o) then c.2 else 0) + srcsum L o.
Proof. unfold srcsum. rewrite edges_from_cons. by case_decide. Qed.

Lemma srcsum_imap (f : nat -> Z) (l : list Z) o w :
  l !! o = Some w ->
  srcsum (imap (fun i x => (Z.of_nat i, f i, x)) l) o = w.
Proof.
  intros Ho. rewrite <- (take_drop_middle l o w Ho).
  assert (Hlen : length (take o l) = o).
  { rewrite length_take. apply lookup_lt_Some in Ho. lia. }
  rewrite imap_app, imap_cons, srcsum_app, srcsum_cons. rewrite Hlen.
  rewrite srcsum_other.
  2:{ apply Forall_forall. intros c Hc.
      apply elem_of_lookup_imap in Hc as (i & x & -> & Hi).
      apply lookup_lt_Some in Hi. simpl. lia. }
  rewrite srcsum_other.
  2:{ apply Forall_forall. intros c Hc.
      apply elem_of_lookup_imap in Hc as (i & x & -> & Hi). simpl. lia. }
  simpl. rewrite decide_True by lia. lia.
Qed.

(** At the start, the capacity that leaves the origin is [maxOut[origin]],
    when the origin is no target. *)
Lemma srcsum_arcs connections maxIn maxOut origin targets o :
  ids_in_range connections maxIn maxOut origin targets ->
  origin ∉ targets -> origin = Z.of_nat o ->
  srcsum (arcs connections maxIn maxOut targets) o
  = default 0 (maxOut !! o).
Proof.
  intros (Hlen & Hc & Ho & Ht) Hnotin ->.
  rewrite Forall_forall in Hc. rewrite Forall_forall in Ht.
  destruct (lookup_lt_is_Some_2 maxOut o) as [w Hw]; [lia|].
  unfold arcs. rewrite !srcsum_app.
  rewrite (srcsum_imap _ _ _ _ Hw), Hw. simpl.
  rewrite !srcsum_other; [lia|..]; apply Forall_forall; intros c Hin.
  - apply list_elem_of_fmap in Hin as (t & -> & Hin). simpl. congruence.
  - apply list_elem_of_fmap in Hin as (x & -> & Hin). simpl.
    specialize (Hc x Hin). lia.
  - apply elem_of_lookup_imap in Hin as (i & x & -> & Hi). simpl. lia.
Qed.

(** For a well-formed input without two channels between the same data
    centres in the same direction, without a target listed twice and whose
    origin is no target, [maxThroughput] returns, after at most
    [maxOut[origin]] turns of the loop that find a path, a value between 0
    and [maxOut[origin]]. *)
Theorem maxThroughput_terminates_without_parallel_channels connections maxIn
  maxOut origin targets :
  well_formed connections maxIn maxOut origin targets ->
  NoDup (map fst connections) -> NoDup targets -> origin ∉ targets ->
  exists v,
    0 <= v <= default 0 (maxOut !! Z.to_nat origin)
    /\ forall k,
         maxThroughput
           (Datatypes.S (Z.to_nat (default 0 (maxOut !! Z.to_nat origin))) + k)
           connections maxIn maxOut origin targets = Ret v.
Proof.
  intros Hwf Hndc Hndt Hnotin.
  pose proof (proj1 Hwf) as Hr.
  destruct (build_transformed _ _ _ _ _ Hr) as (g & Hg & Hl & Hadj).
  destruct (Inv_build _ _ _ _ _ _ Hwf Hg) as [HA HI].
  set (A := arcs connections maxIn maxOut targets) in *.
  set (o := Z.to_nat origin).
  assert (Ho : origin = Z.of_nat o) by (destruct Hr as (_ & _ & ? & _); lia).
  assert (Hon : (o < Datatypes.S (length maxIn * 3))%nat)
    by (destruct Hr as (_ & _ & ? & _); lia).
  assert (Hout : out g o = default 0 (maxOut !! o)).
  { rewrite <- (srcsum_arcs connections maxIn maxOut origin targets o) by done.
    rewrite <- srcsum_with_reverse. unfold out, srcsum, edges_of.
    by rewrite Hadj by lia. }
  assert (Hm : 0 <= default 0 (maxOut !! o)).
  { rewrite <- Hout. apply out_nonneg, HI. }
  assert (Hsimple : simple (with_reverse A)).
  { apply simple_with_reverse.
    - by apply (arcs_NoDup _ _ _ origin).
    - by apply (arcs_oriented _ _ _ origin). }
  assert (Hna : not_adjacent origin (Z.of_nat (length maxIn) * 3) A)
    by by apply arcs_not_adjacent.
  assert (Hne : origin <> Z.of_nat (length maxIn) * 3)
    by (destruct Hr as (_ & _ & ? & _); lia).
  assert (Hsink : 0 <= Z.of_nat (length maxIn) * 3) by lia.
  assert (Hlt : out g o
                < Z.of_nat (Datatypes.S (Z.to_nat (default 0 (maxOut !! o)))))
    by lia.
  destruct (fordFulkerson_loop_terminates A _ origin _ o HA Hsimple Hna Ho Hon
              Hne Hsink _ g 0 HI Hlt) as (g' & flow' & Hloop & Hle).
  exists flow'. split; [lia|]. intros k.
  apply maxThroughput_more_fuel.
  unfold maxThroughput, fordFulkerson. rewrite Hg. ret_bind.
  by rewrite Hloop.
Qed.

Lemma maxThroughput_terminates_without_parallel_channels_witness :
  exists v,
    0 <= v <= 10
    /\ forall k,
         maxThroughput (11 + k) [(0, 1, 5); (0, 2, 5); (1, 3, 5); (2, 3, 5)]
           [10; 10; 10; 10] [10; 10; 10; 10] 0 [3] = Ret v.
Proof.
  apply (maxThroughput_terminates_without_parallel_channels
           [(0, 1, 5); (0, 2, 5); (1, 3, 5); (2, 3, 5)]
           [10; 10; 10; 10] [10; 10; 10; 10] 0 [3]).
  - unfold well_formed, ids_in_range, capacities_nonneg. simpl.
    repeat constructor; simpl; lia.
  - apply (bool_decide_unpack _). vm_compute. exact I.
  - apply (bool_decide_unpack _). vm_compute. exact I.
  - apply (bool_decide_unpack _). vm_compute. exact I.
Defined.

(** ** A target that is no index of [maxIn] *)

Lemma py_get_indexable {A} (l : list A) (i : Z) :
  indexable (length l) i -> exists x, py_get l i = Ret x.
Proof.
  intros H. destruct (py_index_indexable _ _ H) as (k & Hk & Hlt).
  destruct (lookup_lt_is_Some_2 l k Hlt) as [x Hx].
  exists x. by apply (py_get_of_index _ _ k).
Qed.

Lemma py_get_not_indexable {A} (l : list A) (i : Z) :
  ~ indexable (length l) i -> py_get l i = Raise IndexError.
Proof. intros H. unfold py_get. by rewrite (py_index_not_indexable _ _ H). Qed.

Lemma for_range_targets_raises (maxIn : list Z) (suf : list Z) :
  forall (pre : list Z) (pc : list conn),
    Exists (fun t => ~ indexable (length maxIn) t) suf ->
    for_range (fun (i : Z) (pc : list conn) =>
                 t ← py_get (pre ++ suf) i;
                 let u := t in
                 let v := Z.of_nat (length maxIn) * 3 in
                 w ← py_get maxIn t;
                 Ret (pc ++ [(u, v, w)] ++ [(v, u, 0)]))
      (Z.of_nat (length pre)) (length suf) pc
    = Raise IndexError.
Proof.
  induction suf as [|t suf IH]; intros pre pc Hex.
  - by apply Exists_nil in Hex.
  - simpl. rewrite (py_get_lookup _ _ t) by (by apply list_lookup_middle).
    ret_bind.
    destruct (decide (indexable (length maxIn) t)) as [Ht|Ht].
    + destruct (py_get_indexable maxIn t Ht) as [w ->]. ret_bind.
      apply Exists_cons in Hex as [Hex|Hex]; [done|].
      replace (pre ++ t :: suf) with ((pre ++ [t]) ++ suf)
        by (by rewrite <- app_assoc).
      replace (Z.of_nat (length pre) + 1) with (Z.of_nat (length (pre ++ [t])))
        by (rewrite length_app; simpl; lia).
      by apply IH.
    + by rewrite (py_get_not_indexable _ _ Ht).
Qed.

(** When some target [t] is such that [maxIn[t]] is not defined,
    [maxThroughput] raises [IndexError], before any graph is built. *)
Theorem maxThroughput_target_raises_IndexError connections maxIn maxOut origin
  targets :
  Exists (fun t => ~ indexable (length maxIn) t) targets ->
  forall fuel,
    maxThroughput fuel connections maxIn maxOut origin targets
    = Raise IndexError.
Proof.
  intros Hex fuel. unfold maxThroughput, build, preprocess.
  rewrite (for_range_pairs _ maxIn
             (fun i w => (Z.of_nat i + Z.of_nat (length maxIn), Z.of_nat i, w))).
  2:{ intros k x pc' Hk. by rewrite (py_get_lookup _ _ _ Hk). }
  ret_bind.
  rewrite (for_range_pairs _ maxOut
             (fun i w => (Z.of_nat i, Z.of_nat i + Z.of_nat (length maxIn) * 2, w))).
  2:{ intros k x pc' Hk. by rewrite (py_get_lookup _ _ _ Hk). }
  ret_bind.
  rewrite (for_range_pairs _ connections
             (const (fun c : conn =>
                (c.1.1 + Z.of_nat (length maxIn) * 2,
                 c.1.2 + Z.of_nat (length maxIn), c.2)))).
  2:{ intros k [[a b] t] pc' Hk. by rewrite (py_get_lookup _ _ _ Hk). }
  ret_bind.
  by rewrite (for_range_targets_raises maxIn targets [] _ Hex).
Qed.

Lemma maxThroughput_target_raises_IndexError_witness :
  maxThroughput 5 [(0, 1, 10)] [20; 20] [20; 20] 0 [2] = Raise IndexError.
Proof.
  apply (maxThroughput_target_raises_IndexError [(0, 1, 10)] [20; 20] [20; 20]
           0 [2]).
  apply Exists_cons_hd. unfold indexable. simpl. lia.
Defined.

(** ** What the loop of [fordFulkerson] leaves behind *)

Lemma round_none g source sink g' :
  round g source sink = Ret (g', None) ->
  hasAugmentingPath g source sink = Ret (g', false).
Proof.
  unfold round.
  destruct (hasAugmentingPath g source sink) as [[g1 found]|ex|];
    try discriminate.
  ret_bind. destruct found; [|by intros [= <-]].
  destruct (getAugmentingPath g1 source sink) as [[path sv]|ex|];
    try discriminate.
  ret_bind.
  destruct (for_range (augment_hop path sv) 1
              (Z.to_nat (Z.of_nat (length path) - 1 - 1)) g1) as [g2|ex|];
    discriminate.
Qed.

Lemma after_rounds_clear source sink g0 g :
  Forall clear g0 -> after_rounds source sink g0 g -> Forall clear g.
Proof.
  intros H0. induction 1 as [|g g' b _ IH Hround]; [done|].
  destruct (round_inversion _ _ _ _ _ Hround) as (g1 & path & g2 & _ & _ & _ & ->).
  unfold reset. apply Forall_forall. intros v Hv.
  apply list_elem_of_fmap in Hv as (v0 & -> & _). by repeat split.
Qed.

Lemma reach_same_edges (g g' : Graph) s k :
  map edges g' = map edges g -> reach g s k -> reach g' s k.
Proof.
  intros Hm. induction 1 as [|u k _ IH Hhop]; [constructor|].
  apply (reach_hop _ _ u); [done|]. by apply (hop_same_edges g).
Qed.

(** When [fordFulkerson], started on a graph in a clear search state,
    returns, no edges of positive capacity lead from [source] to [sink] in
    the graph that it leaves. *)
Theorem fordFulkerson_leaves_no_path fuel g0 source sink flow g' flow' :
  Forall clear g0 ->
  fordFulkerson_loop fuel g0 source sink flow = Ret (g', flow') ->
  exists s0,
    py_index (length g') source = Ret s0
    /\ forall t, Z.of_nat t = sink -> ~ reach g' s0 t.
Proof.
  intros Hclear Hloop.
  destruct (fordFulkerson_loop_after_rounds _ _ _ _ _ _ _ Hloop)
    as (g & Hafter & Hlast).
  pose proof (after_rounds_clear _ _ _ _ Hclear Hafter) as Hc.
  apply round_none in Hlast.
  destruct (search_decides _ _ _ _ _ Hc Hlast) as (s0 & Hs0 & Hiff).
  assert (Hm : map edges g' = map edges g).
  { pose proof (search_outcome g source sink) as Hout.
    rewrite Hlast in Hout. apply Hout. }
  exists s0. split; [by rewrite (length_map_edges _ _ Hm)|].
  intros t Ht Hr.
  assert (false = true); [|done]. apply Hiff. exists t. split; [done|].
  by apply (reach_same_edges g' g).
Qed.

Lemma fordFulkerson_leaves_no_path_witness :
  exists g' flow',
    fordFulkerson_loop 5 three_in_a_row 0 2 0 = Ret (g', flow')
    /\ exists s0,
         py_index (length g') 0 = Ret s0
         /\ forall t, Z.of_nat t = 2 -> ~ reach g' s0 t.
Proof.
  eexists. eexists. split; [vm_compute; reflexivity|].
  apply (fordFulkerson_leaves_no_path 5 three_in_a_row 0 2 0 _ 5).
  - repeat constructor.
  - vm_compute. reflexivity.
Defined.

(** ** The loop that reverses the path *)

Lemma py_set_of_nat {A} (l : list A) (k : nat) (x : A) :
  (k < length l)%nat -> py_set l (Z.of_nat k) x = Ret (<[k:=x]> l).
Proof. intros H. unfold py_set. by rewrite py_index_of_nat. Qed.

Lemma swap_ends_middle (pre mid post : list Z) (x y : Z) :
  length pre = length post ->
  swap_ends (Z.of_nat (length pre)) (pre ++ (x :: mid ++ [y]) ++ post)
  = Ret ((pre ++ [y]) ++ mid ++ [x] ++ post).
Proof.
  intros Hlen. unfold swap_ends.
  set (l := pre ++ (x :: mid ++ [y]) ++ post).
  assert (Hl : length l = (length pre + Datatypes.S (length mid) + 1 + length post)%nat).
  { unfold l. rewrite !length_app. simpl. rewrite length_app. simpl. lia. }
  assert (Hy : l = (pre ++ x :: mid) ++ y :: post).
  { unfold l. simpl. rewrite <- !app_assoc. done. }
  replace (Z.of_nat (length l) - Z.of_nat (length pre) - 1)
    with (Z.of_nat (length (pre ++ x :: mid)))
    by (rewrite Hl, length_app; simpl; lia).
  rewrite (py_get_lookup l (length (pre ++ x :: mid)) y) by (rewrite Hy; apply list_lookup_middle; done).
  ret_bind.
  rewrite (py_get_lookup l (length pre) x) by (unfold l; apply list_lookup_middle; done).
  ret_bind.
  rewrite py_set_of_nat by lia. ret_bind.
  rewrite length_insert.
  replace (Z.of_nat (length l) - Z.of_nat (length pre) - 1)
    with (Z.of_nat (length (pre ++ x :: mid)))
    by (rewrite Hl, length_app; simpl; lia).
  rewrite py_set_of_nat
    by (rewrite length_insert, Hl, length_app; simpl; lia).
  f_equal. unfold l.
  replace (length pre) with (length pre + 0)%nat at 1 by lia.
  rewrite insert_app_r. simpl.
  replace (pre ++ y :: (mid ++ [y]) ++ post)
    with ((pre ++ y :: mid) ++ y :: post) by (by rewrite <- !app_assoc).
  replace (length (pre ++ x :: mid)) with (length (pre ++ y :: mid) + 0)%nat
    by (rewrite !length_app; simpl; lia).
  rewrite insert_app_r. simpl. by rewrite <- !app_assoc.
Qed.

Lemma for_range_swap_ends (m : nat) :
  forall pre mid post : list Z,
    length pre = length post ->
    Z.to_nat (Z.of_nat (length mid) / 2) = m ->
    for_range swap_ends (Z.of_nat (length pre)) m (pre ++ mid ++ post)
    = Ret (pre ++ reverse mid ++ post).
Proof.
  induction m as [|m IH]; intros pre mid post Hlen Hm.
  - simpl. destruct mid as [|x [|x' mid]]; [done|done|].
    exfalso. simpl length in Hm.
    assert (1 <= Z.of_nat (Datatypes.S (Datatypes.S (length mid))) / 2)
      by (apply Z.div_le_lower_bound; lia).
    lia.
  - destruct mid as [|x mid]; [done|].
    destruct mid as [|y mid _] using rev_ind; [done|].
    change (for_range swap_ends ?i (Datatypes.S m) ?l)
      with (l' ← swap_ends i l; for_range swap_ends (i + 1) m l').
    rewrite (swap_ends_middle pre mid post x y Hlen).
    ret_bind.
    replace (Z.of_nat (length pre) + 1) with (Z.of_nat (length (pre ++ [y])))
      by (rewrite length_app; simpl; lia).
    rewrite (IH (pre ++ [y]) mid ([x] ++ post)).
    + f_equal. rewrite reverse_cons, reverse_app. simpl.
      by rewrite <- !app_assoc.
    + rewrite !length_app. simpl. lia.
    + simpl length in Hm. rewrite length_app in Hm. simpl in Hm.
      replace (Z.of_nat (Datatypes.S (length mid + 1)))
        with (Z.of_nat (length mid) + 1 * 2) in Hm by lia.
      rewrite Z.div_add in Hm by lia. lia.
Qed.

(** The loop at the end of [getAugmentingPath], which swaps [path[i]] and
    [path[len(path)-i-1]] for [i] below [len(path)//2], raises nothing and
    leaves the list reversed. *)
Theorem reverse_in_place_reverses (path : list Z) :
  reverse_in_place path = Ret (reverse path).
Proof.
  unfold reverse_in_place.
  pose proof (for_range_swap_ends _ [] path [] eq_refl eq_refl) as H.
  simpl in H. by rewrite !app_nil_r in H.
Qed.

(** ** [getAugmentingPath] without a search before it *)

(** On a graph with at least one vertex in which no vertex has a [previous],
    such as a graph just built or just reset, [getAugmentingPath(source,
    sink)] with [sink != source] returns no path: it raises [AttributeError]
    at [self.vertices[sink].previous.id], or [IndexError] when
    [self.vertices[sink]] is not defined. *)
Theorem getAugmentingPath_without_search self source sink :
  self <> [] ->
  Forall (fun v => previous v = None) self ->
  sink <> source ->
  (indexable (length self) sink ->
   getAugmentingPath self source sink = Raise AttributeError)
  /\ (~ indexable (length self) sink ->
      getAugmentingPath self source sink = Raise IndexError).
Proof.
  intros Hne Hprev Hs. unfold getAugmentingPath.
  destruct self as [|v0 self]; [done|].
  set (g := v0 :: self) in *.
  change (length g) with (Datatypes.S (length self)) at 3 4.
  simpl backtrack.
  destruct (sink =? source) eqn:E; [apply Z.eqb_eq in E; done|].
  split; intros Hi.
  - destruct (py_get_indexable g sink Hi) as [v Hv]. rewrite Hv. ret_bind.
    apply py_get_ret in Hv as (k & _ & Hk).
    rewrite Forall_forall in Hprev.
    rewrite (Hprev v) by (by eapply list_elem_of_lookup_2). done.
  - by rewrite (py_get_not_indexable g sink Hi).
Qed.

Lemma getAugmentingPath_without_search_witness :
  getAugmentingPath two_vertices 0 1 = Raise AttributeError
  /\ getAugmentingPath two_vertices 0 2 = Raise IndexError.
Proof.
  split.
  - apply (getAugmentingPath_without_search two_vertices 0 1);
      [discriminate|repeat constructor|lia|unfold indexable; simpl; lia].
  - apply (getAugmentingPath_without_search two_vertices 0 2);
      [discriminate|repeat constructor|lia|unfold indexable; simpl; lia].
Defined.

(** ** An origin that is no index of the vertices *)

Lemma build_returns connections maxIn maxOut targets :
  length maxOut = length maxIn ->
  Forall (fun c : conn => (0 <= c.1.1 < Z.of_nat (length maxIn))
                          /\ (0 <= c.1.2 < Z.of_nat (length maxIn)))
    connections ->
  Forall (fun t => 0 <= t < Z.of_nat (length maxIn)) targets ->
  exists g,
    build connections maxIn maxOut targets = Ret g
    /\ length g = Datatypes.S (length maxIn * 3).
Proof.
  intros Hlen Hc Ht.
  destruct maxIn as [|w maxIn].
  - destruct maxOut; [|done].
    destruct connections as [|c ?];
      [|apply Forall_cons in Hc as [[H _] _]; simpl in H; lia].
    destruct targets as [|t ?];
      [|apply Forall_cons in Ht as [H _]; simpl in H; lia].
    eexists. split; [vm_compute; reflexivity|done].
  - destruct (build_transformed connections (w :: maxIn) maxOut 0 targets)
      as (g & Hg & Hl & _).
    { repeat split; try done; simpl; lia. }
    by exists g.
Qed.

(** With ids of connections and targets in range, an [origin] that is no
    index of the [3N+1] vertices makes [maxThroughput] raise [IndexError],
    at [self.vertices[source]] in the first search. *)
Theorem maxThroughput_origin_raises_IndexError connections maxIn maxOut origin
  targets fuel :
  length maxOut = length maxIn ->
  Forall (fun c : conn => (0 <= c.1.1 < Z.of_nat (length maxIn))
                          /\ (0 <= c.1.2 < Z.of_nat (length maxIn)))
    connections ->
  Forall (fun t => 0 <= t < Z.of_nat (length maxIn)) targets ->
  ~ indexable (Datatypes.S (length maxIn * 3)) origin ->
  maxThroughput (Datatypes.S fuel) connections maxIn maxOut origin targets
  = Raise IndexError.
Proof.
  intros Hlen Hc Ht Ho.
  destruct (build_returns _ _ _ _ Hlen Hc Ht) as (g & Hg & Hl).
  unfold maxThroughput. rewrite Hg. ret_bind.
  unfold fordFulkerson. simpl fordFulkerson_loop.
  unfold round, hasAugmentingPath.
  rewrite Hl, (py_index_not_indexable _ _ Ho). done.
Qed.

Lemma maxThroughput_origin_raises_IndexError_witness :
  maxThroughput 1 [(0, 1, 10)] [20; 20] [20; 20] 7 [1] = Raise IndexError.
Proof.
  apply (maxThroughput_origin_raises_IndexError [(0, 1, 10)] [20; 20] [20; 20]
           7 [1] 0).
  - reflexivity.
  - repeat constructor; simpl; lia.
  - repeat constructor; simpl; lia.
  - unfold indexable. simpl. lia.
Defined.
